(** * BTNX protocol: chunking, erasure coding, encryption and manifest

    A shallow embedding of the Go packages [chunker], [crypto] and
    [manifest] of the BTNX protocol, together with executable models of
    the library primitives they call (SHA-256, hex encoding, the
    Reed-Solomon(4,2) codec over GF(2^8), XChaCha20-Poly1305 and the JSON
    encoding of the manifest), followed by the properties of the pipeline.

    Conventions.  A Go [[]byte] is a [list byte]; where the code tells a
    nil slice from an allocated one the model says so explicitly.  A Go
    [string] is a [string] (a sequence of 8-bit characters).  A Go [int]
    or [int64] is a [Z], with the 64-bit wrap-around written out where the
    code computes with it.  A channel is the list of the values sent on it
    before it is closed.  A function returning [(T, error)] returns a
    [result]. *)

From Stdlib Require Import ZArith NArith List Ascii String Lia Bool.
From Stdlib.Strings Require Import Byte.
From stdpp Require Import base option list gmap strings.
Import ListNotations.

Local Open Scope Z_scope.

(** ** Results and machine integers *)

Inductive result (E A : Type) : Type :=
| Ok (a : A)
| Err (e : E).
Arguments Ok {E A} a.
Arguments Err {E A} e.

Definition is_Ok {E A} (r : result E A) : bool :=
  match r with Ok _ => true | Err _ => false end.

Definition bind {E A B} (r : result E A) (k : A -> result E B) : result E B :=
  match r with Ok a => k a | Err e => Err e end.

Notation "x <-! r ; k" := (bind r (fun x => k))
  (at level 100, r at next level, right associativity).

(** Two's-complement wrap-around of a 64-bit signed integer. *)
Definition wrap64 (z : Z) : Z := (z + 2 ^ 63) mod 2 ^ 64 - 2 ^ 63.

(** [len] of a slice, as a Go [int]. *)
Definition len {A} (l : list A) : Z := Z.of_nat (length l).

(** The byte with value [n mod 256]. *)
Definition byte_of_N (n : N) : byte :=
  match Byte.of_N (n mod 256)%N with Some b => b | None => x00 end.

Definition bxor (a b : byte) : byte :=
  byte_of_N (N.lxor (Byte.to_N a) (Byte.to_N b)).

#[global] Instance byte_eq_decision : EqDecision byte.
Proof.
  intros a b. destruct (decide (Byte.to_N a = Byte.to_N b)) as [H | H].
  - left. apply (f_equal Byte.of_N) in H.
    rewrite !Byte.of_to_N in H. congruence.
  - right. congruence.
Defined.

(** ** crypto/sha256 and encoding/hex *)

Module sha256.
Local Open Scope N_scope.

Definition mask32 : N := 0xffffffff.
Definition add32 (a b : N) : N := (a + b) mod 2 ^ 32.
Definition rotr (n x : N) : N :=
  N.lor (N.shiftr x n) (N.land (N.shiftl x (32 - n)) mask32).
Definition not32 (x : N) : N := N.lxor x mask32.

Definition Ch (x y z : N) : N := N.lxor (N.land x y) (N.land (not32 x) z).
Definition Maj (x y z : N) : N :=
  N.lxor (N.lxor (N.land x y) (N.land x z)) (N.land y z).
Definition bsig0 (x : N) : N := N.lxor (N.lxor (rotr 2 x) (rotr 13 x)) (rotr 22 x).
Definition bsig1 (x : N) : N := N.lxor (N.lxor (rotr 6 x) (rotr 11 x)) (rotr 25 x).
Definition ssig0 (x : N) : N := N.lxor (N.lxor (rotr 7 x) (rotr 18 x)) (N.shiftr x 3).
Definition ssig1 (x : N) : N := N.lxor (N.lxor (rotr 17 x) (rotr 19 x)) (N.shiftr x 10).

(** The constants of the hash are the first 32 bits of the fractional
    parts of the cube roots (round constants) and of the square roots
    (initial state) of the first primes. *)
Definition is_prime (n : nat) : bool :=
  forallb (fun d => negb (Nat.eqb (n mod d) 0)) (seq 2 (n - 2)).

Definition primes (count : nat) : list N :=
  map N.of_nat (take count (filter (fun n => is_prime n = true) (seq 2 310))).

(** The integer [k]th root of [x], found bit by bit from bit [bits - 1]. *)
Fixpoint iroot (k x : N) (bits : nat) (r : N) : N :=
  match bits with
  | O => r
  | S b =>
      let c := r + 2 ^ N.of_nat b in
      iroot k x b (if c ^ k <=? x then c else r)
  end.

Definition frac32 (k p : N) : N := iroot k (p * 2 ^ (32 * k)) 36 0 mod 2 ^ 32.

Definition K : list N := Eval vm_compute in map (frac32 3) (primes 64).

Definition H0 : list N := Eval vm_compute in map (frac32 2) (primes 8).

(** Big-endian encoding of [x] on [n] bytes. *)
Fixpoint be_bytes (n : nat) (x : N) : list byte :=
  match n with
  | O => []
  | S n' => byte_of_N (N.shiftr x (8 * N.of_nat n')) :: be_bytes n' x
  end.

Definition be_word (bs : list byte) : N :=
  fold_left (fun acc b => N.lor (N.shiftl acc 8) (Byte.to_N b)) bs 0.

(** Padding: a one bit, zeros up to 56 mod 64, then the bit length. *)
Definition pad (msg : list byte) : list byte :=
  let l := length msg in
  let z := ((119 - l mod 64) mod 64)%nat in
  msg ++ x80 :: repeat x00 z ++ be_bytes 8 (8 * N.of_nat l).

Fixpoint words (n : nat) (bs : list byte) : list N :=
  match n with
  | O => []
  | S n' => be_word (firstn 4 bs) :: words n' (skipn 4 bs)
  end.

(** Message schedule; [rw] holds the words computed so far, latest first. *)
Fixpoint schedule (k : nat) (rw : list N) : list N :=
  match k with
  | O => rev rw
  | S k' =>
      let w := add32 (add32 (ssig1 (nth 1 rw 0)) (nth 6 rw 0))
                     (add32 (ssig0 (nth 14 rw 0)) (nth 15 rw 0)) in
      schedule k' (w :: rw)
  end.

Definition round (s : list N) (kw : N * N) : list N :=
  match s with
  | [a; b; c; d; e; f; g; h] =>
      let t1 := add32 (add32 (add32 h (bsig1 e)) (add32 (Ch e f g) (fst kw))) (snd kw) in
      let t2 := add32 (bsig0 a) (Maj a b c) in
      [add32 t1 t2; a; b; c; add32 d t1; e; f; g]
  | _ => s
  end.

Definition compress (h : list N) (block : list byte) : list N :=
  let w := schedule 48 (rev (words 16 block)) in
  let s := fold_left round (combine K w) h in
  map (fun p => add32 (fst p) (snd p)) (combine h s).

Fixpoint blocks (n : nat) (h : list N) (bs : list byte) : list N :=
  match n with
  | O => h
  | S n' => blocks n' (compress h (firstn 64 bs)) (skipn 64 bs)
  end.

(** [sha256.Sum256]. *)
Definition Sum256 (data : list byte) : list byte :=
  let p := pad data in
  flat_map (be_bytes 4) (blocks (length p / 64) H0 p).

End sha256.

Module hex.

Definition digit (n : N) : ascii :=
  ascii_of_N (if (n <? 10)%N then 48 + n else 87 + n)%N.

(** [hex.EncodeToString]: two lower-case digits per byte. *)
Fixpoint EncodeToString (src : list byte) : string :=
  match src with
  | [] => EmptyString
  | b :: rest =>
      let n := Byte.to_N b in
      String (digit (n / 16)%N) (String (digit (n mod 16)%N) (EncodeToString rest))
  end.


Inductive error : Type :=
| InvalidByteError (b : ascii)
| ErrLength.


End hex.

(** ** github.com/klauspost/reedsolomon

    Modelled from the spec: the erasure codec is an external library; the
    design names it a Reed-Solomon(k=4,m=2) codec exposing
    split/encode/reconstruct/verify/join over byte buffers, a
    Vandermonde-matrix GF(2^8) coder.  The model follows the library's
    documented behaviour: the field is GF(2^8) with polynomial 0x11D, the
    coding matrix is the Vandermonde matrix made systematic, a shard slot
    of length zero is a missing shard. *)

Module reedsolomon.

Inductive error : Type :=
| ErrInvShardNum
| ErrMaxShardNum
| ErrShortData
| ErrTooFewShards
| ErrShardNoData
| ErrShardSize
| ErrReconstructRequired
| ErrSingular.

(** *** The field GF(2^8) *)

Definition xtime (a : N) : N :=
  let s := N.shiftl a 1 in
  if N.testbit s 8 then N.lxor s 0x11D else s.

Fixpoint mul_bits (n : nat) (a b : N) : N :=
  match n with
  | O => 0%N
  | S n' =>
      N.lxor (if N.testbit b 0 then a else 0%N)
             (mul_bits n' (xtime a) (N.shiftr b 1))
  end.

Definition galAdd (a b : byte) : byte := bxor a b.

Definition galMultiply (a b : byte) : byte :=
  byte_of_N (mul_bits 8 (Byte.to_N a) (Byte.to_N b)).

Fixpoint galExp (a : byte) (n : nat) : byte :=
  match n with
  | O => x01
  | S n' => galMultiply a (galExp a n')
  end.

(** The inverse of a non-zero element is its 254th power. *)
Definition galInverse (a : byte) : byte := galExp a 254.

Definition galDivide (a b : byte) : byte := galMultiply a (galInverse b).

(** *** Matrices over the field, as lists of rows *)

Definition matrix : Type := list (list byte).

Definition dot (cs xs : list byte) : byte :=
  foldr bxor x00 (zip_with galMultiply cs xs).

Definition column (i : nat) (m : matrix) : list byte :=
  map (fun row => nth i row x00) m.

Definition identityMatrix (size : nat) : matrix :=
  map (fun r => map (fun c => if Nat.eqb r c then x01 else x00) (seq 0 size))
      (seq 0 size).

Definition vandermonde (rows cols : nat) : matrix :=
  map (fun r => map (fun c => galExp (byte_of_N (N.of_nat r)) c) (seq 0 cols))
      (seq 0 rows).

Definition Multiply (m right : matrix) : matrix :=
  let cols := length (hd [] right) in
  map (fun row => map (fun c => dot row (column c right)) (seq 0 cols)) m.

Definition scale_row (c : byte) (row : list byte) : list byte :=
  map (galMultiply c) row.

Definition add_row (a b : list byte) : list byte := zip_with bxor a b.

(** Gauss-Jordan elimination on the rows of an augmented matrix: for each
    column [r] find a row at or below [r] with a non-zero pivot, bring it
    to position [r], scale it so that the pivot is one, and clear the
    column in every other row. *)
Fixpoint find_pivot (r : nat) (k : nat) (m : matrix) : option nat :=
  match m with
  | [] => None
  | row :: rest =>
      if andb (Nat.leb r k) (negb (N.eqb (Byte.to_N (nth r row x00)) 0))
      then Some k
      else find_pivot r (S k) rest
  end.

Definition swap_rows (i j : nat) (m : matrix) : matrix :=
  let ri := nth i m [] in
  let rj := nth j m [] in
  <[i := rj]> (<[j := ri]> m).

Definition eliminate (r : nat) (m : matrix) : matrix :=
  let pivot := nth r m [] in
  imap (fun k row =>
          if Nat.eqb k r then row
          else add_row row (scale_row (nth r row x00) pivot)) m.

Fixpoint gauss (steps : nat) (r : nat) (m : matrix) : option matrix :=
  match steps with
  | O => Some m
  | S steps' =>
      match find_pivot r 0 m with
      | None => None
      | Some p =>
          let m1 := swap_rows r p m in
          let prow := nth r m1 [] in
          let m2 := <[r := scale_row (galInverse (nth r prow x00)) prow]> m1 in
          gauss steps' (S r) (eliminate r m2)
      end
  end.

Definition Invert (m : matrix) : result error matrix :=
  let size := length m in
  let work := zip_with app m (identityMatrix size) in
  match gauss size 0 work with
  | None => Err ErrSingular
  | Some w => Ok (map (drop size) w)
  end.

(** The coding matrix: the Vandermonde matrix multiplied by the inverse of
    its top square, so that the first [dataShards] rows are the identity. *)
Definition buildMatrix (dataShards totalShards : nat) : matrix :=
  let vm := vandermonde totalShards dataShards in
  match Invert (take dataShards vm) with
  | Ok topInv => Multiply vm topInv
  | Err _ => []
  end.

Record Encoder : Type := mkEncoder {
  dataShards : nat;
  parityShards : nat;
  m : matrix;
}.

Definition totalShards (r : Encoder) : nat := dataShards r + parityShards r.

Definition parity (r : Encoder) : matrix := drop (dataShards r) (m r).

Definition New (dataShards parityShards : Z) : result error Encoder :=
  if (dataShards <=? 0) || (parityShards <? 0) then Err ErrInvShardNum
  else if 256 <? dataShards + parityShards then Err ErrMaxShardNum
  else
    let d := Z.to_nat dataShards in
    let p := Z.to_nat parityShards in
    Ok (mkEncoder d p (buildMatrix d (d + p))).

(** *** Coding *)

(** A shard slot: [None] is a nil slice. *)
Definition slot : Type := option (list byte).

Definition slot_bytes (s : slot) : list byte := default [] s.

Definition slot_len (s : slot) : nat := length (slot_bytes s).

Definition galMulSlice (c : byte) (input : list byte) : list byte :=
  map (galMultiply c) input.

Definition sliceXor (input out : list byte) : list byte := zip_with bxor out input.

(** One output shard: the combination of the inputs with the coefficients
    of one matrix row, over [byteCount] bytes. *)
Definition codeShard (row : list byte) (inputs : list (list byte)) (byteCount : nat)
  : list byte :=
  foldl (fun out ci => sliceXor (galMulSlice ci.1 (take byteCount ci.2)) out)
        (replicate byteCount x00) (zip row inputs).

Definition codeSomeShards (matrixRows : matrix) (inputs : list (list byte))
    (byteCount : nat) : list (list byte) :=
  map (fun row => codeShard row inputs byteCount) matrixRows.

(** The length of the first shard that has data, zero if there is none. *)
Fixpoint shardSize (shards : list slot) : nat :=
  match shards with
  | [] => O
  | s :: rest => if Nat.eqb (slot_len s) 0 then shardSize rest else slot_len s
  end.

Definition checkShards (shards : list slot) (nilok : bool) : result error unit :=
  let size := shardSize shards in
  if Nat.eqb size 0 then Err ErrShardNoData
  else if forallb (fun s => Nat.eqb (slot_len s) size
                            || (Nat.eqb (slot_len s) 0 && nilok)) shards
       then Ok tt
       else Err ErrShardSize.

(** [Split]: the data in [dataShards] pieces of equal length, the last one
    padded with zeros, followed by [parityShards] zeroed shards. *)
Definition Split (r : Encoder) (data : list byte) : result error (list slot) :=
  if Nat.eqb (length data) 0 then Err ErrShortData
  else
    let perShard := ((length data + dataShards r - 1) / dataShards r)%nat in
    let padded := data ++ replicate (totalShards r * perShard - length data) x00 in
    Ok (map (fun i => Some (take perShard (drop (i * perShard) padded)))
            (seq 0 (totalShards r))).

(** [Encode]: overwrite the parity shards with the parity of the data shards. *)
Definition Encode (r : Encoder) (shards : list slot) : result error (list slot) :=
  if negb (Nat.eqb (length shards) (totalShards r)) then Err ErrTooFewShards
  else
    _ <-! checkShards shards false;
    let data := map slot_bytes (take (dataShards r) shards) in
    Ok (take (dataShards r) shards
        ++ map Some (codeSomeShards (parity r) data (shardSize shards))).

(** The first [n] indices whose shard has data. *)
Definition validIndices (n : nat) (shards : list slot) : list nat :=
  take n (filter (fun i => negb (Nat.eqb (slot_len (nth i shards None)) 0))
                 (seq 0 (length shards))).

(** [Reconstruct]: recreate the missing shards, data first, then parity. *)
Definition Reconstruct (r : Encoder) (shards : list slot) : result error (list slot) :=
  if negb (Nat.eqb (length shards) (totalShards r)) then Err ErrTooFewShards
  else
    _ <-! checkShards shards true;
    let size := shardSize shards in
    let numberPresent :=
      length (filter (fun s => negb (Nat.eqb (slot_len s) 0)) shards) in
    if Nat.eqb numberPresent (totalShards r) then Ok shards
    else if Nat.ltb numberPresent (dataShards r) then Err ErrTooFewShards
    else
      let valid := validIndices (dataShards r) shards in
      let subShards := map (fun i => slot_bytes (nth i shards None)) valid in
      let subMatrix := map (fun i => nth i (m r) []) valid in
      dataDecodeMatrix <-! Invert subMatrix;
      let data :=
        imap (fun i s =>
                if Nat.eqb (slot_len s) 0
                then codeShard (nth i dataDecodeMatrix []) subShards size
                else slot_bytes s)
             (take (dataShards r) shards) in
      let par :=
        imap (fun j s =>
                if Nat.eqb (slot_len s) 0
                then Some (codeShard (nth j (parity r) []) data size)
                else s)
             (drop (dataShards r) shards) in
      Ok (imap (fun i s => if Nat.eqb (slot_len s) 0
                           then Some (nth i data []) else s)
               (take (dataShards r) shards) ++ par).

(** [Verify]: the parity shards equal the parity of the data shards. *)
Definition Verify (r : Encoder) (shards : list slot) : result error bool :=
  if negb (Nat.eqb (length shards) (totalShards r)) then Err ErrTooFewShards
  else
    _ <-! checkShards shards false;
    let data := map slot_bytes (take (dataShards r) shards) in
    let expected := codeSomeShards (parity r) data (shardSize shards) in
    Ok (bool_decide (map slot_bytes (drop (dataShards r) shards) = expected)).

(** How many leading shards [Join] looks at: it stops counting as soon as
    it has seen [outSize] bytes, and fails on a nil shard before that. *)
Fixpoint join_size (shards : list slot) (size outSize : Z) : result error Z :=
  match shards with
  | [] => Ok size
  | None :: _ => Err ErrReconstructRequired
  | Some s :: rest =>
      let size' := size + len s in
      if outSize <=? size' then Ok size' else join_size rest size' outSize
  end.

(** [Join]: the data shards one after the other, cut at [outSize] bytes. *)
Definition Join (r : Encoder) (shards : list slot) (outSize : Z)
  : result error (list byte) :=
  if Nat.ltb (length shards) (dataShards r) then Err ErrTooFewShards
  else
    let data := take (dataShards r) shards in
    size <-! join_size data 0 outSize;
    if size <? outSize then Err ErrShortData
    else Ok (take (Z.to_nat outSize) (concat (map slot_bytes data))).

End reedsolomon.

(** ** Package chunker *)

Module chunker.

Definition ChunkSize : Z := 1024 * 1024.
Definition DataShards : Z := 4.
Definition ParityShards : Z := 2.
Definition TotalShards : Z := DataShards + ParityShards.

(** A file chunk with its metadata. *)
Record Chunk : Type := mkChunk {
  Chunk_Index : Z;
  Chunk_Data : list byte;
  Chunk_Hash : string;
  Chunk_Size : Z;
}.

(** An erasure-coded shard of a chunk.  [Shard_Data] is a slice that
    [ReconstructChunk] compares with nil: [None] is the nil slice. *)
Record Shard : Type := mkShard {
  Shard_ChunkIndex : Z;
  Shard_ShardIndex : Z;
  Shard_Data : reedsolomon.slot;
  Shard_Hash : string;
  Shard_Size : Z;
}.

(** The errors of the package, one constructor per [fmt.Errorf] site. *)
Inductive error : Type :=
| FailedToOpenFile
| FailedToReadChunk (index : Z)
| DataSizeMismatch (expected got : Z)
| FailedToCreateEncoder (cause : reedsolomon.error)
| FailedToSplit (cause : reedsolomon.error)
| FailedToEncode (cause : reedsolomon.error)
| NeedAtLeastShards (need got : Z)
| InvalidDataSize
| DifferentChunks
| FailedHashVerification (shardIndex : Z)
| InvalidShardIndex (shardIndex : Z)
| DuplicateShardIndex (shardIndex : Z)
| FailedToReconstruct (cause : reedsolomon.error)
| VerificationFailed (cause : reedsolomon.error)
| ReconstructedFailedVerification
| FailedToJoin (cause : reedsolomon.error)
| FailedToCreateOutput
| ChunkOutOfBounds (index max : Z)
| FailedToWriteChunk (index : Z)
| IncompleteFile (expected got : Z).

(** What travels on the channel of [StreamChunkFile]. *)
Record ChunkResult : Type := mkChunkResult {
  Result_Chunk : Chunk;
  Result_Err : option error;
}.

Definition zeroChunk : Chunk := mkChunk 0 [] EmptyString 0.

(** *** Files

    A file is its bytes; [file_fault] says that the device fails with an
    I/O error, instead of reporting the end of the file, once these bytes
    are consumed. *)
Record File : Type := mkFile {
  file_bytes : list byte;
  file_fault : bool;
}.

(** The disk that is written to: the paths at which no file can be
    created or written, and the number of bytes a file on it can hold,
    if there is a limit.  No file can be created at the empty path. *)
Record Disk : Type := mkDisk {
  disk_denied : gset string;
  disk_space : option Z;
}.

Definition creatable (disk : Disk) (path : string) : bool :=
  negb (bool_decide (path = EmptyString))
  && negb (bool_decide (path ∈ disk_denied disk)).

(** [os.Create(path)]: the file at [path], created or emptied; an error
    where no file can be created. *)
Definition os_Create (disk : Disk) (fs : gmap string File) (path : string)
  : option (gmap string File) :=
  if creatable disk path then Some (<[path := mkFile [] false]> fs) else None.

Inductive io_error : Type := EOF | ErrUnexpectedEOF | ErrDevice.

(** [io.ReadFull(file, buffer)] for a buffer of [size] bytes. *)
Definition ReadFull (file : File) (size : nat)
  : list byte * option io_error * File :=
  let buf := take size (file_bytes file) in
  let rest := mkFile (drop size (file_bytes file)) (file_fault file) in
  if Nat.eqb (length buf) size then (buf, None, rest)
  else if file_fault file then (buf, Some ErrDevice, rest)
  else if Nat.eqb (length buf) 0 then (buf, Some EOF, rest)
  else (buf, Some ErrUnexpectedEOF, rest).

(** [file.WriteAt(b, off)]: bytes between the old end of the file and
    [off] read as zero; writing no bytes leaves the file as it is. *)
Definition write_at (f b : list byte) (off : nat) : list byte :=
  match b with
  | [] => f
  | _ => take off (f ++ replicate (off - length f) x00) ++ b
         ++ drop (off + length b) f
  end.

(** The file after the call, and whether the call returned without
    error.  A negative offset is an error and writes nothing; writing no
    bytes succeeds; on a disk without room for all of [b] the bytes that
    fit are written and the call is an error. *)
Definition WriteAt (disk : Disk) (f b : list byte) (off : Z) : list byte * bool :=
  if off <? 0 then (f, false)
  else if len b =? 0 then (f, true)
  else
    match disk_space disk with
    | None => (write_at f b (Z.to_nat off), true)
    | Some limit =>
        if off + len b <=? limit then (write_at f b (Z.to_nat off), true)
        else (write_at f (take (Z.to_nat (limit - off)) b) (Z.to_nat off), false)
    end.

(** *** Hashes *)

Definition VerifyChunk (data : list byte) (expectedHash : string) : bool :=
  let actualHash := sha256.Sum256 data in
  bool_decide (hex.EncodeToString actualHash = expectedHash).

Definition VerifyShard (data : list byte) (expectedHash : string) : bool :=
  let actualHash := sha256.Sum256 data in
  bool_decide (hex.EncodeToString actualHash = expectedHash).

(** *** StreamChunkFile *)

(** The read loop of the producer; each turn reads one buffer.  [fuel]
    bounds the number of turns. *)
Fixpoint stream_loop (fuel : nat) (file : File) (index : Z) : list ChunkResult :=
  match fuel with
  | O => []
  | S fuel' =>
      let '(chunkData, err, file') := ReadFull file (Z.to_nat ChunkSize) in
      let n := len chunkData in
      match err with
      | Some EOF => []
      | Some ErrDevice => [mkChunkResult zeroChunk (Some (FailedToReadChunk index))]
      | Some ErrUnexpectedEOF | None =>
          let hash := sha256.Sum256 chunkData in
          let chunk := mkChunk index chunkData (hex.EncodeToString hash) n in
          mkChunkResult chunk None ::
            (if n <? ChunkSize then []
             else stream_loop fuel' file' (wrap64 (index + 1)))
      end
  end.

(** The values sent on the channel returned by [StreamChunkFile], in
    order; every turn but the last consumes [ChunkSize] bytes, so one more
    turn than the file has bytes is always enough. *)
Definition StreamChunkFile (fs : gmap string File) (filePath : string)
  : list ChunkResult :=
  match fs !! filePath with
  | None => [mkChunkResult zeroChunk (Some FailedToOpenFile)]
  | Some file => stream_loop (S (length (file_bytes file))) file 0
  end.

(** *** ShardChunk *)

Definition ShardChunk (chunk : Chunk) (encryptedData : list byte)
  : result error (list Shard) :=
  if negb (len encryptedData =? Chunk_Size chunk)
  then Err (DataSizeMismatch (Chunk_Size chunk) (len encryptedData))
  else
    match reedsolomon.New DataShards ParityShards with
    | Err e => Err (FailedToCreateEncoder e)
    | Ok enc =>
        match reedsolomon.Split enc encryptedData with
        | Err e => Err (FailedToSplit e)
        | Ok shards =>
            match reedsolomon.Encode enc shards with
            | Err e => Err (FailedToEncode e)
            | Ok shards =>
                Ok (map (fun i =>
                           let data := nth i shards None in
                           let shardHash := sha256.Sum256 (reedsolomon.slot_bytes data) in
                           mkShard (Chunk_Index chunk) (Z.of_nat i) data
                                   (hex.EncodeToString shardHash)
                                   (len (reedsolomon.slot_bytes data)))
                        (seq 0 (Z.to_nat TotalShards)))
            end
        end
    end.

(** *** ReconstructChunk *)

(** The first loop: chunk index, then hash, shard by shard. *)
Fixpoint check_shards (expectedChunk : Z) (shards : list Shard) : result error unit :=
  match shards with
  | [] => Ok tt
  | s :: rest =>
      if negb (Shard_ChunkIndex s =? expectedChunk) then Err DifferentChunks
      else if negb (VerifyShard (reedsolomon.slot_bytes (Shard_Data s)) (Shard_Hash s))
      then Err (FailedHashVerification (Shard_ShardIndex s))
      else check_shards expectedChunk rest
  end.

(** The second loop: place each shard in its slot of [shardData]. *)
Fixpoint fill_shards (shards : list Shard) (shardData : list reedsolomon.slot)
  : result error (list reedsolomon.slot) :=
  match shards with
  | [] => Ok shardData
  | shard :: rest =>
      let i := Shard_ShardIndex shard in
      if (i <? 0) || (TotalShards <=? i) then Err (InvalidShardIndex i)
      else
        match nth (Z.to_nat i) shardData None with
        | Some _ => Err (DuplicateShardIndex i)
        | None => fill_shards rest (<[Z.to_nat i := Shard_Data shard]> shardData)
        end
  end.

Definition ReconstructChunk (shards : list Shard) (dataSize : Z)
  : result error (list byte) :=
  if len shards <? DataShards
  then Err (NeedAtLeastShards DataShards (len shards))
  else if dataSize <=? 0 then Err InvalidDataSize
  else
    let expectedChunk :=
      match shards with s :: _ => Shard_ChunkIndex s | [] => 0 end in
    _ <-! check_shards expectedChunk shards;
    match reedsolomon.New DataShards ParityShards with
    | Err e => Err (FailedToCreateEncoder e)
    | Ok enc =>
        shardData <-! fill_shards shards (replicate (Z.to_nat TotalShards) None);
        match reedsolomon.Reconstruct enc shardData with
        | Err e => Err (FailedToReconstruct e)
        | Ok shardData =>
            match reedsolomon.Verify enc shardData with
            | Err e => Err (VerificationFailed e)
            | Ok false => Err ReconstructedFailedVerification
            | Ok true =>
                match reedsolomon.Join enc shardData dataSize with
                | Err e => Err (FailedToJoin e)
                | Ok buf => Ok buf
                end
            end
        end
    end.

(** *** AssembleChunks *)

(** How a call ends: it returns an error value (nil on success), or the
    run-time system panics. *)
Inductive outcome : Type :=
| Return (err : option error)
| Panic.

(** The receive loop; it carries the output file, the [received] flags
    and the count of distinct indices written. *)
Fixpoint assemble_loop (disk : Disk) (chunkStream : list Chunk)
    (output : list byte) (received : list bool) (uniqueCount totalChunks : Z)
  : list byte * result error Z :=
  match chunkStream with
  | [] => (output, Ok uniqueCount)
  | chunk :: rest =>
      let i := Chunk_Index chunk in
      if (i <? 0) || (totalChunks <=? i)
      then (output, Err (ChunkOutOfBounds i (totalChunks - 1)))
      else if nth (Z.to_nat i) received false
      then assemble_loop disk rest output received uniqueCount totalChunks
      else
        let offset := wrap64 (i * ChunkSize) in
        match WriteAt disk output (Chunk_Data chunk) offset with
        | (output', false) => (output', Err (FailedToWriteChunk i))
        | (output', true) =>
            assemble_loop disk rest output' (<[Z.to_nat i := true]> received)
                          (wrap64 (uniqueCount + 1)) totalChunks
        end
  end.

(** [AssembleChunks] on the disk [disk].  [os.Create] comes first: where
    it fails nothing is written; otherwise it truncates the output file.
    [make([]bool, totalChunks)] panics for a negative length.  The file
    keeps whatever was written, also when the call fails. *)
Definition AssembleChunks (disk : Disk) (chunkStream : list Chunk)
    (fs : gmap string File) (outputPath : string) (totalChunks : Z)
  : gmap string File * outcome :=
  match os_Create disk fs outputPath with
  | None => (fs, Return (Some FailedToCreateOutput))
  | Some created =>
      if totalChunks <? 0 then (created, Panic)
      else
        let received := replicate (Z.to_nat totalChunks) false in
        let '(output, r) :=
          assemble_loop disk chunkStream [] received 0 totalChunks in
        let fs' := <[outputPath := mkFile output false]> fs in
        match r with
        | Err e => (fs', Return (Some e))
        | Ok uniqueCount =>
            if negb (uniqueCount =? totalChunks)
            then (fs', Return (Some (IncompleteFile totalChunks uniqueCount)))
            else (fs', Return None)
        end
  end.

End chunker.

(** ** Package chunker, the version that works on slices

    The earlier version of the package: [ChunkFile] returns the chunks of
    a file in one slice and [AssembleChunks] writes a slice of chunks one
    after the other.  Its [Chunk] and its [VerifyChunk] are those of the
    later version. *)

Module chunker_v1.

Definition ChunkSize : Z := 1024 * 1024.

Inductive error : Type :=
| FailedToOpenFile
| FailedToReadChunk (index : Z)
| FailedToCreateOutput
| MissingOrOutOfOrder (i : Z)
| FailedToWriteChunk (i : Z).

(** [file.Read(buffer)] for a buffer of [size] bytes, [size] positive:
    some of the bytes that are left, at least one and at most [size] of
    them, and no error; [held] is the number of bytes that the device
    holds back in this call.  Once no byte is left: [io.EOF], or the
    error of a failing device. *)
Definition Read (file : chunker.File) (size held : nat)
  : list byte * option chunker.io_error * chunker.File :=
  let left := length (chunker.file_bytes file) in
  let n := Nat.max 1 (Nat.min size left - held) in
  if Nat.eqb left 0
  then ([], Some (if chunker.file_fault file then chunker.ErrDevice
                  else chunker.EOF), file)
  else (take n (chunker.file_bytes file), None,
        chunker.mkFile (drop n (chunker.file_bytes file))
                       (chunker.file_fault file)).

(** The read loop of [ChunkFile]; [chunks] is the slice built so far and
    [held] what the device holds back in the reads to come (nothing,
    once the list is used up). *)
Fixpoint chunk_loop (fuel : nat) (file : chunker.File) (held : list nat)
    (index : Z) (chunks : list chunker.Chunk)
  : result error (list chunker.Chunk) :=
  match fuel with
  | O => Ok chunks
  | S fuel' =>
      let '(chunkData, err, file') :=
        Read file (Z.to_nat ChunkSize) (hd 0%nat held) in
      let n := len chunkData in
      match err with
      | Some chunker.EOF => Ok chunks
      | Some _ => Err (FailedToReadChunk index)
      | None =>
          let hash := sha256.Sum256 chunkData in
          let chunk := chunker.mkChunk index chunkData (hex.EncodeToString hash) n in
          chunk_loop fuel' file' (tl held) (wrap64 (index + 1)) (chunks ++ [chunk])
      end
  end.

(** [ChunkFile]: every turn of the loop that does not end it consumes at
    least one byte, so one more turn than the file has bytes is enough. *)
Definition ChunkFile (fs : gmap string chunker.File) (filePath : string)
    (held : list nat) : result error (list chunker.Chunk) :=
  match fs !! filePath with
  | None => Err FailedToOpenFile
  | Some file =>
      chunk_loop (S (length (chunker.file_bytes file))) file held 0 []
  end.

(** [output.Write(b)]: the file after the call, and whether the call
    returned without error.  The bytes are appended; on a disk without
    room for all of them those that fit are written and the call is an
    error. *)
Definition Write (disk : chunker.Disk) (f b : list byte) : list byte * bool :=
  match chunker.disk_space disk with
  | None => (f ++ b, true)
  | Some limit =>
      if len f + len b <=? limit then (f ++ b, true)
      else (f ++ take (Z.to_nat (limit - len f)) b, false)
  end.

(** The write loop of [AssembleChunks]: chunk number [i] of the slice
    must carry the index [i]. *)
Fixpoint write_loop (disk : chunker.Disk) (chunks : list chunker.Chunk) (i : Z)
    (output : list byte) : list byte * option error :=
  match chunks with
  | [] => (output, None)
  | chunk :: rest =>
      if negb (chunker.Chunk_Index chunk =? i)
      then (output, Some (MissingOrOutOfOrder i))
      else
        match Write disk output (chunker.Chunk_Data chunk) with
        | (output', false) => (output', Some (FailedToWriteChunk i))
        | (output', true) => write_loop disk rest (i + 1) output'
        end
  end.

(** [AssembleChunks]: [os.Create] makes the output file empty; the file
    keeps what was written when the call fails. *)
Definition AssembleChunks (disk : chunker.Disk) (chunks : list chunker.Chunk)
    (fs : gmap string chunker.File) (outputPath : string)
  : gmap string chunker.File * option error :=
  match chunker.os_Create disk fs outputPath with
  | None => (fs, Some FailedToCreateOutput)
  | Some created =>
      let '(output, err) := write_loop disk chunks 0 [] in
      (<[outputPath := chunker.mkFile output false]> created, err)
  end.

End chunker_v1.

(** ** golang.org/x/crypto/chacha20poly1305

    Modelled from the spec: the cipher is an external library; the design
    asks for an AEAD that seals a buffer under a 32-byte key and a fresh
    nonce into the ciphertext followed by a tag, and opens it only if the
    tag verifies.  The model is XChaCha20-Poly1305 as the library
    implements it: HChaCha20 derives a subkey from the first 16 bytes of
    the 24-byte nonce, then ChaCha20 and Poly1305 are combined as in
    RFC 8439. *)

Module chacha20poly1305.
Local Open Scope N_scope.

Definition KeySize : Z := 32.
Definition NonceSize : Z := 12.
Definition NonceSizeX : Z := 24.
Definition Overhead : Z := 16.

Definition add32 (a b : N) : N := (a + b) mod 2 ^ 32.
Definition rotl (n x : N) : N :=
  N.lor (N.land (N.shiftl x n) 0xffffffff) (N.shiftr x (32 - n)).

(** Little-endian encoding of [x] on [n] bytes, and decoding. *)
Fixpoint le_bytes (n : nat) (x : N) : list byte :=
  match n with
  | O => []
  | S n' => byte_of_N x :: le_bytes n' (N.shiftr x 8)
  end.

Definition le_num (bs : list byte) : N :=
  foldr (fun b acc => N.lor (Byte.to_N b) (N.shiftl acc 8)) 0 bs.

Fixpoint le_words (n : nat) (bs : list byte) : list N :=
  match n with
  | O => []
  | S n' => le_num (take 4 bs) :: le_words n' (drop 4 bs)
  end.

(** *** ChaCha20 *)

Definition quarter (a b c d : nat) (s : list N) : list N :=
  let g := fun i (s : list N) => nth i s 0 in
  let s := <[a := add32 (g a s) (g b s)]> s in
  let s := <[d := rotl 16 (N.lxor (g d s) (g a s))]> s in
  let s := <[c := add32 (g c s) (g d s)]> s in
  let s := <[b := rotl 12 (N.lxor (g b s) (g c s))]> s in
  let s := <[a := add32 (g a s) (g b s)]> s in
  let s := <[d := rotl 8 (N.lxor (g d s) (g a s))]> s in
  let s := <[c := add32 (g c s) (g d s)]> s in
  <[b := rotl 7 (N.lxor (g b s) (g c s))]> s.

Definition double_round (s : list N) : list N :=
  let s := quarter 0 4 8 12 s in
  let s := quarter 1 5 9 13 s in
  let s := quarter 2 6 10 14 s in
  let s := quarter 3 7 11 15 s in
  let s := quarter 0 5 10 15 s in
  let s := quarter 1 6 11 12 s in
  let s := quarter 2 7 8 13 s in
  quarter 3 4 9 14 s.

Definition rounds (s : list N) : list N := Nat.iter 10 double_round s.

(** The words of the string "expand 32-byte k". *)
Definition sigma : list N :=
  le_words 4 (map byte_of_ascii (list_ascii_of_string "expand 32-byte k")).

(** One block of 64 bytes of key stream. *)
Definition block (key : list byte) (counter : N) (nonce : list byte) : list byte :=
  let init := sigma ++ le_words 8 key ++ [counter mod 2 ^ 32] ++ le_words 3 nonce in
  flat_map (le_bytes 4) (zip_with add32 init (rounds init)).

(** [chacha20.HChaCha20]: a 32-byte subkey from a key and 16 nonce bytes. *)
Definition HChaCha20 (key nonce : list byte) : list byte :=
  let s := rounds (sigma ++ le_words 8 key ++ le_words 4 nonce) in
  flat_map (le_bytes 4) (take 4 s ++ drop 12 s).

(** The key stream for [n] bytes, starting at block [counter]. *)
Definition keystream (key nonce : list byte) (counter : N) (n : nat) : list byte :=
  flat_map (fun i => block key (counter + N.of_nat i) nonce)
           (seq 0 ((n + 63) / 64)).

Definition xorKeyStream (key nonce : list byte) (counter : N) (src : list byte)
  : list byte :=
  zip_with bxor src (keystream key nonce counter (length src)).

(** *** Poly1305 *)

Definition p1305 : N := 2 ^ 130 - 5.

Fixpoint poly_blocks (fuel : nat) (r acc : N) (msg : list byte) : N :=
  match fuel, msg with
  | S fuel', _ :: _ =>
      let n := le_num (take 16 msg ++ [x01]) in
      poly_blocks fuel' r (((acc + n) * r) mod p1305) (drop 16 msg)
  | _, _ => acc
  end.

Definition poly1305 (key msg : list byte) : list byte :=
  let r := N.land (le_num (take 16 key)) 0x0ffffffc0ffffffc0ffffffc0fffffff in
  let s := le_num (take 16 (drop 16 key)) in
  le_bytes 16 (poly_blocks (length msg) r 0 msg + s).

Definition pad16 (bs : list byte) : list byte :=
  replicate ((16 - length bs mod 16) mod 16) x00.

(** The tag of RFC 8439 over the additional data and the ciphertext. *)
Definition tag (key nonce additionalData ciphertext : list byte) : list byte :=
  let polyKey := take 32 (block key 0 nonce) in
  poly1305 polyKey
    (additionalData ++ pad16 additionalData ++ ciphertext ++ pad16 ciphertext
     ++ le_bytes 8 (N.of_nat (length additionalData))
     ++ le_bytes 8 (N.of_nat (length ciphertext))).

(** *** The AEAD *)

Inductive error : Type := ErrBadKeyLength | ErrOpen.

(** An XChaCha20-Poly1305 cipher is its key. *)
Record AEAD : Type := mkAEAD { aead_key : list byte }.

Definition NewX (key : list byte) : result error AEAD :=
  if negb (Z.eqb (len key) KeySize) then Err ErrBadKeyLength
  else Ok (mkAEAD key).

(** The key and nonce of the inner ChaCha20-Poly1305. *)
Definition inner_key (c : AEAD) (nonce : list byte) : list byte :=
  HChaCha20 (aead_key c) (take 16 nonce).

Definition inner_nonce (nonce : list byte) : list byte :=
  replicate 4 x00 ++ take 8 (drop 16 nonce).

(** [Seal]: [dst] followed by the ciphertext and the tag; [None] where
    the library panics (a bad nonce length, a plaintext too large). *)
Definition Seal (c : AEAD) (dst nonce plaintext additionalData : list byte)
  : option (list byte) :=
  if negb (Z.eqb (len nonce) NonceSizeX) then None
  else if Z.ltb (2 ^ 38 - 64) (len plaintext) then None
  else
    let k := inner_key c nonce in
    let n := inner_nonce nonce in
    let ciphertext := xorKeyStream k n 1 plaintext in
    Some (dst ++ ciphertext ++ tag k n additionalData ciphertext).

(** [Open]: the plaintext if the tag verifies; [None] where the library
    panics. *)
Definition Open (c : AEAD) (dst nonce ciphertext additionalData : list byte)
  : option (result error (list byte)) :=
  if negb (Z.eqb (len nonce) NonceSizeX) then None
  else if Z.ltb (len ciphertext) 16 then Some (Err ErrOpen)
  else if Z.ltb (2 ^ 38 - 48) (len ciphertext) then None
  else
    let k := inner_key c nonce in
    let n := inner_nonce nonce in
    let body := take (length ciphertext - 16) ciphertext in
    let t := drop (length ciphertext - 16) ciphertext in
    if bool_decide (tag k n additionalData body = t)
    then Some (Ok (dst ++ xorKeyStream k n 1 body))
    else Some (Err ErrOpen).

End chacha20poly1305.

(** ** Package crypto *)

Module crypto.

Definition KeySize : Z := 32.

Inductive error : Type :=
| FailedToGenerateKey
| InvalidKeySize (expected got : Z)
| FailedToCreateCipher (cause : chacha20poly1305.error)
| FailedToGenerateNonce
| CiphertextTooShort (expected got : Z)
| DecryptionFailed (cause : chacha20poly1305.error).

(** How a call ends: it returns, a value or an error, or the cipher
    panics. *)
Inductive outcome (A : Type) : Type :=
| Returns (r : result error A)
| Panics.
Arguments Returns {A} r.
Arguments Panics {A}.

(** [rand.Read(b)] for a buffer of [n] bytes: the next [n] bytes of the
    system's entropy, an error if it cannot deliver them. *)
Definition rand_Read (n : nat) (entropy : list byte) : option (list byte) :=
  if Nat.leb n (length entropy) then Some (take n entropy) else None.

Definition GenerateKey (entropy : list byte) : result error (list byte) :=
  match rand_Read (Z.to_nat KeySize) entropy with
  | None => Err FailedToGenerateKey
  | Some key => Ok key
  end.

(** [EncryptChunk]: the nonce, the ciphertext and the tag, in one buffer. *)
Definition EncryptChunk (plaintext key entropy : list byte) : outcome (list byte) :=
  if negb (len key =? KeySize)
  then Returns (Err (InvalidKeySize KeySize (len key)))
  else
    match chacha20poly1305.NewX key with
    | Err e => Returns (Err (FailedToCreateCipher e))
    | Ok aead =>
        match rand_Read (Z.to_nat chacha20poly1305.NonceSizeX) entropy with
        | None => Returns (Err FailedToGenerateNonce)
        | Some nonce =>
            match chacha20poly1305.Seal aead nonce nonce plaintext [] with
            | None => Panics
            | Some ciphertext => Returns (Ok ciphertext)
            end
        end
    end.

(** [DecryptChunk]: the plaintext of a buffer made by [EncryptChunk]. *)
Definition DecryptChunk (ciphertext key : list byte) : outcome (list byte) :=
  if negb (len key =? KeySize)
  then Returns (Err (InvalidKeySize KeySize (len key)))
  else
    match chacha20poly1305.NewX key with
    | Err e => Returns (Err (FailedToCreateCipher e))
    | Ok aead =>
        let nonceSize := chacha20poly1305.NonceSizeX in
        if len ciphertext <? nonceSize
        then Returns (Err (CiphertextTooShort nonceSize (len ciphertext)))
        else
          let nonce := take (Z.to_nat nonceSize) ciphertext in
          let ciphertext := drop (Z.to_nat nonceSize) ciphertext in
          match chacha20poly1305.Open aead [] nonce ciphertext [] with
          | None => Panics
          | Some (Err e) => Returns (Err (DecryptionFailed e))
          | Some (Ok plaintext) => Returns (Ok plaintext)
          end
    end.

End crypto.

(** ** unicode/utf8 and encoding/json

    Modelled from the spec: the manifest is persisted as a self-describing
    structured document by an external library.  The model follows the
    documented behaviour of that library on the values a manifest holds:
    a document is the tree of values its text denotes; a string is
    written coerced to valid UTF-8, every invalid byte replaced by the
    replacement character U+FFFD; a time is written as an RFC 3339
    timestamp, which holds the instant and the zone offset and nothing
    else; a number read into an integer must fit in 64 bits; a member
    that is null or absent leaves the field as it was. *)

Module utf8.

Definition code (a : ascii) : N := N_of_ascii a.

Definition between (lo hi : N) (a : ascii) : bool :=
  (lo <=? code a)%N && (code a <=? hi)%N.

(** For a leading byte above 0x7F: the length of the encoding and the
    range accepted for its second byte. *)
Definition first (a : ascii) : option (nat * N * N) :=
  if between 0xC2 0xDF a then Some (2%nat, 0x80, 0xBF)%N
  else if between 0xE0 0xE0 a then Some (3%nat, 0xA0, 0xBF)%N
  else if between 0xE1 0xEC a then Some (3%nat, 0x80, 0xBF)%N
  else if between 0xED 0xED a then Some (3%nat, 0x80, 0x9F)%N
  else if between 0xEE 0xEF a then Some (3%nat, 0x80, 0xBF)%N
  else if between 0xF0 0xF0 a then Some (4%nat, 0x90, 0xBF)%N
  else if between 0xF1 0xF3 a then Some (4%nat, 0x80, 0xBF)%N
  else if between 0xF4 0xF4 a then Some (4%nat, 0x80, 0x8F)%N
  else None.

(** The length of the valid encoding at the head of [s]; zero if there is
    none. *)
Definition rune_size (s : list ascii) : nat :=
  match s with
  | [] => 0
  | a :: rest =>
      if (code a <? 0x80)%N then 1
      else
        match first a, rest with
        | Some (size, lo, hi), b :: rest' =>
            if between lo hi b
               && Nat.leb (size - 2) (length rest')
               && forallb (between 0x80 0xBF) (take (size - 2) rest')
            then size else 0
        | _, _ => 0
        end
  end.



Fixpoint valid (fuel : nat) (s : list ascii) : bool :=
  match fuel, s with
  | S fuel', _ :: _ =>
      match rune_size s with
      | O => false
      | size => valid fuel' (drop size s)
      end
  | _, _ => true
  end.



End utf8.

Module json.

(** The value a JSON text denotes.  A string that holds an RFC 3339
    timestamp is the instant, in nanoseconds since the epoch, and the
    zone offset, in minutes, that it denotes. *)
#[local] Unset Elimination Schemes.
#[local] Set Elimination Schemes.


Inductive error : Type :=
| SyntaxError
| UnmarshalTypeError (field : string)
| MarshalerError (field : string).





End json.

(** ** Package manifest *)

Module manifest.

(** A [time.Time]: an instant, the offset of its zone in seconds, and the
    reading of the monotonic clock that [time.Now] attaches. *)
Record Time : Type := mkTime {
  unixNano : Z;
  offsetSeconds : Z;
  monotonic : option Z;
}.





Record ChunkMeta : Type := mkChunkMeta {
  ChunkMeta_Index : Z;
  ChunkMeta_Hash : string;
  ChunkMeta_Size : Z;
}.

Record ShardMeta : Type := mkShardMeta {
  ShardMeta_ChunkIndex : Z;
  ShardMeta_ShardIndex : Z;
  ShardMeta_Hash : string;
  ShardMeta_Size : Z;
  ShardMeta_FarmerIndex : Z;
}.

Record FarmerInfo : Type := mkFarmerInfo {
  FarmerInfo_Index : Z;
  FarmerInfo_Address : string;
  FarmerInfo_Endpoint : string;
  FarmerInfo_Region : string;
}.

Record Manifest : Type := mkManifest {
  Version : string;
  BlobID : string;
  FileName : string;
  FileSize : Z;
  OriginalFileHash : string;
  ChunkSize : Z;
  ChunkCount : Z;
  DataShards : Z;
  ParityShards : Z;
  TotalShards : Z;
  Chunks : list ChunkMeta;
  Shards : list ShardMeta;
  Farmers : list FarmerInfo;
  EncryptionKey : string;
  CreatedAt : Time;
  PublisherAddress : string;
}.

Inductive error : Type :=
| FailedToMarshal (cause : json.error)
| FailedToWrite
| FailedToRead
| FailedToUnmarshal (cause : json.error).

(** [generateBlobID]: 32 random bytes in hex after "0x".  [rand.Read]
    fills the buffer or, where the source of randomness fails, ends the
    process: there is then no identifier. *)
Definition generateBlobID (entropy : list byte) : option string :=
  match crypto.rand_Read 32 entropy with
  | Some b => Some (String.append "0x" (hex.EncodeToString b))
  | None => None
  end.

(** [New]; [entropy] is what [rand.Read] delivers and [now] what
    [time.Now] returns.  There is no manifest where [generateBlobID]
    ends the process. *)
Definition New (fileName : string) (fileSize : Z) (originalHash : string)
    (chunks : list ChunkMeta) (shards : list ShardMeta)
    (farmers : list FarmerInfo) (encKey : list byte) (publisher : string)
    (entropy : list byte) (now : Time) : option Manifest :=
  match generateBlobID entropy with
  | None => None
  | Some blobID =>
      Some (mkManifest "1.0" blobID fileName fileSize originalHash
                       (1024 * 1024) (len chunks) 4 2 6 chunks shards farmers
                       (hex.EncodeToString encKey) now publisher)
  end.

(** *** The manifest as a document *)

















(** [GetChunkHash]: the hash of the first chunk with the given index, the
    empty string if there is none. *)
Fixpoint chunk_hash (chunks : list ChunkMeta) (index : Z) : string :=
  match chunks with
  | [] => EmptyString
  | chunk :: rest =>
      if ChunkMeta_Index chunk =? index then ChunkMeta_Hash chunk
      else chunk_hash rest index
  end.

Definition GetChunkHash (m : Manifest) (index : Z) : string :=
  chunk_hash (Chunks m) index.

(** *** Shards and farmers *)







Inductive file_error : Type := FailedToReadFile.

(** [CalculateFileHash]: the SHA-256 of the whole file, in hex.
    [os.ReadFile] fails for a file that is missing or whose device
    fails. *)
Definition CalculateFileHash (fs : gmap string chunker.File) (filePath : string)
  : result file_error string :=
  match fs !! filePath with
  | None => Err FailedToReadFile
  | Some file =>
      if chunker.file_fault file then Err FailedToReadFile
      else
        let hash := sha256.Sum256 (chunker.file_bytes file) in
        Ok (hex.EncodeToString hash)
  end.

End manifest.

(** * Properties *)

(** ** Machine integers and bytes *)

Lemma wrap64_small (z : Z) : - 2 ^ 63 <= z < 2 ^ 63 -> wrap64 z = z.
Proof.
  intros Hz. unfold wrap64.
  rewrite Z.mod_small by lia. lia.
Qed.

Lemma len_app {A} (l1 l2 : list A) : len (l1 ++ l2) = len l1 + len l2.
Proof. unfold len. rewrite length_app. lia. Qed.

Lemma len_nonneg {A} (l : list A) : 0 <= len l.
Proof. unfold len. lia. Qed.

Lemma byte_to_N_inj (a b : byte) : Byte.to_N a = Byte.to_N b -> a = b.
Proof.
  intros H. apply (f_equal Byte.of_N) in H.
  rewrite !Byte.of_to_N in H. congruence.
Qed.

Lemma byte_to_N_lt (a : byte) : (Byte.to_N a < 256)%N.
Proof. pose proof (Byte.to_N_bounded a). lia. Qed.

Lemma to_N_byte_of_N (n : N) : Byte.to_N (byte_of_N n) = (n mod 256)%N.
Proof.
  unfold byte_of_N.
  destruct (Byte.of_N (n mod 256)) as [b |] eqn:E.
  - by apply Byte.to_of_N.
  - apply Byte.of_N_None_iff in E.
    pose proof (N.mod_lt n 256). lia.
Qed.

Lemma byte_of_to_N (b : byte) : byte_of_N (Byte.to_N b) = b.
Proof.
  apply byte_to_N_inj. rewrite to_N_byte_of_N.
  apply N.mod_small, byte_to_N_lt.
Qed.

(** ** Hex encoding *)

Lemma hex_digit_inj (a b : N) :
  (a < 16)%N -> (b < 16)%N -> hex.digit a = hex.digit b -> a = b.
Proof.
  intros Ha Hb H. apply (f_equal N_of_ascii) in H. unfold hex.digit in H.
  destruct (a <? 10)%N eqn:Ea, (b <? 10)%N eqn:Eb;
    rewrite !N_ascii_embedding in H by lia;
    rewrite ?N.ltb_lt, ?N.ltb_ge in *; lia.
Qed.

(** Two byte strings with the same hex encoding are equal. *)
Lemma hex_EncodeToString_inj (l1 l2 : list byte) :
  hex.EncodeToString l1 = hex.EncodeToString l2 -> l1 = l2.
Proof.
  revert l2. induction l1 as [| a l1 IH]; intros [| b l2] H; try done.
  cbn [hex.EncodeToString] in H. injection H as Hhi Hlo Hrest.
  pose proof (byte_to_N_lt a). pose proof (byte_to_N_lt b).
  apply hex_digit_inj in Hhi;
    [| apply N.Div0.div_lt_upper_bound; lia | apply N.Div0.div_lt_upper_bound; lia].
  apply hex_digit_inj in Hlo; [| apply N.mod_lt; lia | apply N.mod_lt; lia].
  f_equal; [| by apply IH].
  apply byte_to_N_inj.
  rewrite (N.div_mod (Byte.to_N a) 16), (N.div_mod (Byte.to_N b) 16) by lia.
  by rewrite Hhi, Hlo.
Qed.

(** ** StreamChunkFile *)

Section stream.
Import chunker.

Definition cs : nat := Z.to_nat ChunkSize.

Lemma ChunkSize_eq : ChunkSize = 1048576.
Proof. reflexivity. Qed.

Lemma cs_ChunkSize : Z.of_nat cs = ChunkSize.
Proof. unfold cs. apply Z2Nat.id. rewrite ChunkSize_eq. lia. Qed.

Lemma cs_pos : (0 < cs)%nat.
Proof. unfold cs. rewrite ChunkSize_eq. lia. Qed.

(** From here on the chunk size is not unfolded: its value matters only
    through the three facts above. *)
#[local] Opaque ChunkSize.

Lemma stream_loop_S (fuel : nat) (file : File) (index : Z) :
  stream_loop (S fuel) file index
  = let '(chunkData, err, file') := ReadFull file cs in
    let n := len chunkData in
    match err with
    | Some EOF => []
    | Some ErrDevice => [mkChunkResult zeroChunk (Some (FailedToReadChunk index))]
    | Some ErrUnexpectedEOF | None =>
        let hash := sha256.Sum256 chunkData in
        let chunk := mkChunk index chunkData (hex.EncodeToString hash) n in
        mkChunkResult chunk None ::
          (if n <? ChunkSize then []
           else stream_loop fuel file' (wrap64 (index + 1)))
    end.
Proof. reflexivity. Qed.

Lemma cs_unfold : Z.to_nat ChunkSize = cs.
Proof. reflexivity. Qed.

#[local] Opaque cs.

(** The chunk that starts at byte [i * ChunkSize] of [content]. *)
Definition chunk_at (content : list byte) (base i : nat) : Chunk :=
  let d := take cs (drop (i * cs) content) in
  mkChunk (Z.of_nat (base + i)) d (hex.EncodeToString (sha256.Sum256 d)) (len d).

(** The number of chunks of a file of [n] bytes. *)
Definition chunk_count (n : nat) : nat := ((n + cs - 1) / cs)%nat.

Lemma chunk_count_0 : chunk_count 0 = 0%nat.
Proof.
  unfold chunk_count. apply Nat.div_small. pose proof cs_pos. lia.
Qed.

Lemma chunk_count_small n : (0 < n < cs)%nat -> chunk_count n = 1%nat.
Proof.
  intros Hn. unfold chunk_count.
  symmetry. apply (Nat.div_unique _ _ _ (n - 1)); lia.
Qed.

Lemma chunk_count_step n : (cs <= n)%nat -> chunk_count n = S (chunk_count (n - cs)).
Proof.
  intros Hn. unfold chunk_count. pose proof cs_pos.
  replace (n + cs - 1)%nat with ((n - cs + cs - 1) + 1 * cs)%nat by lia.
  rewrite Nat.div_add by lia. lia.
Qed.

Lemma chunk_count_bounds n :
  (0 < n)%nat ->
  (0 < chunk_count n)%nat /\ ((chunk_count n - 1) * cs < n)%nat
  /\ (n <= chunk_count n * cs)%nat.
Proof.
  intros Hn. unfold chunk_count. pose proof cs_pos.
  pose proof (Nat.div_mod_eq (n + cs - 1) cs) as E.
  pose proof (Nat.mod_upper_bound (n + cs - 1) cs).
  nia.
Qed.

Lemma chunk_count_pos_inv n : (0 < chunk_count n)%nat -> (0 < n)%nat.
Proof.
  destruct n; [rewrite chunk_count_0 |]; lia.
Qed.

Lemma chunk_count_remainder n :
  (n mod cs <> 0)%nat -> (n - (chunk_count n - 1) * cs = n mod cs)%nat.
Proof.
  intros Hr. pose proof cs_pos.
  pose proof (Nat.div_mod_eq n cs) as E.
  pose proof (Nat.mod_upper_bound n cs).
  assert (chunk_count n = S (n / cs)) as ->.
  { unfold chunk_count. symmetry.
    apply (Nat.div_unique _ _ _ (n mod cs - 1)); lia. }
  nia.
Qed.

Lemma concat_chunks (l : list byte) (k : nat) :
  concat (map (fun i => take cs (drop (i * cs) l)) (seq 0 k)) = take (k * cs) l.
Proof.
  induction k as [| k IH]; [done |].
  rewrite seq_S, map_app, concat_app, IH. cbn [map concat Nat.add].
  rewrite app_nil_r, take_take_drop. f_equal. lia.
Qed.

Lemma chunk_at_0 (data : list byte) (base : nat) :
  chunk_at data base 0
  = mkChunk (Z.of_nat base) (take cs data)
            (hex.EncodeToString (sha256.Sum256 (take cs data)))
            (len (take cs data)).
Proof.
  unfold chunk_at. rewrite Nat.add_0_r, Nat.mul_0_l, drop_0. reflexivity.
Qed.

Lemma chunk_at_drop (data : list byte) (base i : nat) :
  chunk_at (drop cs data) (S base) i = chunk_at data base (S i).
Proof.
  unfold chunk_at. rewrite drop_drop.
  replace (cs + i * cs)%nat with (S i * cs)%nat by lia.
  by replace (S base + i)%nat with (base + S i)%nat by lia.
Qed.

Lemma stream_loop_closed (fuel : nat) (data : list byte) (base : nat) :
  (length data < fuel)%nat ->
  Z.of_nat base + Z.of_nat (chunk_count (length data)) < 2 ^ 63 ->
  stream_loop fuel (mkFile data false) (Z.of_nat base)
  = map (fun i => mkChunkResult (chunk_at data base i) None)
        (seq 0 (chunk_count (length data))).
Proof.
  revert data base. induction fuel as [| fuel IH]; intros data base Hfuel Hidx.
  { lia. }
  pose proof cs_pos as Hcs.
  rewrite stream_loop_S. unfold ReadFull. cbn [file_bytes file_fault].
  rewrite length_take.
  destruct (decide (cs <= length data)%nat) as [Hfull | Hshort].
  - (* a full buffer *)
    rewrite (proj2 (Nat.eqb_eq _ _)) by lia.
    rewrite chunk_count_step in * by done.
    assert ((len (take cs data) <? ChunkSize) = false) as ->.
    { apply Z.ltb_ge. unfold len. rewrite length_take, <- cs_ChunkSize. lia. }
    rewrite wrap64_small by lia.
    replace (Z.of_nat base + 1) with (Z.of_nat (S base)) by lia.
    rewrite IH; [| rewrite length_drop; lia | rewrite length_drop; lia].
    rewrite length_drop. cbn [seq map].
    rewrite chunk_at_0. apply (f_equal (cons _)).
    rewrite <- fmap_S_seq, <- list_fmap_compose.
    apply list_fmap_ext. intros _ i _.
    change ((?f ∘ ?g) i) with (f (g i)). cbv beta.
    by rewrite chunk_at_drop.
  - destruct (decide (length data = 0)%nat) as [Hnil | Hsome].
    + (* the end of the file *)
      rewrite Hnil, chunk_count_0.
      rewrite (proj2 (Nat.eqb_neq _ _)) by lia. done.
    + (* a last, partial buffer *)
      rewrite chunk_count_small by lia.
      rewrite !(proj2 (Nat.eqb_neq _ _)) by lia.
      assert ((len (take cs data) <? ChunkSize) = true) as ->.
      { apply Z.ltb_lt. unfold len. rewrite length_take, <- cs_ChunkSize. lia. }
      cbn [seq map]. by rewrite chunk_at_0.
Qed.


Lemma chunk_count_limit (n : nat) :
  Z.of_nat n < 2 ^ 63 -> Z.of_nat (chunk_count n) <= 2 ^ 43.
Proof.
  intros Hn. pose proof cs_ChunkSize as HCS. rewrite ChunkSize_eq in HCS.
  unfold chunk_count. rewrite Nat2Z.inj_div, Nat2Z.inj_sub by lia.
  rewrite Nat2Z.inj_add, HCS.
  apply Z.lt_succ_r, Z.div_lt_upper_bound; lia.
Qed.

(** The stream of a readable file, in closed form. *)
Lemma StreamChunkFile_closed
    (fs : gmap string File) (filePath : string) (content : list byte) :
  fs !! filePath = Some (mkFile content false) ->
  len content < 2 ^ 63 ->
  StreamChunkFile fs filePath
  = map (fun i => mkChunkResult (chunk_at content 0 i) None)
        (seq 0 (chunk_count (length content))).
Proof.
  intros Hopen Hsize. unfold StreamChunkFile. rewrite Hopen.
  cbn [file_bytes]. change 0 with (Z.of_nat 0).
  apply stream_loop_closed; [lia |].
  pose proof (chunk_count_limit (length content) Hsize). lia.
Qed.

(** C4.  A readable file of N bytes is streamed as ceil(N / ChunkSize)
    chunks and no error: chunk number [i] has index [i] and carries the
    bytes from offset [i * ChunkSize] on, at most [ChunkSize] of them; its
    hash is the SHA-256 of exactly these bytes and its size is their
    number.  Every chunk but the last has [ChunkSize] bytes, no chunk is
    empty, the last one holds the remainder when N is not a multiple of
    [ChunkSize], and the empty file gives no chunk at all. *)
Theorem StreamChunkFile_chunks
    (fs : gmap string File) (filePath : string) (content : list byte) :
  fs !! filePath = Some (mkFile content false) ->
  len content < 2 ^ 63 ->
  exists chunks : list Chunk,
    StreamChunkFile fs filePath = map (fun c => mkChunkResult c None) chunks
    /\ (content = [] -> chunks = [])
    /\ len chunks = (len content + ChunkSize - 1) / ChunkSize
    /\ (forall (i : nat) (c : Chunk), chunks !! i = Some c ->
          Chunk_Index c = Z.of_nat i
          /\ Chunk_Data c
             = take (Z.to_nat ChunkSize) (drop (i * Z.to_nat ChunkSize) content)
          /\ Chunk_Hash c = hex.EncodeToString (sha256.Sum256 (Chunk_Data c))
          /\ Chunk_Size c = len (Chunk_Data c)
          /\ 1 <= Chunk_Size c <= ChunkSize
          /\ (Z.of_nat i + 1 < len chunks -> Chunk_Size c = ChunkSize)
          /\ (Z.of_nat i + 1 = len chunks -> len content mod ChunkSize <> 0 ->
              Chunk_Size c = len content mod ChunkSize
              /\ 1 <= len content mod ChunkSize < ChunkSize))
    /\ concat (map Chunk_Data chunks) = content.
Proof.
  intros Hopen Hsize. unfold StreamChunkFile. rewrite Hopen.
  cbn [file_bytes]. rewrite cs_unfold.
  pose proof cs_pos as Hcs. pose proof cs_ChunkSize as HCS.
  assert (len content = Z.of_nat (length content)) as Hlen by done.
  pose proof (chunk_count_bounds (length content)) as Hb.
  pose proof (chunk_count_pos_inv (length content)) as Hp.
  pose proof (chunk_count_remainder (length content)) as Hr.
  remember (length content) as n eqn:Hn0.
  remember (chunk_count n) as k eqn:Hk.
  assert (Z.of_nat k <= Z.of_nat n) as Hkn.
  { destruct (decide (n = 0)%nat) as [-> | Hn].
    - rewrite chunk_count_0 in Hk. lia.
    - destruct Hb as (? & ? & ?); [lia |]. nia. }
  exists (map (chunk_at content 0) (seq 0 k)).
  split; [| split; [| split; [| split]]].
  - change 0 with (Z.of_nat 0).
    rewrite stream_loop_closed; [| lia | rewrite <- Hn0, <- Hk; lia].
    by rewrite <- list_fmap_compose, <- Hn0, <- Hk.
  - intros ->. cbn [length] in Hn0. subst n.
    rewrite chunk_count_0 in Hk. by subst k.
  - unfold len at 1. rewrite length_map, length_seq, Hlen, <- HCS.
    rewrite Hk. unfold chunk_count.
    rewrite Nat2Z.inj_div. f_equal. lia.
  - intros i c Hi.
    rewrite list_lookup_fmap in Hi.
    destruct (seq 0 k !! i) as [j |] eqn:Hj; [| done].
    apply lookup_seq in Hj as [-> Hik]. cbn in Hi. injection Hi as <-.
    assert (len (map (chunk_at content 0) (seq 0 k)) = Z.of_nat k) as ->.
    { unfold len. by rewrite length_map, length_seq. }
    unfold chunk_at. cbn [Chunk_Index Chunk_Data Chunk_Hash Chunk_Size Nat.add].
    assert (0 < n)%nat as Hn by (apply Hp; lia).
    destruct (Hb Hn) as (_ & Hlo & Hhi).
    assert (len (take cs (drop (i * cs) content))
            = Z.of_nat (Nat.min cs (n - i * cs))) as Hsz.
    { unfold len. by rewrite length_take, length_drop, <- Hn0. }
    split; [done |]. split; [done |]. split; [done |]. split; [done |].
    rewrite Hsz, <- HCS.
    assert (i * cs <= (k - 1) * cs)%nat by (apply Nat.mul_le_mono_r; lia).
    split; [lia |]. split.
    { intros Hmid.
      assert (S i * cs <= (k - 1) * cs)%nat by (apply Nat.mul_le_mono_r; lia).
      lia. }
    intros Hlast Hrem. rewrite Hlen in *.
    rewrite <- Nat2Z.inj_mod in *.
    assert (i = k - 1)%nat as -> by lia.
    pose proof (Nat.mod_upper_bound n cs).
    rewrite Hr by lia. lia.
  - rewrite <- list_fmap_compose.
    rewrite (list_fmap_ext _ (fun i => take cs (drop (i * cs) content)))
      by (by intros).
    rewrite concat_chunks. apply take_ge. rewrite <- Hn0.
    destruct (decide (n = 0)%nat) as [Hn | Hn]; [lia |].
    destruct Hb as (_ & _ & ?); [lia | done].
Qed.

(** A three-byte file gives one chunk of three bytes. *)
Lemma StreamChunkFile_chunks_witness :
  exists chunks : list Chunk,
    StreamChunkFile {[ "a.bin"%string := mkFile [x61; x62; x63] false ]} "a.bin"
    = map (fun c => mkChunkResult c None) chunks
    /\ ([x61; x62; x63] = [] -> chunks = [])
    /\ len chunks = (len [x61; x62; x63] + ChunkSize - 1) / ChunkSize
    /\ (forall (i : nat) (c : Chunk), chunks !! i = Some c ->
          Chunk_Index c = Z.of_nat i
          /\ Chunk_Data c
             = take (Z.to_nat ChunkSize)
                    (drop (i * Z.to_nat ChunkSize) [x61; x62; x63])
          /\ Chunk_Hash c = hex.EncodeToString (sha256.Sum256 (Chunk_Data c))
          /\ Chunk_Size c = len (Chunk_Data c)
          /\ 1 <= Chunk_Size c <= ChunkSize
          /\ (Z.of_nat i + 1 < len chunks -> Chunk_Size c = ChunkSize)
          /\ (Z.of_nat i + 1 = len chunks ->
              len [x61; x62; x63] mod ChunkSize <> 0 ->
              Chunk_Size c = len [x61; x62; x63] mod ChunkSize
              /\ 1 <= len [x61; x62; x63] mod ChunkSize < ChunkSize))
    /\ concat (map Chunk_Data chunks) = [x61; x62; x63].
Proof.
  apply (StreamChunkFile_chunks _ _ [x61; x62; x63]).
  - reflexivity.
  - vm_compute. reflexivity.
Defined.

End stream.

(** ** AssembleChunks *)

Section assemble.
Import chunker.

#[local] Opaque ChunkSize cs.

(** *** Random-access writes *)

Lemma write_at_length (f b : list byte) (off : nat) :
  b <> [] -> length (write_at f b off) = Nat.max (length f) (off + length b).
Proof.
  intros Hb. unfold write_at. destruct b as [| x b']; [done |].
  rewrite !length_app, length_take, length_app, length_replicate, length_drop.
  lia.
Qed.

Lemma write_at_lookup_before (f b : list byte) (off p : nat) :
  (p < off)%nat -> (p < length f)%nat -> write_at f b off !! p = f !! p.
Proof.
  intros Hp Hf. unfold write_at. destruct b as [| x b']; [done |].
  rewrite lookup_app_l
    by (rewrite length_take, length_app, length_replicate; lia).
  rewrite lookup_take_lt by done. by rewrite lookup_app_l.
Qed.

Lemma write_at_lookup_inside (f b : list byte) (off p : nat) :
  (off <= p < off + length b)%nat -> write_at f b off !! p = b !! (p - off)%nat.
Proof.
  intros Hp. unfold write_at. destruct b as [| x b']; [cbn in Hp; lia |].
  assert (length (take off (f ++ replicate (off - length f) x00)) = off) as Hl.
  { rewrite length_take, length_app, length_replicate. lia. }
  rewrite lookup_app_r by lia. rewrite Hl.
  by rewrite lookup_app_l by lia.
Qed.

Lemma write_at_lookup_after (f b : list byte) (off p : nat) :
  (off + length b <= p)%nat -> write_at f b off !! p = f !! p.
Proof.
  intros Hp. unfold write_at. destruct b as [| x b']; [done |].
  assert (length (take off (f ++ replicate (off - length f) x00)) = off) as Hl.
  { rewrite length_take, length_app, length_replicate. lia. }
  rewrite lookup_app_r by lia. rewrite Hl.
  rewrite lookup_app_r by lia.
  rewrite lookup_drop. f_equal. lia.
Qed.

(** *** The flags and the count *)

Definition in_range (total : Z) (c : Chunk) : Prop :=
  0 <= Chunk_Index c < total.

#[local] Instance in_range_dec total c : Decision (in_range total c).
Proof. unfold in_range. apply _. Defined.

(** *** The disk accepts a write *)

Definition has_room (disk : Disk) (size : Z) : Prop :=
  match disk_space disk with
  | None => True
  | Some limit => size <= limit
  end.

(** The disk has room for the chunk at its place in the file. *)
Definition room (disk : Disk) (c : Chunk) : Prop :=
  has_room disk (Chunk_Index c * ChunkSize + len (Chunk_Data c)).

(** The chunk is written without error, if it is written at all. *)
Definition writable (disk : Disk) (total : Z) (c : Chunk) : Prop :=
  in_range total c -> room disk c.

Lemma WriteAt_room (disk : Disk) (f b : list byte) (off : Z) :
  0 <= off -> has_room disk (off + len b) ->
  WriteAt disk f b off = (write_at f b (Z.to_nat off), true).
Proof.
  intros Hoff Hroom. unfold WriteAt, has_room in *.
  rewrite (proj2 (Z.ltb_ge _ _)) by done.
  destruct (len b =? 0) eqn:Hb.
  - apply Z.eqb_eq in Hb. destruct b; [done | unfold len in Hb; cbn in Hb; lia].
  - destruct (disk_space disk) as [limit |]; [| done].
    by rewrite (proj2 (Z.leb_le _ _)) by done.
Qed.

Lemma has_room_le (disk : Disk) (size size' : Z) :
  size <= size' -> has_room disk size' -> has_room disk size.
Proof. unfold has_room. destruct (disk_space disk); [lia | done]. Qed.

Lemma os_Create_creatable (disk : Disk) (fs : gmap string File) (path : string) :
  creatable disk path = true ->
  os_Create disk fs path = Some (<[path := mkFile [] false]> fs).
Proof. intros H. unfold os_Create. by rewrite H. Qed.

Definition count_true (received : list bool) : nat :=
  length (filter (fun b => b = true) received).

Lemma count_true_le (received : list bool) :
  (count_true received <= length received)%nat.
Proof. apply length_filter. Qed.

Lemma count_true_insert (received : list bool) (j : nat) :
  received !! j = Some false ->
  count_true (<[j := true]> received) = S (count_true received).
Proof.
  unfold count_true. revert j.
  induction received as [| b r IH]; intros j Hj; [done |].
  destruct j as [| j]; cbn in Hj.
  - injection Hj as ->. cbn [insert list_insert].
    rewrite filter_cons_True by done.
    by rewrite filter_cons_False by done.
  - cbn [insert list_insert]. specialize (IH j Hj).
    destruct b.
    + rewrite !filter_cons_True by done. cbn [length]. by f_equal.
    + by rewrite !filter_cons_False by done.
Qed.

(** The index of the first delivered chunk that is out of bounds. *)
Fixpoint first_oob (total : Z) (chunkStream : list Chunk) : option Z :=
  match chunkStream with
  | [] => None
  | c :: rest =>
      if (Chunk_Index c <? 0) || (total <=? Chunk_Index c)
      then Some (Chunk_Index c)
      else first_oob total rest
  end.

Lemma first_oob_None (total : Z) (chunkStream : list Chunk) :
  first_oob total chunkStream = None <-> Forall (in_range total) chunkStream.
Proof.
  induction chunkStream as [| c rest IH]; cbn [first_oob].
  - split; [constructor | done].
  - rewrite Forall_cons, <- IH. unfold in_range.
    destruct ((Chunk_Index c <? 0) || (total <=? Chunk_Index c)) eqn:E.
    + split; [done |]. intros [? _]. lia.
    + split; [| tauto]. intros ?. split; [lia | done].
Qed.

Lemma first_oob_Some (total : Z) (chunkStream : list Chunk) (i : Z) :
  first_oob total chunkStream = Some i <->
  exists pre c post, chunkStream = pre ++ c :: post
    /\ Forall (in_range total) pre /\ ~ in_range total c /\ Chunk_Index c = i.
Proof.
  revert i. induction chunkStream as [| c rest IH]; intros i; cbn [first_oob].
  - split; [done |]. intros (pre & ? & ? & E & _). by destruct pre.
  - destruct ((Chunk_Index c <? 0) || (total <=? Chunk_Index c)) eqn:E.
    + split.
      * intros [= <-]. exists [], c, rest. unfold in_range.
        split; [done |]. split; [constructor |]. split; [lia | done].
      * intros (pre & c' & post & Heq & Hpre & Hc & Hi).
        destruct pre as [| p pre]; cbn in Heq.
        -- injection Heq as -> ->. by rewrite Hi.
        -- injection Heq as -> ->. apply Forall_cons in Hpre as [Hp _].
           unfold in_range in Hp. lia.
    + rewrite IH. split.
      * intros (pre & c' & post & -> & Hpre & Hc & Hi).
        exists (c :: pre), c', post. split; [done |].
        split; [| done]. constructor; [unfold in_range; lia | done].
      * intros (pre & c' & post & Heq & Hpre & Hc & Hi).
        destruct pre as [| p pre]; cbn in Heq.
        -- injection Heq as -> ->. unfold in_range in Hc. lia.
        -- injection Heq as -> ->. apply Forall_cons in Hpre as [_ Hpre].
           by exists pre, c', post.
Qed.

(** The indices of the chunks of [chunkStream] that are not flagged. *)
Definition pending (received : list bool) (chunkStream : list Chunk) : gset Z :=
  list_to_set (filter (fun i => nth (Z.to_nat i) received false = false)
                      (Chunk_Index <$> chunkStream)).

Lemma pending_cons_received received c rest :
  nth (Z.to_nat (Chunk_Index c)) received false = true ->
  pending received (c :: rest) = pending received rest.
Proof.
  intros H. unfold pending. rewrite fmap_cons.
  rewrite filter_cons_False; [done |]. by rewrite H.
Qed.

Lemma pending_cons_fresh total received c rest :
  in_range total c ->
  Forall (in_range total) rest ->
  nth (Z.to_nat (Chunk_Index c)) received false = false ->
  (Z.to_nat (Chunk_Index c) < length received)%nat ->
  size (pending received (c :: rest))
  = S (size (pending (<[Z.to_nat (Chunk_Index c) := true]> received) rest)).
Proof.
  intros Hc Hrest Hfalse Hlen. unfold pending. rewrite fmap_cons.
  rewrite filter_cons_True by done. rewrite list_to_set_cons.
  set (X := list_to_set (filter _ (Chunk_Index <$> rest))).
  set (Y := list_to_set (filter _ (Chunk_Index <$> rest))).
  assert (Y = X ∖ {[Chunk_Index c]}) as ->.
  { apply set_eq. intros j. unfold X, Y.
    rewrite elem_of_difference, !elem_of_list_to_set, !list_elem_of_filter.
    rewrite elem_of_singleton, !nth_lookup.
    split.
    - intros [Hj Hin]. split; [split; [| done] |].
      + destruct (decide (Z.to_nat (Chunk_Index c) = Z.to_nat j)) as [E | E].
        * rewrite E in *. by rewrite list_lookup_insert_eq in Hj.
        * by rewrite list_lookup_insert_ne in Hj.
      + intros ->. by rewrite list_lookup_insert_eq in Hj.
    - intros [[Hj Hin] Hne]. split; [| done].
      rewrite list_lookup_insert_ne; [done |].
      apply list_elem_of_fmap in Hin as (c' & -> & Hc').
      rewrite Forall_forall in Hrest. specialize (Hrest c' Hc').
      unfold in_range in *. lia. }
  by rewrite size_union_alt, size_singleton.
Qed.

Lemma offset_no_wrap (total i : Z) :
  total <= 2 ^ 43 -> 0 <= i < total ->
  wrap64 (i * ChunkSize) = i * ChunkSize /\ 0 <= i * ChunkSize.
Proof.
  intros Ht Hi. rewrite ChunkSize_eq. rewrite wrap64_small; lia.
Qed.

(** What the receive loop returns: the first index out of bounds, or else
    the count grown by the number of distinct indices not flagged before. *)
Lemma assemble_loop_result (disk : Disk) (total : Z) (chunkStream : list Chunk)
    (output : list byte) (received : list bool) :
  0 <= total <= 2 ^ 43 ->
  Forall (writable disk total) chunkStream ->
  length received = Z.to_nat total ->
  (assemble_loop disk chunkStream output received
                 (Z.of_nat (count_true received)) total).2
  = match first_oob total chunkStream with
    | Some i => Err (ChunkOutOfBounds i (total - 1))
    | None => Ok (Z.of_nat (count_true received)
                  + Z.of_nat (size (pending received chunkStream)))
    end.
Proof.
  intros Ht Hw. revert output received.
  induction Hw as [| c rest Hwc Hw IH]; intros output received Hlen.
  - cbn. unfold pending. cbn. rewrite size_empty. f_equal. lia.
  - cbn [assemble_loop first_oob].
    destruct ((Chunk_Index c <? 0) || (total <=? Chunk_Index c)) eqn:E; [done |].
    assert (in_range total c) as Hc by (unfold in_range; lia).
    destruct (nth (Z.to_nat (Chunk_Index c)) received false) eqn:Hflag.
    + rewrite IH by done.
      destruct (first_oob total rest); [done |].
      by rewrite pending_cons_received.
    + destruct (offset_no_wrap total (Chunk_Index c)) as [-> Hoff];
        [lia | done |].
      rewrite WriteAt_room by (done || by apply Hwc).
      assert (Z.to_nat (Chunk_Index c) < length received)%nat as Hi
        by (unfold in_range in Hc; lia).
      assert (received !! Z.to_nat (Chunk_Index c) = Some false) as Hlk.
      { rewrite nth_lookup in Hflag.
        destruct (lookup_lt_is_Some_2 received _ Hi) as [b Hb].
        rewrite Hb in Hflag. cbn in Hflag. by subst b. }
      pose proof (count_true_le received).
      rewrite wrap64_small by lia.
      replace (Z.of_nat (count_true received) + 1)
        with (Z.of_nat (count_true (<[Z.to_nat (Chunk_Index c) := true]> received)))
        by (rewrite count_true_insert by done; lia).
      rewrite IH by (by rewrite length_insert).
      destruct (first_oob total rest) eqn:Hoob; [done |].
      apply first_oob_None in Hoob.
      rewrite (pending_cons_fresh total) by done.
      rewrite count_true_insert by done. f_equal. lia.
Qed.


Lemma filter_all {A} (P : A -> Prop) `{!forall x, Decision (P x)} (l : list A) :
  Forall P l -> filter P l = l.
Proof.
  induction 1 as [| x l Hx _ IH]; [done |].
  rewrite filter_cons_True by done. by rewrite IH.
Qed.

Lemma count_true_replicate (n : nat) : count_true (replicate n false) = 0%nat.
Proof.
  unfold count_true. induction n as [| n IH]; [done |].
  cbn [replicate]. by rewrite filter_cons_False.
Qed.

Lemma size_list_to_set_dups (l : list Z) :
  size (list_to_set l : gset Z) = length (remove_dups l).
Proof.
  rewrite <- (size_list_to_set (C := gset Z) (remove_dups l))
    by apply NoDup_remove_dups.
  f_equal. apply set_eq. intros x.
  by rewrite !elem_of_list_to_set, elem_of_remove_dups.
Qed.

Lemma pending_replicate (n : nat) (chunkStream : list Chunk) :
  pending (replicate n false) chunkStream
  = list_to_set (Chunk_Index <$> chunkStream).
Proof.
  unfold pending. f_equal. apply filter_all.
  apply Forall_forall. intros i _. rewrite nth_lookup.
  destruct (replicate n false !! Z.to_nat i) as [b |] eqn:E; [| done].
  apply lookup_replicate in E as [-> _]. done.
Qed.

(** The distinct in-range indices delivered on the stream. *)
Definition written (total : Z) (chunkStream : list Chunk) : list Z :=
  remove_dups (filter (fun i => 0 <= i < total) (Chunk_Index <$> chunkStream)).

Lemma written_in_range (total : Z) (chunkStream : list Chunk) :
  Forall (in_range total) chunkStream ->
  written total chunkStream = remove_dups (Chunk_Index <$> chunkStream).
Proof.
  intros H. unfold written. f_equal. apply filter_all.
  apply Forall_fmap. by apply (Forall_impl _ _ _ H).
Qed.

(** How [AssembleChunks] ends when the flags can be allocated. *)
Lemma AssembleChunks_outcome (disk : Disk) (chunkStream : list Chunk)
    (fs : gmap string File) (outputPath : string) (total : Z) :
  creatable disk outputPath = true ->
  0 <= total <= 2 ^ 43 ->
  Forall (writable disk total) chunkStream ->
  (AssembleChunks disk chunkStream fs outputPath total).2
  = match first_oob total chunkStream with
    | Some i => Return (Some (ChunkOutOfBounds i (total - 1)))
    | None =>
        let n := len (written total chunkStream) in
        if n =? total then Return None
        else Return (Some (IncompleteFile total n))
    end.
Proof.
  intros Hcreate Ht Hw. unfold AssembleChunks.
  rewrite os_Create_creatable by done.
  rewrite (proj2 (Z.ltb_ge _ _)) by lia.
  pose proof (assemble_loop_result disk total chunkStream []
                (replicate (Z.to_nat total) false) Ht Hw) as Hr.
  rewrite length_replicate, count_true_replicate in Hr.
  specialize (Hr eq_refl). change (Z.of_nat 0) with 0 in Hr.
  destruct (assemble_loop disk chunkStream [] _ 0 total) as [output r].
  cbn [snd] in Hr. subst r.
  destruct (first_oob total chunkStream) eqn:Hoob; [done |].
  apply first_oob_None in Hoob.
  rewrite pending_replicate, size_list_to_set_dups, Z.add_0_l.
  rewrite written_in_range by done. cbv zeta. unfold len.
  by destruct (_ =? total).
Qed.

(** A chunk whose index was delivered before, or is flagged already,
    leaves the loop as it was. *)
Lemma assemble_loop_duplicate (disk : Disk) (total : Z) (pre : list Chunk)
    (c : Chunk) (post : list Chunk) (output : list byte) (received : list bool)
    (u : Z) :
  length received = Z.to_nat total ->
  Chunk_Index c ∈ Chunk_Index <$> pre
  \/ (in_range total c /\ nth (Z.to_nat (Chunk_Index c)) received false = true) ->
  assemble_loop disk (pre ++ c :: post) output received u total
  = assemble_loop disk (pre ++ post) output received u total.
Proof.
  revert output received u.
  induction pre as [| p pre IH]; intros output received u Hlen Hc.
  - destruct Hc as [Hc | [Hc Hflag]]; [by apply elem_of_nil in Hc |].
    cbn [app assemble_loop]. unfold in_range in Hc.
    rewrite (proj2 (orb_false_iff _ _)) by (split; lia).
    by rewrite Hflag.
  - cbn [app assemble_loop].
    destruct ((Chunk_Index p <? 0) || (total <=? Chunk_Index p)) eqn:E; [done |].
    assert (in_range total p) as Hp by (unfold in_range; lia).
    destruct (nth (Z.to_nat (Chunk_Index p)) received false) eqn:Hflag.
    + apply IH; [done |].
      destruct Hc as [Hc | Hc]; [| by right].
      rewrite fmap_cons in Hc. apply elem_of_cons in Hc as [Hc | Hc]; [| by left].
      right. unfold in_range in *. by rewrite Hc.
    + destruct (WriteAt disk output (Chunk_Data p) _) as [output' [|]]; [| done].
      apply IH; [by rewrite length_insert |].
      assert (Z.to_nat (Chunk_Index p) < length received)%nat
        by (unfold in_range in Hp; lia).
      destruct Hc as [Hc | [Hc Hcf]].
      * rewrite fmap_cons in Hc.
        apply elem_of_cons in Hc as [Hc | Hc]; [| by left].
        right. unfold in_range in *. rewrite Hc. split; [done |].
        by rewrite nth_lookup, list_lookup_insert_eq.
      * right. split; [done |]. rewrite nth_lookup in *.
        destruct (decide (Z.to_nat (Chunk_Index p) = Z.to_nat (Chunk_Index c)))
          as [Eq | Ne].
        -- rewrite <- Eq. by rewrite list_lookup_insert_eq.
        -- by rewrite list_lookup_insert_ne.
Qed.

(** A write that the disk refuses ends the loop with the write error. *)
Lemma assemble_loop_write_failure (disk : Disk) (total : Z) (pre : list Chunk)
    (c : Chunk) (post : list Chunk) (output : list byte) (received : list bool)
    (u : Z) :
  0 <= total <= 2 ^ 43 ->
  length received = Z.to_nat total ->
  Forall (fun p => in_range total p /\ room disk p) pre ->
  in_range total c ->
  Chunk_Index c ∉ Chunk_Index <$> pre ->
  nth (Z.to_nat (Chunk_Index c)) received false = false ->
  Chunk_Data c <> [] -> ~ room disk c ->
  (assemble_loop disk (pre ++ c :: post) output received u total).2
  = Err (FailedToWriteChunk (Chunk_Index c)).
Proof.
  intros Ht Hlen Hpre Hc Hfresh Hflag Hdata Hroom.
  revert output received u Hlen Hflag.
  induction Hpre as [| p pre [Hp Hpr] _ IH]; intros output received u Hlen Hflag.
  - cbn [app assemble_loop]. unfold in_range in Hc.
    rewrite (proj2 (orb_false_iff _ _)) by (split; lia).
    rewrite Hflag.
    destruct (offset_no_wrap total (Chunk_Index c)) as [-> Hoff]; [lia | done |].
    unfold WriteAt, room, has_room in *.
    rewrite (proj2 (Z.ltb_ge _ _)) by done.
    assert ((len (Chunk_Data c) =? 0) = false) as ->.
    { apply Z.eqb_neq. unfold len. destruct (Chunk_Data c); [done | cbn; lia]. }
    destruct (disk_space disk) as [limit |]; [| done].
    by rewrite (proj2 (Z.leb_gt _ _)) by lia.
  - rewrite fmap_cons, not_elem_of_cons in Hfresh. destruct Hfresh as [Hne Hfresh].
    cbn [app assemble_loop]. unfold in_range in Hp.
    rewrite (proj2 (orb_false_iff _ _)) by (split; lia).
    destruct (nth (Z.to_nat (Chunk_Index p)) received false); [by apply IH |].
    destruct (offset_no_wrap total (Chunk_Index p)) as [-> Hoff]; [lia | done |].
    rewrite WriteAt_room by done.
    apply IH; [done | by rewrite length_insert |].
    rewrite nth_lookup, list_lookup_insert_ne; [by rewrite <- nth_lookup |].
    unfold in_range in Hc. lia.
Qed.

(** C6 as stated fails: the call also fails when the output file cannot
    be created.  A stream that delivers the one chunk expected, within
    bounds, ends in the creation error for the empty output path. *)
Lemma AssembleChunks_stated_iff_counterexample :
  ~ (forall (disk : Disk) (chunkStream : list Chunk) (fs : gmap string File)
            (outputPath : string) (totalChunks : Z),
       (AssembleChunks disk chunkStream fs outputPath totalChunks).2 <> Return None
       <-> (exists c, c ∈ chunkStream /\ ~ (0 <= Chunk_Index c < totalChunks))
           \/ len (written totalChunks chunkStream) <> totalChunks).
Proof.
  intros H.
  destruct (H (mkDisk ∅ None) [mkChunk 0 [x61] EmptyString 1] ∅ EmptyString 1)
    as [H1 _].
  destruct H1 as [(c & Hc & Hout) | Hcount].
  - vm_compute. discriminate.
  - apply list_elem_of_singleton in Hc as ->. apply Hout. cbn. lia.
  - apply Hcount. vm_compute. reflexivity.
Qed.

(** C6, amended.  Where the output file cannot be created the call fails
    with the creation error and writes nothing, and a negative
    [totalChunks] makes it panic.  Otherwise, as long as the disk accepts
    the writes, [AssembleChunks] fails exactly when a delivered chunk has
    its index outside [0, totalChunks) or the number of distinct in-range
    indices delivered differs from [totalChunks]: the first chunk out of
    bounds ends the call at once with the out-of-bounds error, and a
    stream within bounds that does not cover every index ends with the
    incomplete-file error.  The first write that the disk refuses ends
    the call with the write error.  A chunk whose index was delivered
    before changes nothing, neither the count nor the file. *)
Theorem AssembleChunks_fails_iff (disk : Disk) (chunkStream : list Chunk)
    (fs : gmap string File) (outputPath : string) (totalChunks : Z) :
  totalChunks <= 2 ^ 43 ->
  let outcome := (AssembleChunks disk chunkStream fs outputPath totalChunks).2 in
  (creatable disk outputPath = false ->
     AssembleChunks disk chunkStream fs outputPath totalChunks
     = (fs, Return (Some FailedToCreateOutput)))
  /\ (creatable disk outputPath = true -> totalChunks < 0 -> outcome = Panic)
  /\ (creatable disk outputPath = true -> 0 <= totalChunks ->
      Forall (writable disk totalChunks) chunkStream ->
      (outcome <> Return None <->
         (exists c, c ∈ chunkStream /\ ~ (0 <= Chunk_Index c < totalChunks))
         \/ len (written totalChunks chunkStream) <> totalChunks)
      /\ (forall pre c post,
            chunkStream = pre ++ c :: post ->
            Forall (fun p => 0 <= Chunk_Index p < totalChunks) pre ->
            ~ (0 <= Chunk_Index c < totalChunks) ->
            outcome
            = Return (Some (ChunkOutOfBounds (Chunk_Index c) (totalChunks - 1))))
      /\ (Forall (fun p => 0 <= Chunk_Index p < totalChunks) chunkStream ->
          len (written totalChunks chunkStream) <> totalChunks ->
          outcome
          = Return (Some (IncompleteFile totalChunks
                            (len (written totalChunks chunkStream))))))
  /\ (forall pre c post,
        creatable disk outputPath = true -> 0 <= totalChunks ->
        chunkStream = pre ++ c :: post ->
        Forall (fun p => 0 <= Chunk_Index p < totalChunks /\ room disk p) pre ->
        0 <= Chunk_Index c < totalChunks ->
        Chunk_Index c ∉ Chunk_Index <$> pre ->
        Chunk_Data c <> [] -> ~ room disk c ->
        outcome = Return (Some (FailedToWriteChunk (Chunk_Index c))))
  /\ (forall pre c post,
        chunkStream = pre ++ c :: post ->
        Chunk_Index c ∈ Chunk_Index <$> pre ->
        AssembleChunks disk chunkStream fs outputPath totalChunks
        = AssembleChunks disk (pre ++ post) fs outputPath totalChunks).
Proof.
  intros Hmax outcome.
  split; [| split; [| split; [| split]]].
  - intros Hc. unfold AssembleChunks, os_Create. by rewrite Hc.
  - intros Hc Hneg. unfold outcome, AssembleChunks.
    rewrite os_Create_creatable by done.
    by rewrite (proj2 (Z.ltb_lt _ _)) by done.
  - intros Hc Hpos Hw.
    assert (0 <= totalChunks <= 2 ^ 43) as Ht by lia.
    pose proof (AssembleChunks_outcome disk chunkStream fs outputPath totalChunks
                  Hc Ht Hw) as Hout.
    fold outcome in Hout. cbv zeta in Hout.
    split; [| split].
    + destruct (first_oob totalChunks chunkStream) as [i |] eqn:Hoob.
      * rewrite Hout. split; [| done]. intros _. left.
        apply first_oob_Some in Hoob as (pre & c & post & -> & _ & Hcr & _).
        exists c. split; [| done]. apply elem_of_app. right. by left.
      * apply first_oob_None in Hoob. rewrite Hout.
        destruct (len (written totalChunks chunkStream) =? totalChunks) eqn:E.
        -- split; [done |]. intros [(c & Hin & Hcr) | Hn]; [| lia].
           rewrite Forall_forall in Hoob. by specialize (Hoob c Hin).
        -- split; [| done]. intros _. right. lia.
    + intros pre c post Heq Hpre Hcr.
      assert (first_oob totalChunks chunkStream = Some (Chunk_Index c)) as Hoob.
      { apply first_oob_Some. by exists pre, c, post. }
      by rewrite Hout, Hoob.
    + intros Hall Hn.
      apply first_oob_None in Hall. rewrite Hout, Hall.
      by rewrite (proj2 (Z.eqb_neq _ _)) by done.
  - intros pre c post Hc Hpos -> Hpre Hcr Hfresh Hdata Hroom.
    assert (0 <= totalChunks <= 2 ^ 43) as Ht by lia.
    pose proof (assemble_loop_write_failure disk totalChunks pre c post []
                  (replicate (Z.to_nat totalChunks) false) 0 Ht
                  (length_replicate _ _) Hpre Hcr Hfresh) as Hfail.
    unfold outcome, AssembleChunks.
    rewrite os_Create_creatable by done.
    rewrite (proj2 (Z.ltb_ge _ _)) by lia.
    destruct (assemble_loop disk (pre ++ c :: post) [] _ 0 totalChunks)
      as [output r].
    cbn [snd] in Hfail. rewrite Hfail; [done | | done | done].
    rewrite nth_lookup.
    destruct (replicate (Z.to_nat totalChunks) false !! Z.to_nat (Chunk_Index c))
      as [b |] eqn:Hb; [| done].
    by apply lookup_replicate in Hb as [-> _].
  - intros pre c post -> Hc. unfold AssembleChunks.
    destruct (os_Create disk fs outputPath); [| done].
    destruct (totalChunks <? 0) eqn:Hneg; [done |]. apply Z.ltb_ge in Hneg.
    rewrite assemble_loop_duplicate; [done | | by left].
    by rewrite length_replicate.
Qed.

(** Three chunks expected, index 1 never delivered. *)
Lemma AssembleChunks_fails_iff_witness :
  (AssembleChunks (mkDisk ∅ None)
                  [mkChunk 0 [x61] EmptyString 1; mkChunk 2 [x63] EmptyString 1]
                  ∅ "out.bin" 3).2
  = Return (Some (IncompleteFile 3 2)).
Proof.
  pose proof (AssembleChunks_fails_iff (mkDisk ∅ None)
                [mkChunk 0 [x61] EmptyString 1; mkChunk 2 [x63] EmptyString 1]
                ∅ "out.bin" 3) as H.
  destruct H as (_ & _ & H & _); [vm_compute; congruence |].
  destruct H as (_ & _ & H).
  - reflexivity.
  - lia.
  - repeat constructor.
  - apply H.
    + repeat constructor; cbn; lia.
    + vm_compute. congruence.
Defined.


(** *** The assembled file *)

Section roundtrip.
Variable disk : Disk.
Variable content : list byte.
Hypothesis content_size : len content < 2 ^ 63.
Hypothesis content_room : has_room disk (len content).

Let n : nat := length content.
Let k : nat := chunk_count n.

Lemma div_cs_eq (p i : nat) : (p / cs = i <-> i * cs <= p < S i * cs)%nat.
Proof.
  pose proof cs_pos. pose proof (Nat.div_mod_eq p cs).
  pose proof (Nat.mod_upper_bound p cs). split; [intros <-; lia |].
  intros Hp. symmetry. apply (Nat.div_unique _ _ _ (p - i * cs)); lia.
Qed.

Lemma chunk_at_data_lookup (i p : nat) :
  (i * cs <= p < S i * cs)%nat ->
  Chunk_Data (chunk_at content 0 i) !! (p - i * cs)%nat = content !! p.
Proof.
  intros Hp. unfold chunk_at. cbn [Chunk_Data].
  rewrite lookup_take_lt by lia. rewrite lookup_drop. f_equal. lia.
Qed.

Lemma chunk_at_data_length (i : nat) :
  length (Chunk_Data (chunk_at content 0 i)) = Nat.min cs (n - i * cs).
Proof.
  unfold chunk_at. cbn [Chunk_Data]. by rewrite length_take, length_drop.
Qed.

(** The file agrees with [content] on every flagged chunk. *)
Definition agrees (output : list byte) (flagged : nat -> Prop) : Prop :=
  (length output <= n)%nat
  /\ forall p, (p < n)%nat -> flagged (p / cs)%nat -> output !! p = content !! p.

Lemma agrees_write (output : list byte) (received : list bool) (i : nat) :
  (i < k)%nat ->
  agrees output (fun j => received !! j = Some true) ->
  agrees (write_at output (Chunk_Data (chunk_at content 0 i)) (i * cs))
         (fun j => <[i := true]> received !! j = Some true).
Proof.
  intros Hi [Hlen Hag]. pose proof cs_pos as Hcs.
  assert (0 < n)%nat as Hn by (apply chunk_count_pos_inv; fold k; lia).
  destruct (chunk_count_bounds n Hn) as (_ & Hlo & _). fold k in Hlo.
  assert (i * cs <= (k - 1) * cs)%nat by (apply Nat.mul_le_mono_r; lia).
  pose proof (chunk_at_data_length i) as Hdl.
  assert (Chunk_Data (chunk_at content 0 i) <> []) as Hne.
  { intros E. rewrite E in Hdl. cbn in Hdl. lia. }
  split.
  - rewrite write_at_length by done. lia.
  - intros p Hp Hflag.
    destruct (decide (p / cs = i)%nat) as [Heq | Hneq].
    + apply div_cs_eq in Heq.
      rewrite write_at_lookup_inside by lia.
      by apply chunk_at_data_lookup.
    + rewrite list_lookup_insert_ne in Hflag by done.
      pose proof (Hag p Hp Hflag) as Hout.
      assert (p < length output)%nat as Hpl.
      { apply lookup_lt_is_Some. rewrite Hout.
        apply lookup_lt_is_Some. by fold n. }
      rewrite <- Hout.
      assert (~ (i * cs <= p < S i * cs)%nat) as Hout_i
        by (by rewrite <- div_cs_eq).
      destruct (decide (p < i * cs)%nat).
      * by apply write_at_lookup_before.
      * apply write_at_lookup_after. lia.
Qed.

Definition file_chunk (c : Chunk) : Prop :=
  exists i, (i < k)%nat /\ c = chunk_at content 0 i.

Lemma assemble_loop_agrees (chunkStream : list Chunk) (output : list byte)
    (received : list bool) (u : Z) :
  Forall file_chunk chunkStream ->
  length received = k ->
  agrees output (fun j => received !! j = Some true) ->
  agrees (assemble_loop disk chunkStream output received u (Z.of_nat k)).1
         (fun j => received !! j = Some true
                   \/ Z.of_nat j ∈ Chunk_Index <$> chunkStream).
Proof.
  pose proof (chunk_count_limit n content_size) as Hk. fold k in Hk.
  revert output received u.
  induction chunkStream as [| c rest IH]; intros output received u Hall Hlen Hag.
  - cbn. destruct Hag as [? Hag]. split; [done |].
    intros p Hp [Hf | Hf]; [by apply Hag | by apply elem_of_nil in Hf].
  - apply Forall_cons in Hall as [(i & Hi & ->) Hall].
    cbn [assemble_loop].
    replace (Chunk_Index (chunk_at content 0 i)) with (Z.of_nat i) by done.
    rewrite (proj2 (orb_false_iff _ _)) by (split; lia).
    rewrite Nat2Z.id.
    destruct (nth i received false) eqn:Hflag.
    + (* delivered before *)
      destruct (IH output received u Hall Hlen Hag) as [Hl Hcont].
      split; [done |]. intros p Hp Hf. apply Hcont; [done |].
      destruct Hf as [Hf | Hf]; [by left |].
      rewrite fmap_cons in Hf. apply elem_of_cons in Hf as [Hf | Hf]; [| by right].
      left. apply Nat2Z.inj in Hf. cbn [Nat.add] in Hf. rewrite Hf.
      rewrite nth_lookup in Hflag.
      destruct (received !! i) as [[|] |]; done.
    + destruct (offset_no_wrap (Z.of_nat k) (Z.of_nat i)) as [-> Hoff];
        [done | lia |].
      rewrite WriteAt_room; [| done |].
      2:{ apply (has_room_le disk _ (len content)); [| done].
          pose proof (chunk_at_data_length i) as Hdl.
          assert (0 < n)%nat as Hn by (apply chunk_count_pos_inv; fold k; lia).
          destruct (chunk_count_bounds n Hn) as (_ & Hlo & _). fold k in Hlo.
          assert (i * cs <= (k - 1) * cs)%nat by (apply Nat.mul_le_mono_r; lia).
          unfold len. rewrite Hdl, <- cs_ChunkSize. fold n. lia. }
      rewrite <- cs_ChunkSize, <- Nat2Z.inj_mul, Nat2Z.id.
      pose proof (agrees_write output received i Hi Hag) as Hag'.
      destruct (IH _ (<[i := true]> received) (wrap64 (u + 1)) Hall
                  ltac:(by rewrite length_insert) Hag') as [Hl Hcont].
      split; [done |]. intros p Hp Hf. apply Hcont; [done |].
      destruct Hf as [Hf | Hf].
      * left. destruct (decide (i = p / cs)%nat) as [-> | Hne].
        -- apply list_lookup_insert_eq. rewrite Hlen.
           by apply lookup_lt_Some in Hf; rewrite Hlen in Hf.
        -- by rewrite list_lookup_insert_ne.
      * rewrite fmap_cons in Hf.
        apply elem_of_cons in Hf as [Hf | Hf]; [| by right].
        left. apply Nat2Z.inj in Hf. cbn [Nat.add] in Hf. rewrite Hf.
        apply list_lookup_insert_eq. lia.
Qed.

End roundtrip.

(** C5.  The chunks of a file, delivered in any order and any number of
    times each, are assembled into the file: with [totalChunks] the
    number of chunks, on a disk where the output file can be created and
    that has room for it, the call succeeds and the output file holds
    exactly the bytes of the source. *)
Theorem AssembleChunks_roundtrip (disk : Disk)
    (fs : gmap string File) (filePath outputPath : string)
    (content : list byte) (chunkStream : list Chunk) :
  fs !! filePath = Some (mkFile content false) ->
  len content < 2 ^ 63 ->
  (forall c, c ∈ chunkStream <-> c ∈ Result_Chunk <$> StreamChunkFile fs filePath) ->
  creatable disk outputPath = true ->
  has_room disk (len content) ->
  AssembleChunks disk chunkStream fs outputPath
                 (len (StreamChunkFile fs filePath))
  = (<[outputPath := mkFile content false]> fs, Return None).
Proof.
  intros Hopen Hsize Hstream Hcreate Hroom.
  rewrite (StreamChunkFile_closed fs filePath content Hopen Hsize) in *.
  pose proof (chunk_count_limit (length content) Hsize) as Hk.
  pose proof (chunk_count_bounds (length content)) as Hbounds.
  pose proof (assemble_loop_agrees disk content Hsize Hroom chunkStream []
                (replicate (chunk_count (length content)) false) 0) as Hag.
  assert (forall c, file_chunk content c <->
            exists i, (i < chunk_count (length content))%nat
                      /\ c = chunk_at content 0 i) as Hfc by done.
  remember (chunk_count (length content)) as k eqn:Hkdef.
  assert (forall c, c ∈ chunkStream <-> exists i, (i < k)%nat /\ c = chunk_at content 0 i)
    as Hmem.
  { intros c. rewrite Hstream, <- list_fmap_compose, list_elem_of_fmap.
    split.
    - intros (i & -> & Hi). apply elem_of_seq in Hi. exists i. split; [lia | done].
    - intros (i & Hi & ->). exists i. split; [done |]. apply elem_of_seq. lia. }
  assert (len (map (fun i => mkChunkResult (chunk_at content 0 i) None) (seq 0 k))
          = Z.of_nat k) as ->.
  { unfold len. by rewrite length_map, length_seq. }
  assert (Forall (file_chunk content) chunkStream) as Hall.
  { apply Forall_forall. intros c Hc. apply Hfc. by apply Hmem. }
  assert (Forall (in_range (Z.of_nat k)) chunkStream) as Hrange.
  { apply Forall_forall. intros c Hc. apply Hmem in Hc as (i & Hi & ->).
    unfold in_range, chunk_at. cbn. lia. }
  (* the count *)
  assert (len (written (Z.of_nat k) chunkStream) = Z.of_nat k) as Hcount.
  { rewrite written_in_range by done. unfold len.
    rewrite <- size_list_to_set_dups. f_equal.
    transitivity (length (Z.of_nat <$> seq 0 k));
      [| by rewrite length_fmap, length_seq].
    rewrite <- (size_list_to_set (C := gset Z) (Z.of_nat <$> seq 0 k)).
    2:{ apply NoDup_fmap; [apply _ | apply NoDup_seq]. }
    f_equal. apply set_eq. intros j.
    rewrite !elem_of_list_to_set, !list_elem_of_fmap. split.
    - intros (c & -> & Hc). apply Hmem in Hc as (i & Hi & ->).
      exists i. split; [done |]. apply elem_of_seq. lia.
    - intros (i & -> & Hi). apply elem_of_seq in Hi.
      exists (chunk_at content 0 i). split; [done |].
      apply Hmem. exists i. split; [lia | done]. }
  assert (Forall (writable disk (Z.of_nat k)) chunkStream) as Hwr.
  { apply Forall_forall. intros c Hc _. apply Hmem in Hc as (i & Hi & ->).
    apply (has_room_le disk _ (len content)); [| done].
    unfold chunk_at. cbn [Chunk_Index Chunk_Data Nat.add].
    pose proof cs_pos. pose proof cs_ChunkSize as HCS.
    assert (0 < length content)%nat as Hn by (apply chunk_count_pos_inv; lia).
    destruct (Hbounds Hn) as (_ & Hlo & _).
    assert (i * cs <= (k - 1) * cs)%nat by (apply Nat.mul_le_mono_r; lia).
    unfold len. rewrite length_take, length_drop, <- HCS. lia. }
  (* the outcome *)
  pose proof (AssembleChunks_outcome disk chunkStream fs outputPath (Z.of_nat k)
                Hcreate ltac:(lia) Hwr) as Hout.
  rewrite (proj2 (first_oob_None _ _) Hrange) in Hout. cbv zeta in Hout.
  rewrite Hcount, Z.eqb_refl in Hout.
  (* the file *)
  destruct (Hag Hall (length_replicate _ _)) as [Hlen Hag'].
  { split; [cbn; lia |]. intros p _ Hf.
    apply lookup_replicate in Hf as [? _]. done. }
  unfold AssembleChunks in *.
  rewrite os_Create_creatable in * by done.
  rewrite (proj2 (Z.ltb_ge _ _)) in * by lia.
  rewrite Nat2Z.id in *.
  destruct (assemble_loop disk chunkStream [] (replicate k false) 0 (Z.of_nat k))
    as [output r].
  cbn [fst] in Hlen, Hag'.
  assert (output = content) as ->.
  { apply list_eq. intros p.
    destruct (decide (p < length content)%nat) as [Hp | Hp].
    - apply Hag'; [done |]. right.
      apply list_elem_of_fmap. exists (chunk_at content 0 (p / cs)).
      split; [done |]. apply Hmem. exists (p / cs)%nat. split; [| done].
      pose proof cs_pos.
      destruct Hbounds as (_ & _ & Hhi); [lia |].
      apply Nat.Div0.div_lt_upper_bound. lia.
    - rewrite !lookup_ge_None_2; [done | lia | lia]. }
  destruct r as [u | e]; [| done].
  destruct (negb (u =? Z.of_nat k)); [done | done].
Qed.

(** A file of three bytes: its single chunk, delivered twice. *)
Lemma AssembleChunks_roundtrip_witness :
  let fs : gmap string File := {[ "a.bin"%string := mkFile [x61; x62; x63] false ]} in
  let chunk := mkChunk 0 [x61; x62; x63]
                 (hex.EncodeToString (sha256.Sum256 [x61; x62; x63])) 3 in
  AssembleChunks (mkDisk ∅ (Some 3)) [chunk; chunk] fs "b.bin"
                 (len (StreamChunkFile fs "a.bin"))
  = (<["b.bin"%string := mkFile [x61; x62; x63] false]> fs, Return None).
Proof.
  intros fs chunk.
  apply (AssembleChunks_roundtrip _ fs "a.bin" "b.bin" [x61; x62; x63]).
  - reflexivity.
  - vm_compute. reflexivity.
  - intros c.
    assert (Result_Chunk <$> StreamChunkFile fs "a.bin" = [chunk]) as ->
      by (vm_compute; reflexivity).
    rewrite !elem_of_cons. split; [intros [? | [? | ?]] | intros [? | ?]];
      try tauto; by apply elem_of_nil in H.
  - reflexivity.
  - vm_compute. discriminate.
Defined.

End assemble.

(** ** The field GF(2^8) *)

Section field.
Import reedsolomon.

Definition all_bytes : list byte :=
  map (fun i => byte_of_N (N.of_nat i)) (seq 0 256).

Lemma all_bytes_complete (b : byte) : b ∈ all_bytes.
Proof.
  unfold all_bytes. apply list_elem_of_fmap.
  exists (N.to_nat (Byte.to_N b)). split.
  - by rewrite N2Nat.id, byte_of_to_N.
  - apply elem_of_seq. pose proof (byte_to_N_lt b). lia.
Qed.

(** A property checked on the 256 bytes holds of every byte. *)
Lemma byte_forall (P : byte -> bool) :
  forallb P all_bytes = true -> forall b, P b = true.
Proof.
  intros H b. rewrite forallb_forall in H.
  apply H, list_elem_of_In, all_bytes_complete.
Qed.

Lemma byte_forall2 (P : byte -> byte -> bool) :
  forallb (fun a => forallb (P a) all_bytes) all_bytes = true ->
  forall a b, P a b = true.
Proof.
  intros H a b.
  apply (byte_forall (P a)). by apply (byte_forall (fun a => forallb (P a) all_bytes)).
Qed.

Lemma to_N_bxor (a b : byte) :
  Byte.to_N (bxor a b) = N.lxor (Byte.to_N a) (Byte.to_N b).
Proof.
  apply N.eqb_eq.
  apply (byte_forall2 (fun a b =>
    N.eqb (Byte.to_N (bxor a b)) (N.lxor (Byte.to_N a) (Byte.to_N b)))).
  vm_compute. reflexivity.
Qed.

Lemma to_N_galMultiply (a b : byte) :
  Byte.to_N (galMultiply a b) = mul_bits 8 (Byte.to_N a) (Byte.to_N b).
Proof.
  apply N.eqb_eq.
  apply (byte_forall2 (fun a b =>
    N.eqb (Byte.to_N (galMultiply a b))
          (mul_bits 8 (Byte.to_N a) (Byte.to_N b)))).
  vm_compute. reflexivity.
Qed.

Lemma bxor_comm (a b : byte) : bxor a b = bxor b a.
Proof. apply byte_to_N_inj. rewrite !to_N_bxor. apply N.lxor_comm. Qed.

Lemma bxor_assoc (a b c : byte) : bxor a (bxor b c) = bxor (bxor a b) c.
Proof.
  apply byte_to_N_inj. rewrite !to_N_bxor. symmetry. apply N.lxor_assoc.
Qed.

Lemma bxor_0_l (a : byte) : bxor x00 a = a.
Proof. apply byte_to_N_inj. rewrite to_N_bxor. apply N.lxor_0_l. Qed.

Lemma bxor_0_r (a : byte) : bxor a x00 = a.
Proof. apply byte_to_N_inj. rewrite to_N_bxor. apply N.lxor_0_r. Qed.

Lemma bxor_nilpotent (a : byte) : bxor a a = x00.
Proof. apply byte_to_N_inj. rewrite to_N_bxor. apply N.lxor_nilpotent. Qed.

(** Equations between exclusive-ors of numbers, bit by bit. *)
Ltac xor_bits :=
  apply N.bits_inj; intros ?i; rewrite ?N.lxor_spec, ?N.bits_0;
  repeat match goal with
         | |- context [N.testbit ?t ?i] => destruct (N.testbit t i)
         end;
  reflexivity.

(** Multiplication is additive in its second argument. *)
Lemma mul_bits_lxor (n : nat) (a x y : N) :
  mul_bits n a (N.lxor x y) = N.lxor (mul_bits n a x) (mul_bits n a y).
Proof.
  revert a x y. induction n as [| n IH]; intros a x y; [done |].
  cbn [mul_bits]. rewrite N.shiftr_lxor, IH, N.lxor_spec.
  set (u := mul_bits n (xtime a) (N.shiftr x 1)).
  set (v := mul_bits n (xtime a) (N.shiftr y 1)).
  destruct (N.testbit x 0), (N.testbit y 0); cbn [xorb]; xor_bits.
Qed.

Lemma galMultiply_bxor (c x y : byte) :
  galMultiply c (bxor x y) = bxor (galMultiply c x) (galMultiply c y).
Proof.
  apply byte_to_N_inj.
  by rewrite to_N_bxor, !to_N_galMultiply, to_N_bxor, mul_bits_lxor.
Qed.

Lemma galMultiply_0_r (c : byte) : galMultiply c x00 = x00.
Proof.
  assert (forallb (fun a => bool_decide (galMultiply a x00 = x00)) all_bytes = true)
    as H by (vm_compute; reflexivity).
  exact (bool_decide_eq_true_1 _ (byte_forall _ H c)).
Qed.

Lemma galMultiply_0_l (x : byte) : galMultiply x00 x = x00.
Proof.
  assert (forallb (fun a => bool_decide (galMultiply x00 a = x00)) all_bytes = true)
    as H by (vm_compute; reflexivity).
  exact (bool_decide_eq_true_1 _ (byte_forall _ H x)).
Qed.

Lemma galMultiply_1_l (x : byte) : galMultiply x01 x = x.
Proof.
  assert (forallb (fun a => bool_decide (galMultiply x01 a = a)) all_bytes = true)
    as H by (vm_compute; reflexivity).
  exact (bool_decide_eq_true_1 _ (byte_forall _ H x)).
Qed.

End field.

(** ** Linear combinations of shards *)

Section linalg.
Import reedsolomon.

Lemma bxor_swap (a b c d : byte) :
  bxor (bxor a b) (bxor c d) = bxor (bxor a c) (bxor b d).
Proof.
  rewrite <- !bxor_assoc. f_equal.
  rewrite !bxor_assoc. f_equal. apply bxor_comm.
Qed.

Lemma dot_nil_r (cs : list byte) : dot cs [] = x00.
Proof. unfold dot. by rewrite zip_with_nil_r. Qed.

Lemma dot_cons (c : byte) (cs : list byte) (x : byte) (xs : list byte) :
  dot (c :: cs) (x :: xs) = bxor (galMultiply c x) (dot cs xs).
Proof. reflexivity. Qed.

Lemma dot_map_zero {A} (cs : list byte) (l : list A) :
  dot cs (map (fun _ => x00) l) = x00.
Proof.
  revert l. induction cs as [| c cs IH]; intros [| y l]; try done.
  cbn [map]. by rewrite dot_cons, IH, galMultiply_0_r, bxor_0_l.
Qed.

Lemma dot_map_bxor {A} (cs : list byte) (f g : A -> byte) (l : list A) :
  dot cs (map (fun r => bxor (f r) (g r)) l)
  = bxor (dot cs (map f l)) (dot cs (map g l)).
Proof.
  revert l. induction cs as [| c cs IH]; intros [| y l];
    try (by rewrite ?dot_nil_r, ?bxor_0_l).
  cbn [map]. rewrite !dot_cons, IH, galMultiply_bxor. apply bxor_swap.
Qed.

(** The contribution of the [i]th unknown to a decoded byte. *)
Definition contribution (drow : list byte) (rows : matrix) (i : nat) (x : byte)
  : byte :=
  dot drow (map (fun row => galMultiply (nth i row x00) x) rows).

Lemma dot_head_tail (row : list byte) (x : byte) (xs : list byte) :
  dot row (x :: xs) = bxor (galMultiply (nth 0 row x00) x) (dot (tail row) xs).
Proof.
  destruct row as [| r row]; [| done].
  cbn [nth tail]. by rewrite galMultiply_0_l, bxor_0_l.
Qed.

Lemma contribution_tail (drow : list byte) (rows : matrix) (i : nat) (x : byte) :
  contribution drow (map tail rows) i x = contribution drow rows (S i) x.
Proof.
  unfold contribution. rewrite map_map. f_equal.
  apply List.map_ext. intros [| r row]; [by destruct i | done].
Qed.

(** A decoded byte is the sum of the contributions of the unknowns. *)
Lemma dot_matvec (drow : list byte) (rows : matrix) (xs : list byte) :
  dot drow (map (fun row => dot row xs) rows)
  = foldr bxor x00 (imap (contribution drow rows) xs).
Proof.
  revert rows. induction xs as [| x xs IH]; intros rows.
  - rewrite (List.map_ext _ (fun _ => x00)) by (intros; apply dot_nil_r).
    by rewrite dot_map_zero.
  - rewrite (List.map_ext _ _ (fun row => dot_head_tail row x xs)).
    rewrite dot_map_bxor, imap_cons. cbn [foldr]. f_equal.
    rewrite <- (map_map tail (fun row => dot row xs)), IH.
    f_equal. apply imap_ext. intros i y _. cbn. apply contribution_tail.
Qed.

(** [drow] recovers the [k]th of four unknowns from their images under
    [rows]: checked on every byte, for each unknown. *)
Definition decode_check (drow : list byte) (rows : matrix) (k : nat) : bool :=
  forallb (fun i =>
    forallb (fun x =>
      bool_decide (contribution drow rows i x = if Nat.eqb i k then x else x00))
      all_bytes)
    (seq 0 4).

Lemma decode_check_spec (drow : list byte) (rows : matrix) (k i : nat) (x : byte) :
  decode_check drow rows k = true -> (i < 4)%nat ->
  contribution drow rows i x = if Nat.eqb i k then x else x00.
Proof.
  intros H Hi. unfold decode_check in H. rewrite forallb_forall in H.
  specialize (H i). rewrite <- list_elem_of_In, elem_of_seq in H.
  specialize (H ltac:(lia)).
  exact (bool_decide_eq_true_1 _ (byte_forall _ H x)).
Qed.

Lemma decode_check_sound (drow : list byte) (rows : matrix) (k : nat)
    (xs : list byte) :
  decode_check drow rows k = true -> length xs = 4%nat ->
  dot drow (map (fun row => dot row xs) rows) = nth k xs x00.
Proof.
  intros H Hlen. rewrite dot_matvec.
  destruct xs as [| x0 [| x1 [| x2 [| x3 [| ? ?]]]]]; try done.
  cbn [imap foldr compose].
  rewrite !(decode_check_spec drow rows k) by (done || lia).
  destruct k as [| [| [| [| k]]]]; cbn [Nat.eqb nth];
    rewrite ?bxor_0_r, ?bxor_0_l; try done.
  by destruct k.
Qed.

(** *** The bytes of a coded shard *)

Lemma codeShard_fold_length (n : nat) (zs : list (byte * list byte))
    (acc : list byte) :
  Forall (fun ci => n <= length ci.2)%nat zs -> length acc = n ->
  length (foldl (fun out ci => sliceXor (galMulSlice ci.1 (take n ci.2)) out)
                acc zs) = n.
Proof.
  revert acc. induction zs as [| [c inp] zs IH]; intros acc Hall Hacc; [done |].
  apply Forall_cons in Hall as [Hc Hall]. cbn [foldl]. apply IH; [done |].
  unfold sliceXor, galMulSlice. cbn [fst snd] in *.
  rewrite length_zip_with, length_map, length_take. lia.
Qed.

Lemma codeShard_length (row : list byte) (inputs : list (list byte)) (n : nat) :
  Forall (fun x => length x = n) inputs ->
  length (codeShard row inputs n) = n.
Proof.
  intros Hall. unfold codeShard.
  apply codeShard_fold_length; [| apply length_replicate].
  apply Forall_forall. intros [c inp] Hin.
  apply elem_of_zip_r in Hin. cbn [snd].
  rewrite Forall_forall in Hall. by rewrite (Hall inp Hin).
Qed.

Lemma codeShard_fold_lookup (n p : nat) (row : list byte)
    (inputs : list (list byte)) (acc : list byte) (a : byte) :
  Forall (fun x => length x = n) inputs -> (p < n)%nat ->
  acc !! p = Some a ->
  foldl (fun out ci => sliceXor (galMulSlice ci.1 (take n ci.2)) out)
        acc (zip row inputs) !! p
  = Some (bxor a (dot row (column p inputs))).
Proof.
  intros Hall Hp. revert inputs acc a Hall.
  induction row as [| c row IH]; intros inputs acc a Hall Hacc.
  - cbn. by rewrite bxor_0_r.
  - destruct inputs as [| inp inputs].
    + rewrite zip_nil_r. unfold column. cbn [foldl map].
      by rewrite dot_nil_r, bxor_0_r.
    + apply Forall_cons in Hall as [Hinp Hall].
      change (zip (c :: row) (inp :: inputs)) with ((c, inp) :: zip row inputs).
      cbn [foldl fst snd].
      assert (is_Some (inp !! p)) as [x Hx]
        by (apply lookup_lt_is_Some; lia).
      rewrite (IH inputs _ (bxor a (galMultiply c x))); [| done |].
      * unfold column. cbn [map]. rewrite dot_cons.
        rewrite (nth_lookup_Some _ _ _ _ Hx). by rewrite bxor_assoc.
      * unfold sliceXor, galMulSlice. rewrite lookup_zip_with, Hacc.
        cbn. rewrite list_lookup_fmap, lookup_take_lt by done.
        by rewrite Hx.
Qed.

Lemma codeShard_lookup (row : list byte) (inputs : list (list byte)) (n p : nat) :
  Forall (fun x => length x = n) inputs -> (p < n)%nat ->
  codeShard row inputs n !! p = Some (dot row (column p inputs)).
Proof.
  intros Hall Hp. unfold codeShard.
  rewrite (codeShard_fold_lookup n p row inputs _ x00); [| done | done |].
  - by rewrite bxor_0_l.
  - by apply lookup_replicate_2.
Qed.

End linalg.

(** ** The Reed-Solomon(4,2) codec *)

Section codec.
Import reedsolomon.

(** The coding matrix of four data shards and two parity shards. *)
Definition M46 : matrix :=
  [ [x01; x00; x00; x00]; [x00; x01; x00; x00];
    [x00; x00; x01; x00]; [x00; x00; x00; x01];
    [x1b; x1c; x12; x14]; [x1c; x1b; x14; x12] ].

Definition enc46 : Encoder := mkEncoder 4 2 M46.

Lemma New_4_2 : New 4 2 = Ok enc46.
Proof. vm_compute. reflexivity. Qed.

(** The six shards of four data shards [d] of [n] bytes each. *)
Definition encoded (d : list (list byte)) (n : nat) : list (list byte) :=
  d ++ codeSomeShards (parity enc46) d n.

#[local] Opaque codeShard.

Lemma encoded_length (d : list (list byte)) (n : nat) :
  length d = 4%nat -> length (encoded d n) = 6%nat.
Proof.
  intros Hd. unfold encoded, codeSomeShards.
  by rewrite length_app, length_map, Hd.
Qed.

Lemma encoded_shard_length (d : list (list byte)) (n : nat) :
  Forall (fun x => length x = n) d ->
  Forall (fun x => length x = n) (encoded d n).
Proof.
  intros Hd. unfold encoded. apply Forall_app. split; [done |].
  unfold codeSomeShards. apply Forall_fmap, Forall_forall.
  intros row _. by apply codeShard_length.
Qed.

Lemma encoded_data (d : list (list byte)) (n i : nat) :
  length d = 4%nat -> (i < 4)%nat -> nth i (encoded d n) [] = nth i d [].
Proof.
  intros Hd Hi. unfold encoded. apply app_nth1. lia.
Qed.

(** Every byte of every shard is the combination of the data bytes at
    the same position with the shard's row of the coding matrix. *)
Lemma encoded_lookup (d : list (list byte)) (n i p : nat) :
  length d = 4%nat -> Forall (fun x => length x = n) d ->
  (i < 6)%nat -> (p < n)%nat ->
  nth p (nth i (encoded d n) []) x00 = dot (nth i M46 []) (column p d).
Proof.
  intros Hd Hall Hi Hp.
  destruct d as [| d0 [| d1 [| d2 [| d3 [| ? ?]]]]]; try done.
  destruct i as [| [| [| [| [| [| i]]]]]]; [.. | lia];
    unfold encoded, column; cbn [app nth map parity enc46 m dataShards drop
                                   codeSomeShards M46];
    rewrite ?dot_cons, ?dot_nil_r, ?galMultiply_1_l, ?galMultiply_0_l,
            ?bxor_0_l, ?bxor_0_r; try done.
  - erewrite nth_lookup_Some; [| by apply codeShard_lookup].
    unfold column. cbn [map]. by rewrite !dot_cons, dot_nil_r, bxor_0_r.
  - erewrite nth_lookup_Some; [| by apply codeShard_lookup].
    unfold column. cbn [map]. by rewrite !dot_cons, dot_nil_r, bxor_0_r.
Qed.

(** A shard is recovered from four others by a row that passes the
    decoding check for their rows of the coding matrix. *)
Lemma decode_shard (valid : list nat) (drow : list byte) (k : nat)
    (d : list (list byte)) (n : nat) :
  length d = 4%nat -> Forall (fun x => length x = n) d ->
  Forall (fun i => i < 6)%nat valid -> (k < 4)%nat ->
  decode_check drow (map (fun i => nth i M46 []) valid) k = true ->
  codeShard drow (map (fun i => nth i (encoded d n) []) valid) n = nth k d [].
Proof.
  intros Hd Hall Hvalid Hk Hcheck.
  pose proof (encoded_shard_length d n Hall) as Henc.
  pose proof (encoded_length d n Hd) as Henc6.
  assert (Forall (fun x => length x = n)
                 (map (fun i => nth i (encoded d n) []) valid)) as Hin.
  { apply Forall_fmap, Forall_forall. intros i Hi. cbn.
    rewrite Forall_forall in Hvalid. specialize (Hvalid i Hi).
    rewrite Forall_forall in Henc. apply Henc.
    apply list_elem_of_In, nth_In. lia. }
  destruct (lookup_lt_is_Some_2 d k ltac:(lia)) as [dk Hdk].
  rewrite (nth_lookup_Some _ _ _ _ Hdk).
  assert (length dk = n) as Hkn.
  { rewrite Forall_forall in Hall. apply Hall.
    by apply list_elem_of_lookup_2 in Hdk. }
  apply list_eq. intros p.
  destruct (decide (p < n)%nat) as [Hp | Hp].
  - rewrite codeShard_lookup by done.
    unfold column at 1. rewrite map_map.
    rewrite (List.map_ext_in _ (fun i => dot (nth i M46 []) (column p d))).
    2:{ intros i Hi. apply encoded_lookup; try done.
        rewrite Forall_forall in Hvalid.
        by apply Hvalid, list_elem_of_In. }
    rewrite <- (map_map (fun i => nth i M46 []) (fun row => dot row (column p d))).
    rewrite (decode_check_sound _ _ k);
      [| done | by unfold column; rewrite length_map].
    unfold column.
    rewrite (nth_lookup_Some (map _ d) k x00 (nth p dk x00))
      by (by rewrite list_lookup_fmap, Hdk).
    destruct (lookup_lt_is_Some_2 dk p ltac:(lia)) as [y Hy].
    rewrite Hy. f_equal. by apply nth_lookup_Some.
  - rewrite !lookup_ge_None_2; [done | lia |].
    rewrite codeShard_length by done. lia.
Qed.

(** *** Shard slots with some shards missing *)

Definition mask (pres : list bool) (E : list (list byte)) : list slot :=
  zip_with (fun (b : bool) e => if b then Some e else None) pres E.

Lemma mask_cons (b : bool) (pres : list bool) (e : list byte)
    (E : list (list byte)) :
  mask (b :: pres) (e :: E) = (if b then Some e else None) :: mask pres E.
Proof. reflexivity. Qed.

Lemma mask_nth (pres : list bool) (E : list (list byte)) (i : nat) :
  length pres = length E ->
  nth i (mask pres E) None = if nth i pres false then Some (nth i E []) else None.
Proof.
  revert E i. induction pres as [| b pres IH]; intros [| e E] i Hlen; try done.
  - by destruct i.
  - destruct i as [| i]; [done |]. cbn [mask zip_with nth].
    apply IH. by injection Hlen.
Qed.

Lemma mask_all (pres : list bool) (E : list (list byte)) :
  length pres = length E -> count_true pres = length pres ->
  mask pres E = map Some E.
Proof.
  unfold count_true.
  revert E. induction pres as [| b pres IH]; intros [| e E] Hlen Hc; try done.
  injection Hlen as Hlen. destruct b.
  - rewrite filter_cons_True in Hc by done. cbn in Hc.
    rewrite mask_cons. cbn [map]. f_equal. apply IH; [done | lia].
  - rewrite filter_cons_False in Hc by done.
    pose proof (length_filter (fun b => b = true) pres). cbn in Hc. lia.
Qed.

Section mask.
Variables (n : nat) (Hn : (0 < n)%nat).

Lemma mask_slot_len (pres : list bool) (E : list (list byte)) (i : nat) :
  length pres = length E -> Forall (fun e => length e = n) E ->
  slot_len (nth i (mask pres E) None) = if nth i pres false then n else 0%nat.
Proof.
  intros Hlen Hall. rewrite mask_nth by done.
  destruct (nth i pres false) eqn:Hb; [| done].
  unfold slot_len. cbn. rewrite Forall_forall in Hall. apply Hall.
  apply list_elem_of_In, nth_In. rewrite <- Hlen.
  destruct (decide (i < length pres)%nat); [done |].
  rewrite nth_overflow in Hb by lia. done.
Qed.

Lemma mask_shardSize (pres : list bool) (E : list (list byte)) :
  length pres = length E -> Forall (fun e => length e = n) E ->
  count_true pres <> 0%nat -> shardSize (mask pres E) = n.
Proof.
  revert E. induction pres as [| b pres IH]; intros [| e E] Hlen Hall Hc;
    try done.
  apply Forall_cons in Hall as [He Hall]. injection Hlen as Hlen.
  cbn [mask zip_with shardSize]. destruct b.
  - unfold slot_len. cbn. rewrite He.
    by rewrite (proj2 (Nat.eqb_neq n 0)) by lia.
  - cbn. by apply IH.
Qed.

Lemma mask_sizes (pres : list bool) (E : list (list byte)) :
  length pres = length E -> Forall (fun e => length e = n) E ->
  forallb (fun s => Nat.eqb (slot_len s) n || (Nat.eqb (slot_len s) 0 && true))
          (mask pres E) = true.
Proof.
  revert E. induction pres as [| b pres IH]; intros [| e E] Hlen Hall; try done.
  apply Forall_cons in Hall as [He Hall]. injection Hlen as Hlen.
  rewrite mask_cons. cbn [forallb]. rewrite (IH E) by done.
  destruct b; unfold slot_len; cbn;
    [by rewrite He, Nat.eqb_refl | by destruct n].
Qed.

Lemma mask_present (pres : list bool) (E : list (list byte)) :
  length pres = length E -> Forall (fun e => length e = n) E ->
  length (filter (fun s => negb (Nat.eqb (slot_len s) 0)) (mask pres E))
  = count_true pres.
Proof.
  unfold count_true.
  revert E. induction pres as [| b pres IH]; intros [| e E] Hlen Hall; try done.
  apply Forall_cons in Hall as [He Hall]. injection Hlen as Hlen.
  rewrite mask_cons. destruct b.
  - rewrite !filter_cons_True; [cbn; f_equal; by apply IH | done |].
    unfold slot_len. cbn. rewrite He.
    by rewrite (proj2 (Nat.eqb_neq n 0)) by lia.
  - rewrite !filter_cons_False; [by apply IH | done |].
    unfold slot_len. cbn. tauto.
Qed.

End mask.

(** The indices of the first four shards present. *)
Definition valid_of (pres : list bool) : list nat :=
  take 4 (filter (fun i => nth i pres false = true) (seq 0 6)).

(** For a pattern of missing shards: the rows of the shards used can be
    inverted, and the inverse recovers every missing data shard. *)
Definition pattern_ok (pres : list bool) : bool :=
  let rows := map (fun i => nth i M46 []) (valid_of pres) in
  match Invert rows with
  | Err _ => false
  | Ok D =>
      forallb (fun k => nth k pres false || decode_check (nth k D []) rows k)
              (seq 0 4)
  end.

Lemma patterns_ok (pres : list bool) :
  length pres = 6%nat -> (4 <= count_true pres)%nat -> pattern_ok pres = true.
Proof.
  intros Hlen Hc.
  destruct pres as [| b0 [| b1 [| b2 [| b3 [| b4 [| b5 [| ? ?]]]]]]]; try done.
  destruct b0, b1, b2, b3, b4, b5;
    first [ by vm_compute in Hc; lia | vm_compute; reflexivity ].
Qed.

Lemma valid_of_spec (pres : list bool) (i : nat) :
  i ∈ valid_of pres -> (i < 6)%nat /\ nth i pres false = true.
Proof.
  unfold valid_of. intros Hi. apply elem_of_take in Hi as (j & Hi & _).
  apply list_elem_of_lookup_2, list_elem_of_filter in Hi as [Hb Hi].
  apply elem_of_seq in Hi. split; [lia | done].
Qed.

Lemma slot_if_present (n : nat) (b : bool) (e : list byte) (x : slot) :
  (0 < n)%nat -> length e = n ->
  (if Nat.eqb (slot_len (if b then Some e else None)) 0
   then x else if b then Some e else None)
  = if b then Some e else x.
Proof.
  intros Hn He. destruct b; unfold slot_len; cbn; [| done].
  rewrite He. by rewrite (proj2 (Nat.eqb_neq n 0)) by lia.
Qed.

Lemma bytes_if_present (n : nat) (b : bool) (e x : list byte) :
  (0 < n)%nat -> length e = n ->
  (if Nat.eqb (slot_len (if b then Some e else None)) 0
   then x else slot_bytes (if b then Some e else None))
  = if b then e else x.
Proof.
  intros Hn He. destruct b; unfold slot_len; cbn; [| done].
  rewrite He. by rewrite (proj2 (Nat.eqb_neq n 0)) by lia.
Qed.

(** [Reconstruct] restores the six shards from any four of them. *)
Lemma Reconstruct_mask (pres : list bool) (d : list (list byte)) (n : nat) :
  length d = 4%nat -> Forall (fun x => length x = n) d -> (0 < n)%nat ->
  length pres = 6%nat -> (4 <= count_true pres)%nat ->
  Reconstruct enc46 (mask pres (encoded d n)) = Ok (map Some (encoded d n)).
Proof.
  intros Hd Hall Hn Hpres Hcount.
  pose proof (encoded_length d n Hd) as HE6.
  pose proof (encoded_shard_length d n Hall) as HEn.
  assert (length pres = length (encoded d n)) as Hlen by lia.
  unfold Reconstruct.
  assert (length (mask pres (encoded d n)) = 6%nat) as Hml.
  { unfold mask. rewrite length_zip_with. lia. }
  rewrite Hml. change (totalShards enc46) with 6%nat.
  change (dataShards enc46) with 4%nat. cbn [Nat.eqb negb].
  unfold checkShards.
  rewrite (mask_shardSize n Hn) by (done || lia).
  rewrite (proj2 (Nat.eqb_neq n 0)) by lia.
  rewrite (mask_sizes n) by done. cbn [bind].
  rewrite (mask_present n Hn) by done.
  destruct (decide (count_true pres = 6)%nat) as [Hall6 | Hsome].
  { rewrite Hall6. cbn [Nat.eqb]. f_equal. apply mask_all; [done | lia]. }
  rewrite (proj2 (Nat.eqb_neq _ _) Hsome).
  rewrite (proj2 (Nat.ltb_ge _ _) Hcount).
  (* the shards used *)
  assert (validIndices 4 (mask pres (encoded d n)) = valid_of pres) as ->.
  { unfold validIndices, valid_of. rewrite Hml. f_equal.
    apply list_filter_iff. intros i.
    rewrite (mask_slot_len n Hn) by done.
    destruct (nth i pres false); cbn; [| by split].
    rewrite (proj2 (Nat.eqb_neq n 0)) by lia. by split. }
  assert (map (fun i => slot_bytes (nth i (mask pres (encoded d n)) None))
              (valid_of pres)
          = map (fun i => nth i (encoded d n) []) (valid_of pres)) as ->.
  { apply List.map_ext_in. intros i Hi.
    apply list_elem_of_In, valid_of_spec in Hi as [_ Hi].
    by rewrite mask_nth, Hi. }
  (* the decoding matrix *)
  pose proof (patterns_ok pres Hpres Hcount) as Hok.
  unfold pattern_ok in Hok. cbv zeta in Hok.
  change (m enc46) with M46.
  destruct (Invert (map (fun i => nth i M46 []) (valid_of pres)))
    as [D | ?]; [| done].
  cbn [bind]. rewrite forallb_forall in Hok.
  assert (forall k, (k < 4)%nat -> nth k pres false = false ->
            codeShard (nth k D []) (map (fun i => nth i (encoded d n) [])
                                        (valid_of pres)) n
            = nth k d []) as Hdec.
  { intros k Hk Hb. apply decode_shard; try done.
    - apply Forall_forall. intros i Hi. by apply valid_of_spec in Hi as [? _].
    - specialize (Hok k). rewrite <- list_elem_of_In, elem_of_seq in Hok.
      specialize (Hok ltac:(lia)). by rewrite Hb in Hok. }
  (* slot by slot *)
  destruct pres as [| b0 [| b1 [| b2 [| b3 [| b4 [| b5 [| ? ?]]]]]]]; try done.
  destruct d as [| d0 [| d1 [| d2 [| d3 [| ? ?]]]]]; try done.
  apply Forall_cons in Hall as [H0 Hall]. apply Forall_cons in Hall as [H1 Hall].
  apply Forall_cons in Hall as [H2 Hall]. apply Forall_cons in Hall as [H3 _].
  pose proof (Hdec 0%nat ltac:(lia)) as Hdec0.
  pose proof (Hdec 1%nat ltac:(lia)) as Hdec1.
  pose proof (Hdec 2%nat ltac:(lia)) as Hdec2.
  pose proof (Hdec 3%nat ltac:(lia)) as Hdec3.
  cbn [nth] in Hdec0, Hdec1, Hdec2, Hdec3.
  clear Hdec Hok.
  set (sub := map (fun i => nth i (encoded _ n) []) (valid_of _)) in *.
  clearbody sub.
  unfold encoded, codeSomeShards.
  cbn [parity enc46 m dataShards M46 drop map app mask zip_with take imap
       compose].
  rewrite !(bytes_if_present n) by done.
  assert ([if b0 then d0 else codeShard (nth 0 D []) sub n;
           if b1 then d1 else codeShard (nth 1 D []) sub n;
           if b2 then d2 else codeShard (nth 2 D []) sub n;
           if b3 then d3 else codeShard (nth 3 D []) sub n]
          = [d0; d1; d2; d3]) as ->.
  { destruct b0, b1, b2, b3;
      rewrite ?Hdec0, ?Hdec1, ?Hdec2, ?Hdec3 by done; done. }
  cbn [nth].
  rewrite !(slot_if_present n) by (done || by apply codeShard_length; repeat constructor).
  by destruct b0, b1, b2, b3, b4, b5.
Qed.

(** *** Split, Encode, Verify and Join *)

Lemma concat_pieces (l : list byte) (n k : nat) :
  concat (map (fun i => take n (drop (i * n) l)) (seq 0 k)) = take (k * n) l.
Proof.
  induction k as [| k IH]; [done |].
  rewrite seq_S, map_app, concat_app, IH. cbn [map concat Nat.add].
  rewrite app_nil_r, take_take_drop. f_equal. lia.
Qed.

Lemma checkShards_full (E : list (list byte)) (n : nat) (nilok : bool) :
  E <> [] -> Forall (fun e => length e = n) E -> (0 < n)%nat ->
  shardSize (map Some E) = n /\ checkShards (map Some E) nilok = Ok tt.
Proof.
  intros HE Hall Hn.
  assert (shardSize (map Some E) = n) as Hsize.
  { destruct E as [| e E]; [done |]. apply Forall_cons in Hall as [He _].
    cbn [map shardSize]. unfold slot_len. cbn. rewrite He.
    by rewrite (proj2 (Nat.eqb_neq n 0)) by lia. }
  split; [done |]. unfold checkShards. rewrite Hsize.
  rewrite (proj2 (Nat.eqb_neq n 0)) by lia.
  assert (forallb (fun s => Nat.eqb (slot_len s) n
                            || (Nat.eqb (slot_len s) 0 && nilok))
                  (map Some E) = true) as ->; [| done].
  clear HE Hsize. induction Hall as [| e E He _ IH]; [done |].
  cbn [map forallb]. rewrite IH. unfold slot_len. cbn.
  by rewrite He, Nat.eqb_refl.
Qed.

(** The four data shards of a buffer: equal pieces of the buffer padded
    with zeros. *)
Definition pieces (data : list byte) : list (list byte) :=
  let n := ((length data + 4 - 1) / 4)%nat in
  let padded := data ++ replicate (6 * n - length data) x00 in
  map (fun i => take n (drop (i * n) padded)) (seq 0 4).

Definition perShard (data : list byte) : nat := ((length data + 4 - 1) / 4)%nat.

Lemma perShard_bounds (data : list byte) :
  data <> [] -> (0 < perShard data)%nat /\ (length data <= 4 * perShard data)%nat.
Proof.
  intros Hd. unfold perShard.
  assert (0 < length data)%nat by (destruct data; [done | cbn; lia]).
  pose proof (Nat.div_mod_eq (length data + 4 - 1) 4).
  pose proof (Nat.mod_upper_bound (length data + 4 - 1) 4). lia.
Qed.

Lemma pieces_length (data : list byte) : length (pieces data) = 4%nat.
Proof. reflexivity. Qed.

Lemma pieces_shard_length (data : list byte) :
  data <> [] -> Forall (fun x => length x = perShard data) (pieces data).
Proof.
  intros Hd. destruct (perShard_bounds data Hd) as [Hn Hle].
  unfold pieces. fold (perShard data). cbv zeta.
  apply Forall_fmap, Forall_forall. intros i Hi. apply elem_of_seq in Hi. cbn.
  rewrite length_take, length_drop, length_app, length_replicate. nia.
Qed.

Lemma pieces_concat (data : list byte) :
  data <> [] -> take (length data) (concat (pieces data)) = data.
Proof.
  intros Hd. destruct (perShard_bounds data Hd) as [Hn Hle].
  unfold pieces. fold (perShard data). cbv zeta.
  rewrite concat_pieces, take_take.
  rewrite Nat.min_l by lia. by rewrite take_app_length.
Qed.

Lemma Split_Encode (data : list byte) :
  data <> [] ->
  (shards <-! Split enc46 data; Encode enc46 shards)
  = Ok (map Some (encoded (pieces data) (perShard data))).
Proof.
  intros Hd. destruct (perShard_bounds data Hd) as [Hn Hle].
  pose proof (pieces_shard_length data Hd) as Hall.
  unfold Split.
  assert (Nat.eqb (length data) 0 = false) as ->.
  { apply Nat.eqb_neq. by destruct data. }
  change (dataShards enc46) with 4%nat. change (totalShards enc46) with 6%nat.
  fold (perShard data). cbn [bind].
  set (padded := data ++ replicate (6 * perShard data - length data) x00).
  set (piece := fun i => take (perShard data) (drop (i * perShard data) padded)).
  assert (pieces data = map piece (seq 0 4)) as Hp by done.
  match goal with
  | |- Encode _ ?l = _ =>
      replace l with (map Some (pieces data ++ [piece 4%nat; piece 5%nat]))
        by (by rewrite Hp)
  end.
  assert (Forall (fun e => length e = perShard data)
                 (pieces data ++ [piece 4%nat; piece 5%nat])) as Hall6.
  { apply Forall_app. split; [done |].
    repeat constructor; unfold piece, padded;
      rewrite length_take, length_drop, length_app, length_replicate; lia. }
  unfold Encode.
  rewrite length_map, length_app, pieces_length. cbn [length Nat.add].
  change (totalShards enc46) with 6%nat. change (dataShards enc46) with 4%nat.
  cbn [Nat.eqb negb].
  destruct (checkShards_full (pieces data ++ [piece 4%nat; piece 5%nat])
              (perShard data) false) as [-> ->]; [by rewrite Hp | done | done |].
  cbn [bind]. reflexivity.
Qed.

Lemma Verify_encoded (d : list (list byte)) (n : nat) :
  length d = 4%nat -> Forall (fun x => length x = n) d -> (0 < n)%nat ->
  Verify enc46 (map Some (encoded d n)) = Ok true.
Proof.
  intros Hd Hall Hn. unfold Verify.
  rewrite length_map, encoded_length by done.
  change (totalShards enc46) with 6%nat. change (dataShards enc46) with 4%nat.
  cbn [Nat.eqb negb].
  destruct (checkShards_full (encoded d n) n false) as [-> ->];
    [| by apply encoded_shard_length | done |].
  { intros E. apply (f_equal length) in E. by rewrite encoded_length in E. }
  cbn [bind]. f_equal. apply bool_decide_eq_true_2.
  destruct d as [| d0 [| d1 [| d2 [| d3 [| ? ?]]]]]; done.
Qed.

Lemma join_size_some (l : list (list byte)) (size outSize : Z) :
  exists s, join_size (map Some l) size outSize = Ok s
            /\ (outSize <= s \/ s = size + len (concat l)).
Proof.
  revert size. induction l as [| e l IH]; intros size.
  - exists size. split; [done |]. right. unfold len. cbn. lia.
  - cbn [map join_size].
    destruct (outSize <=? size + len e) eqn:E.
    + exists (size + len e). split; [done |]. left. lia.
    + destruct (IH (size + len e)) as (s & -> & Hs).
      exists s. split; [done |].
      destruct Hs as [? | ->]; [by left | right].
      cbn [concat]. rewrite len_app. lia.
Qed.

Lemma Join_encoded (d : list (list byte)) (n : nat) (outSize : Z) :
  length d = 4%nat -> outSize <= len (concat d) ->
  Join enc46 (map Some (encoded d n)) outSize
  = Ok (take (Z.to_nat outSize) (concat d)).
Proof.
  intros Hd Hsize. unfold Join.
  rewrite length_map, encoded_length by done.
  change (dataShards enc46) with 4%nat. cbn [Nat.ltb Nat.leb]. unfold slot.
  assert (take 4 (map Some (encoded d n)) = map Some d) as ->.
  { destruct d as [| d0 [| d1 [| d2 [| d3 [| ? ?]]]]]; done. }
  destruct (join_size_some d 0 outSize) as (s & -> & Hs). cbn [bind].
  rewrite (proj2 (Z.ltb_ge s outSize)) by lia.
  by rewrite map_map, map_id.
Qed.

End codec.

(** ** ShardChunk and ReconstructChunk *)

Section shards.
Import reedsolomon chunker.

#[local] Opaque codeShard sha256.Sum256 hex.EncodeToString.

(** Shard number [i] of the chunk with index [chunkIndex], given the
    six coded buffers. *)
Definition shard_at (chunkIndex : Z) (E : list (list byte)) (i : nat) : Shard :=
  let e := nth i E [] in
  mkShard chunkIndex (Z.of_nat i) (Some e)
          (hex.EncodeToString (sha256.Sum256 e)) (len e).

(** What [ShardChunk] returns, when it returns shards. *)
Lemma ShardChunk_Ok (chunk : Chunk) (encryptedData : list byte)
    (shards : list Shard) :
  ShardChunk chunk encryptedData = Ok shards ->
  encryptedData <> []
  /\ len encryptedData = Chunk_Size chunk
  /\ shards = map (shard_at (Chunk_Index chunk)
                            (encoded (pieces encryptedData) (perShard encryptedData)))
                  (seq 0 6).
Proof.
  unfold ShardChunk. intros H.
  destruct (len encryptedData =? Chunk_Size chunk) eqn:Hsize; [| done].
  cbn [negb] in H. apply Z.eqb_eq in Hsize.
  change (New DataShards ParityShards) with (New 4 2) in H.
  rewrite New_4_2 in H.
  destruct (decide (encryptedData = [])) as [-> | Hne]; [done |].
  pose proof (Split_Encode encryptedData Hne) as HSE.
  destruct (Split enc46 encryptedData) as [s |]; [| done].
  cbn [bind] in HSE. rewrite HSE in H.
  injection H as <-. done.
Qed.

Lemma shard_at_fields (chunkIndex : Z) (E : list (list byte)) (i : nat) :
  Shard_ChunkIndex (shard_at chunkIndex E i) = chunkIndex
  /\ Shard_ShardIndex (shard_at chunkIndex E i) = Z.of_nat i
  /\ Shard_Data (shard_at chunkIndex E i) = Some (nth i E [])
  /\ VerifyShard (slot_bytes (Shard_Data (shard_at chunkIndex E i)))
                 (Shard_Hash (shard_at chunkIndex E i)) = true.
Proof.
  unfold shard_at, VerifyShard. cbn. by rewrite bool_decide_eq_true_2.
Qed.

Lemma elem_of_shards (chunkIndex : Z) (E : list (list byte)) (s : Shard) :
  s ∈ map (shard_at chunkIndex E) (seq 0 6) <->
  exists i, (i < 6)%nat /\ s = shard_at chunkIndex E i.
Proof.
  rewrite list_elem_of_fmap. split.
  - intros (i & -> & Hi). apply elem_of_seq in Hi. exists i. split; [lia | done].
  - intros (i & Hi & ->). exists i. split; [done |]. apply elem_of_seq. lia.
Qed.

Lemma check_shards_Ok (expectedChunk : Z) (shards : list Shard) :
  Forall (fun s => Shard_ChunkIndex s = expectedChunk
                   /\ VerifyShard (slot_bytes (Shard_Data s)) (Shard_Hash s) = true)
         shards ->
  check_shards expectedChunk shards = Ok tt.
Proof.
  induction 1 as [| s rest [Hc Hv] _ IH]; [done |].
  cbn [check_shards]. by rewrite Hc, Z.eqb_refl, Hv.
Qed.

(** The second loop fills the slots of shards with distinct, valid
    indices and leaves the other slots as they were. *)
Lemma fill_shards_spec (sub : list Shard) (acc : list slot) :
  length acc = 6%nat ->
  NoDup (Shard_ShardIndex <$> sub) ->
  (forall s, s ∈ sub -> 0 <= Shard_ShardIndex s < 6
                        /\ acc !! Z.to_nat (Shard_ShardIndex s) = Some None) ->
  exists sd, fill_shards sub acc = Ok sd /\ length sd = 6%nat
    /\ (forall s, s ∈ sub ->
          sd !! Z.to_nat (Shard_ShardIndex s) = Some (Shard_Data s))
    /\ (forall i, (forall s, s ∈ sub -> Z.to_nat (Shard_ShardIndex s) <> i) ->
          sd !! i = acc !! i).
Proof.
  revert acc. induction sub as [| s rest IH]; intros acc Hlen Hnd Hsub.
  - exists acc. split; [done |]. split; [done |]. split; [| done].
    intros s Hs. by apply elem_of_nil in Hs.
  - rewrite fmap_cons in Hnd. apply NoDup_cons in Hnd as [Hs Hnd].
    destruct (Hsub s ltac:(left)) as [Hrange Hslot].
    cbn [fill_shards]. change TotalShards with 6.
    rewrite (proj2 (orb_false_iff _ _)) by (split; lia).
    rewrite (nth_lookup_Some _ _ _ _ Hslot).
    destruct (IH (<[Z.to_nat (Shard_ShardIndex s) := Shard_Data s]> acc))
      as (sd & Hfill & Hsd & Hin & Hout).
    + by rewrite length_insert.
    + done.
    + intros r Hr. destruct (Hsub r ltac:(by right)) as [Hr1 Hr2].
      split; [done |]. rewrite list_lookup_insert_ne; [done |].
      intros E. apply Hs. apply list_elem_of_fmap. exists r. split; [lia | done].
    + exists sd. split; [done |]. split; [done |]. split.
      * intros r Hr. apply elem_of_cons in Hr as [-> | Hr]; [| by apply Hin].
        rewrite Hout.
        -- apply list_lookup_insert_eq. lia.
        -- intros r Hr E. apply Hs. apply list_elem_of_fmap.
           exists r. split; [| done].
           destruct (Hsub r ltac:(by right)) as [? _]. lia.
      * intros i Hi. rewrite Hout.
        -- apply list_lookup_insert_ne. apply Hi. by left.
        -- intros r Hr. apply Hi. by right.
Qed.

(** Which of the six shards a selection holds. *)
Definition present (sub : list Shard) : list bool :=
  map (fun i => bool_decide (Z.of_nat i ∈ Shard_ShardIndex <$> sub)) (seq 0 6).

Lemma present_nth (sub : list Shard) (i : nat) :
  (i < 6)%nat ->
  nth i (present sub) false = bool_decide (Z.of_nat i ∈ Shard_ShardIndex <$> sub).
Proof.
  intros Hi. unfold present.
  by destruct i as [| [| [| [| [| [| i]]]]]]; [.. | lia].
Qed.

Lemma count_true_map {A} (P : A -> Prop) `{!forall x, Decision (P x)} (l : list A) :
  count_true (map (fun x => bool_decide (P x)) l) = length (filter P l).
Proof.
  unfold count_true. induction l as [| x l IH]; [done |]. cbn [map].
  destruct (decide (P x)) as [Hx | Hx].
  - rewrite !filter_cons_True; [cbn; by f_equal | done |].
    by apply bool_decide_eq_true_2.
  - rewrite !filter_cons_False; [done | done |].
    by rewrite bool_decide_eq_false_2.
Qed.

Section selection.
Variables (chunkIndex : Z) (E : list (list byte)) (sub : list Shard).
Hypothesis sub_nodup : NoDup sub.
Hypothesis sub_shards : forall s, s ∈ sub -> s ∈ map (shard_at chunkIndex E) (seq 0 6).

Lemma selection_indices : NoDup (Shard_ShardIndex <$> sub).
Proof using sub_nodup sub_shards.
  apply NoDup_fmap_2_strong; [| done].
  intros x y Hx Hy Hxy.
  apply sub_shards, elem_of_shards in Hx as (i & _ & ->).
  apply sub_shards, elem_of_shards in Hy as (j & _ & ->).
  cbn in Hxy. apply Nat2Z.inj in Hxy. by subst.
Qed.

Lemma selection_count : (length sub <= count_true (present sub))%nat.
Proof using sub_nodup sub_shards.
  unfold present. rewrite count_true_map.
  rewrite <- (length_fmap Shard_ShardIndex sub).
  rewrite <- (length_fmap Z.of_nat (filter _ _)).
  apply submseteq_length, NoDup_submseteq; [apply selection_indices |].
  intros x Hx. pose proof Hx as Hx'.
  apply list_elem_of_fmap in Hx as (s & -> & Hs).
  apply sub_shards, elem_of_shards in Hs as (i & Hi & ->).
  apply list_elem_of_fmap. exists i. split; [done |].
  apply list_elem_of_filter. split; [done |]. apply elem_of_seq. lia.
Qed.

Lemma selection_fill :
  length E = 6%nat ->
  fill_shards sub (replicate 6 None) = Ok (mask (present sub) E).
Proof using sub_nodup sub_shards.
  intros HE.
  destruct (fill_shards_spec sub (replicate 6 None))
    as (sd & -> & Hsd & Hin & Hout).
  - done.
  - apply selection_indices.
  - intros s Hs. apply sub_shards, elem_of_shards in Hs as (i & Hi & ->).
    destruct (shard_at_fields chunkIndex E i) as (_ & -> & _).
    split; [lia |]. rewrite Nat2Z.id. apply lookup_replicate_2. lia.
  - f_equal. apply (nth_ext _ _ None None).
    { unfold mask, present. rewrite length_zip_with, length_map, length_seq.
      unfold slot in *. lia. }
    intros i Hi'. assert (i < 6)%nat as Hi by (unfold slot in *; lia).
    clear Hi'. rewrite mask_nth by (by unfold present; rewrite length_map, length_seq).
    rewrite present_nth by done.
    destruct (decide (Z.of_nat i ∈ Shard_ShardIndex <$> sub)) as [Hp | Hp].
    + rewrite bool_decide_eq_true_2 by done.
      apply list_elem_of_fmap in Hp as (s & Hi' & Hs).
      pose proof (Hin s Hs) as Hlk. rewrite <- Hi', Nat2Z.id in Hlk.
      rewrite (nth_lookup_Some _ _ _ _ Hlk).
      apply sub_shards, elem_of_shards in Hs as (j & Hj & ->).
      destruct (shard_at_fields chunkIndex E j) as (_ & Hidx & -> & _).
      rewrite Hidx in Hi'. apply Nat2Z.inj in Hi'. by subst.
    + rewrite bool_decide_eq_false_2 by done.
      apply nth_lookup_Some. rewrite Hout.
      * apply lookup_replicate_2. lia.
      * intros s Hs E'. apply Hp. apply list_elem_of_fmap. exists s.
        split; [| done].
        apply sub_shards, elem_of_shards in Hs as (j & Hj & ->).
        destruct (shard_at_fields chunkIndex E j) as (_ & Hidx & _).
        rewrite Hidx in *. lia.
Qed.

End selection.

(** C1.  Whenever [ShardChunk] returns shards for a chunk and its
    ciphertext, it returns six of them, and [ReconstructChunk] applied to
    any selection of at least four distinct shards among them, in any
    order, with the length of the ciphertext, returns the ciphertext. *)
Theorem ReconstructChunk_any_four (chunk : Chunk) (ciphertext : list byte)
    (shards subset : list Shard) :
  ShardChunk chunk ciphertext = Ok shards ->
  NoDup subset ->
  (forall s, s ∈ subset -> s ∈ shards) ->
  4 <= len subset ->
  len shards = 6
  /\ ReconstructChunk subset (len ciphertext) = Ok ciphertext.
Proof.
  intros Hshard Hnd Hsub Hfour.
  apply ShardChunk_Ok in Hshard as (Hne & _ & ->).
  split; [done |].
  set (d := pieces ciphertext) in *. set (n := perShard ciphertext) in *.
  destruct (perShard_bounds ciphertext Hne) as [Hn Hle]. fold n in Hn, Hle.
  pose proof (pieces_shard_length ciphertext Hne) as Hall. fold d n in Hall.
  pose proof (pieces_length ciphertext) as Hd. fold d in Hd.
  assert (0 < len ciphertext) as Hpos.
  { unfold len. destruct ciphertext; [done | cbn; lia]. }
  unfold ReconstructChunk. change DataShards with 4.
  rewrite (proj2 (Z.ltb_ge _ _)) by lia.
  rewrite (proj2 (Z.leb_gt _ _)) by lia.
  assert (match subset with
          | s :: _ => Shard_ChunkIndex s
          | [] => 0
          end = Chunk_Index chunk) as ->.
  { destruct subset as [| s ?]; [unfold len in Hfour; cbn in Hfour; lia |].
    specialize (Hsub s ltac:(left)).
    by apply elem_of_shards in Hsub as (i & _ & ->). }
  rewrite check_shards_Ok.
  2:{ apply Forall_forall. intros s Hs.
      apply Hsub, elem_of_shards in Hs as (i & _ & ->).
      by destruct (shard_at_fields (Chunk_Index chunk) (encoded d n) i)
        as (? & _ & _ & ?). }
  cbn [bind].
  change (New 4 ParityShards) with (New 4 2). rewrite New_4_2.
  change (Z.to_nat TotalShards) with 6%nat.
  rewrite (selection_fill (Chunk_Index chunk) (encoded d n) subset Hnd Hsub)
    by (by apply encoded_length).
  cbn [bind].
  rewrite Reconstruct_mask; try done.
  2:{ pose proof (selection_count (Chunk_Index chunk) (encoded d n) subset
                    Hnd Hsub).
      unfold len in Hfour. lia. }
  rewrite Verify_encoded by done.
  assert (len (concat d) = 4 * Z.of_nat n) as Hcat.
  { unfold d, pieces. cbv zeta. rewrite concat_pieces.
    unfold len. rewrite length_take, length_app, length_replicate.
    unfold n, perShard in *. lia. }
  rewrite Join_encoded by (done || unfold len in *; lia).
  f_equal. unfold len. rewrite Nat2Z.id. by apply pieces_concat.
Qed.


(** The shards at the given positions, in the given order. *)
Definition pick (positions : list nat) (shards : list Shard) : list Shard :=
  omap (fun i => shards !! i) positions.

(** A five-byte ciphertext rebuilt from shards 5, 2, 4 and 3. *)
Lemma ReconstructChunk_any_four_witness :
  let ciphertext := [x68; x65; x6c; x6c; x6f] in
  let chunk := mkChunk 3 ciphertext EmptyString 5 in
  exists shards,
    ShardChunk chunk ciphertext = Ok shards
    /\ len shards = 6
    /\ ReconstructChunk (pick [5; 2; 4; 3]%nat shards) (len ciphertext)
       = Ok ciphertext.
Proof.
  intros ciphertext chunk.
  destruct (ShardChunk chunk ciphertext) as [shards |] eqn:E;
    [| vm_compute in E; discriminate].
  exists shards. split; [done |].
  apply (ReconstructChunk_any_four chunk ciphertext shards); [done | | |].
  - apply (NoDup_fmap_1 Shard_ShardIndex).
    vm_compute in E. injection E as <-. vm_compute.
    repeat constructor; rewrite ?elem_of_cons, ?elem_of_nil; intuition lia.
  - vm_compute in E. injection E as <-. intros s Hs.
    unfold pick in Hs. cbn [omap list_omap lookup list_lookup] in Hs.
    rewrite !elem_of_cons, elem_of_nil in Hs. rewrite !elem_of_cons.
    intuition subst; auto.
  - vm_compute in E. injection E as <-. vm_compute. discriminate.
Defined.


(** *** Tampering *)

Lemma check_shards_app (expectedChunk : Z) (pre rest : list Shard) :
  Forall (fun s => Shard_ChunkIndex s = expectedChunk
                   /\ VerifyShard (slot_bytes (Shard_Data s)) (Shard_Hash s) = true)
         pre ->
  check_shards expectedChunk (pre ++ rest) = check_shards expectedChunk rest.
Proof.
  induction 1 as [| s pre [Hc Hv] _ IH]; [done |].
  cbn [app check_shards]. by rewrite Hc, Z.eqb_refl, Hv.
Qed.

(** Flip bit [bit] of the byte at position [pos]. *)
Definition flip_bit (data : list byte) (pos : nat) (bit : N) : list byte :=
  alter (fun b => bxor b (byte_of_N (2 ^ bit))) pos data.

(** The shard with its data replaced and its declared hash kept. *)
Definition tamper (s : Shard) (data : list byte) : Shard :=
  mkShard (Shard_ChunkIndex s) (Shard_ShardIndex s) (Some data)
          (Shard_Hash s) (Shard_Size s).

Lemma ReconstructChunk_rejects_altered (chunk : Chunk) (ciphertext : list byte)
    (shards pre post : list Shard) (s : Shard) (altered : list byte)
    (dataSize : Z) :
  ShardChunk chunk ciphertext = Ok shards ->
  s ∈ shards ->
  (forall x, x ∈ pre ++ post -> x ∈ shards) ->
  4 <= len (pre ++ tamper s altered :: post) ->
  0 < dataSize ->
  sha256.Sum256 altered <> sha256.Sum256 (slot_bytes (Shard_Data s)) ->
  ReconstructChunk (pre ++ tamper s altered :: post) dataSize
  = Err (FailedHashVerification (Shard_ShardIndex s)).
Proof.
  intros Hshard Hs Hrest Hfour Hsize Hsha.
  apply ShardChunk_Ok in Hshard as (_ & _ & ->).
  set (E := encoded _ _) in *.
  assert (forall x, x ∈ map (shard_at (Chunk_Index chunk) E) (seq 0 6) ->
            Shard_ChunkIndex x = Chunk_Index chunk
            /\ VerifyShard (slot_bytes (Shard_Data x)) (Shard_Hash x) = true)
    as Hgood.
  { intros x Hx. apply elem_of_shards in Hx as (i & _ & ->).
    by destruct (shard_at_fields (Chunk_Index chunk) E i) as (? & _ & _ & ?). }
  assert (Forall (fun x => Shard_ChunkIndex x = Chunk_Index chunk
                   /\ VerifyShard (slot_bytes (Shard_Data x)) (Shard_Hash x) = true)
                 pre) as Hpre.
  { apply Forall_forall. intros x Hx. apply Hgood, Hrest, elem_of_app. by left. }
  unfold ReconstructChunk. change DataShards with 4.
  rewrite (proj2 (Z.ltb_ge _ _)) by lia.
  rewrite (proj2 (Z.leb_gt _ _)) by lia.
  assert (match pre ++ tamper s altered :: post with
          | x :: _ => Shard_ChunkIndex x
          | [] => 0
          end = Chunk_Index chunk) as ->.
  { destruct pre as [| x pre].
    - cbn. by apply Hgood.
    - apply Forall_cons in Hpre as [[? _] _]. done. }
  rewrite check_shards_app by done.
  cbn [check_shards tamper Shard_ChunkIndex Shard_Data Shard_Hash
       Shard_ShardIndex slot_bytes default].
  destruct (Hgood s Hs) as [-> Hv]. rewrite Z.eqb_refl. cbn [negb].
  unfold VerifyShard in *. apply bool_decide_eq_true_1 in Hv.
  rewrite bool_decide_eq_false_2; [done |].
  rewrite <- Hv. intros Heq. by apply hex_EncodeToString_inj in Heq.
Qed.

(** C3.  Take the shards of a chunk, or any four or more of them, and
    flip one bit of the data of one shard, its declared hash left as it
    was.  Provided the flipped data does not collide with the original
    data under SHA-256, [ReconstructChunk] returns the hash-verification
    error naming that shard, and hence no buffer. *)
Theorem ReconstructChunk_detects_bit_flip (chunk : Chunk)
    (ciphertext : list byte) (shards pre post : list Shard) (s : Shard)
    (pos : nat) (bit : N) (dataSize : Z) :
  ShardChunk chunk ciphertext = Ok shards ->
  s ∈ shards ->
  (forall x, x ∈ pre ++ post -> x ∈ shards) ->
  4 <= len (pre ++ s :: post) ->
  0 < dataSize ->
  let original := slot_bytes (Shard_Data s) in
  let altered := flip_bit original pos bit in
  sha256.Sum256 altered <> sha256.Sum256 original ->
  ReconstructChunk (pre ++ tamper s altered :: post) dataSize
  = Err (FailedHashVerification (Shard_ShardIndex s)).
Proof.
  intros Hshard Hs Hrest Hfour Hsize original altered Hsha.
  apply (ReconstructChunk_rejects_altered chunk ciphertext shards); try done.
  unfold len in *. rewrite length_app in *. cbn [length] in *. lia.
Qed.

(** The first byte of shard 0 of a five-byte ciphertext, lowest bit
    flipped, all six shards passed. *)
Lemma ReconstructChunk_detects_bit_flip_witness :
  let ciphertext := [x68; x65; x6c; x6c; x6f] in
  let chunk := mkChunk 3 ciphertext EmptyString 5 in
  exists shards s0,
    ShardChunk chunk ciphertext = Ok shards
    /\ shards !! 0%nat = Some s0
    /\ ReconstructChunk
         (tamper s0 (flip_bit (slot_bytes (Shard_Data s0)) 0 0) :: drop 1 shards) 5
       = Err (FailedHashVerification 0).
Proof.
  intros ciphertext chunk.
  destruct (ShardChunk chunk ciphertext) as [shards |] eqn:E;
    [| vm_compute in E; discriminate].
  pose proof E as E'. vm_compute in E'. injection E' as E'.
  destruct shards as [| s0 rest]; [discriminate |].
  exists (s0 :: rest), s0. split; [done |]. split; [done |].
  assert (Shard_ShardIndex s0 = 0) as <- by (by injection E' as <- _).
  apply (ReconstructChunk_detects_bit_flip chunk ciphertext (s0 :: rest) []
           rest s0 0 0 5 E).
  - by left.
  - intros x Hx. by right.
  - injection E' as _ <-. vm_compute. discriminate.
  - lia.
  - injection E' as <- _. vm_compute. discriminate.
Defined.


(** *** The order of the precondition checks *)









End shards.

(** ** EncryptChunk and DecryptChunk *)

Section aead.
Import chacha20poly1305.

Lemma le_bytes_length (n : nat) (x : N) : length (le_bytes n x) = n.
Proof. revert x. induction n as [| n IH]; intros x; [done |]. cbn. by rewrite IH. Qed.

Lemma le_words_length (n : nat) (bs : list byte) : length (le_words n bs) = n.
Proof. revert bs. induction n as [| n IH]; intros bs; [done |]. cbn. by rewrite IH. Qed.

Lemma quarter_length (a b c d : nat) (s : list N) :
  length (quarter a b c d s) = length s.
Proof. unfold quarter. cbv zeta. by rewrite !length_insert. Qed.

Lemma double_round_length (s : list N) : length (double_round s) = length s.
Proof. unfold double_round. cbv zeta. by rewrite !quarter_length. Qed.

Lemma rounds_length (s : list N) : length (rounds s) = length s.
Proof.
  unfold rounds.
  apply Nat.iter_invariant; [| done].
  intros t Ht. by rewrite double_round_length.
Qed.

Lemma flat_map_length {A B} (f : A -> list B) (k : nat) (l : list A) :
  (forall x, length (f x) = k) -> length (flat_map f l) = (k * length l)%nat.
Proof.
  intros Hf. induction l as [| x l IH]; [cbn; lia |].
  cbn [flat_map]. rewrite length_app, Hf, IH. cbn [length]. lia.
Qed.

Lemma block_length (key : list byte) (counter : N) (nonce : list byte) :
  length (block key counter nonce) = 64%nat.
Proof.
  unfold block. cbv zeta.
  rewrite (flat_map_length _ 4) by apply le_bytes_length.
  rewrite length_zip_with, rounds_length, !length_app, !le_words_length.
  unfold sigma. rewrite le_words_length. done.
Qed.

Lemma keystream_length (key nonce : list byte) (counter : N) (n : nat) :
  (n <= length (keystream key nonce counter n))%nat.
Proof.
  unfold keystream.
  rewrite (flat_map_length _ 64) by (intros; apply block_length).
  rewrite length_seq.
  pose proof (Nat.div_mod_eq (n + 63) 64).
  pose proof (Nat.mod_upper_bound (n + 63) 64). lia.
Qed.

Lemma xorKeyStream_length (key nonce : list byte) (counter : N) (src : list byte) :
  length (xorKeyStream key nonce counter src) = length src.
Proof.
  unfold xorKeyStream. rewrite length_zip_with.
  pose proof (keystream_length key nonce counter (length src)). lia.
Qed.

Lemma bxor_cancel (a k : byte) : bxor (bxor a k) k = a.
Proof. by rewrite <- bxor_assoc, bxor_nilpotent, bxor_0_r. Qed.

Lemma zip_bxor_twice (src ks : list byte) :
  (length src <= length ks)%nat ->
  zip_with bxor (zip_with bxor src ks) ks = src.
Proof.
  revert ks. induction src as [| a src IH]; intros [| k ks] Hlen;
    try done; cbn in Hlen; [lia |].
  cbn [zip_with]. rewrite bxor_cancel, IH by lia. done.
Qed.

(** Applying the key stream twice gives the source back. *)
Lemma xorKeyStream_twice (key nonce : list byte) (counter : N) (src : list byte) :
  xorKeyStream key nonce counter (xorKeyStream key nonce counter src) = src.
Proof.
  unfold xorKeyStream at 1. rewrite xorKeyStream_length.
  unfold xorKeyStream. apply zip_bxor_twice, keystream_length.
Qed.

Lemma tag_length (key nonce ad ct : list byte) : length (tag key nonce ad ct) = 16%nat.
Proof. unfold tag, poly1305. cbv zeta. apply le_bytes_length. Qed.

(** [Seal] appends to [dst] as many bytes as the plaintext has, and the
    tag. *)
Lemma Seal_Some (c : AEAD) (dst nonce plaintext ad : list byte) :
  len nonce = NonceSizeX -> len plaintext <= 2 ^ 38 - 64 ->
  exists ciphertext,
    Seal c dst nonce plaintext ad = Some (dst ++ ciphertext)
    /\ len ciphertext = len plaintext + Overhead
    /\ Open c [] nonce ciphertext ad = Some (Ok plaintext).
Proof.
  intros Hnonce Hsize. unfold Seal, Open. rewrite Hnonce, Z.eqb_refl.
  cbn [negb]. rewrite (proj2 (Z.ltb_ge _ _)) by lia.
  set (k := inner_key c nonce). set (n := inner_nonce nonce).
  set (body := xorKeyStream k n 1 plaintext).
  exists (body ++ tag k n ad body). split; [done |].
  assert (length (body ++ tag k n ad body) = (length plaintext + 16)%nat) as Hl.
  { unfold body. by rewrite length_app, xorKeyStream_length, tag_length. }
  assert (len (body ++ tag k n ad body) = len plaintext + 16) as HL.
  { unfold len. rewrite Hl. lia. }
  split; [done |].
  pose proof (len_nonneg plaintext).
  rewrite HL. rewrite (proj2 (Z.ltb_ge _ _)) by lia.
  rewrite (proj2 (Z.ltb_ge _ _)) by lia.
  assert (length (body ++ tag k n ad body) - 16 = length body)%nat as ->.
  { rewrite Hl. unfold body. rewrite xorKeyStream_length. lia. }
  rewrite take_app_length, drop_app_length.
  rewrite bool_decide_eq_true_2 by done.
  unfold body. by rewrite xorKeyStream_twice.
Qed.

End aead.

Section crypto.
Import crypto.

(** What [EncryptChunk] returns for a key of 32 bytes, 24 bytes of
    entropy and a plaintext within the limit of the cipher. *)
Lemma EncryptChunk_Ok (plaintext key entropy : list byte) :
  len key = 32 -> 24 <= len entropy -> len plaintext <= 2 ^ 38 - 64 ->
  exists nonce sealed,
    EncryptChunk plaintext key entropy = Returns (Ok (nonce ++ sealed))
    /\ len nonce = 24
    /\ len sealed = len plaintext + 16
    /\ chacha20poly1305.Open (chacha20poly1305.mkAEAD key) [] nonce sealed []
       = Some (Ok plaintext).
Proof.
  intros Hkey Hent Hsize. unfold EncryptChunk, chacha20poly1305.NewX.
  change KeySize with 32. change chacha20poly1305.KeySize with 32.
  rewrite Hkey. cbn [Z.eqb Pos.eqb negb].
  unfold rand_Read. change (Z.to_nat chacha20poly1305.NonceSizeX) with 24%nat.
  rewrite (proj2 (Nat.leb_le _ _)) by (unfold len in Hent; lia).
  assert (len (take 24 entropy) = chacha20poly1305.NonceSizeX) as Hnonce.
  { unfold len in *. rewrite length_take. change chacha20poly1305.NonceSizeX with 24. lia. }
  destruct (Seal_Some (chacha20poly1305.mkAEAD key) (take 24 entropy)
              (take 24 entropy) plaintext [] Hnonce Hsize)
    as (sealed & -> & Hlen & Hopen).
  by exists (take 24 entropy), sealed.
Qed.

(** C7.  For a key of 32 bytes and any plaintext the cipher accepts, the
    empty one included, whatever nonce the entropy source delivers:
    [EncryptChunk] returns a buffer and [DecryptChunk] of that buffer
    under the same key returns the plaintext. *)
Theorem DecryptChunk_EncryptChunk (plaintext key entropy : list byte) :
  len key = 32 -> 24 <= len entropy -> len plaintext <= 2 ^ 38 - 64 ->
  exists ciphertext,
    EncryptChunk plaintext key entropy = Returns (Ok ciphertext)
    /\ DecryptChunk ciphertext key = Returns (Ok plaintext).
Proof.
  intros Hkey Hent Hsize.
  destruct (EncryptChunk_Ok plaintext key entropy Hkey Hent Hsize)
    as (nonce & sealed & -> & Hnonce & Hsealed & Hopen).
  exists (nonce ++ sealed). split; [done |].
  unfold DecryptChunk, chacha20poly1305.NewX.
  change KeySize with 32. change chacha20poly1305.KeySize with 32.
  rewrite Hkey. cbn [Z.eqb Pos.eqb negb]. cbv zeta.
  change chacha20poly1305.NonceSizeX with 24.
  pose proof (len_nonneg plaintext).
  rewrite len_app, (proj2 (Z.ltb_ge _ _)) by lia.
  assert (Z.to_nat 24 = length nonce) as -> by (unfold len in Hnonce; lia).
  rewrite take_app_length, drop_app_length. by rewrite Hopen.
Qed.

(** The empty plaintext under the all-zero key. *)
Lemma DecryptChunk_EncryptChunk_witness :
  exists ciphertext,
    EncryptChunk [] (replicate 32 x00) (replicate 24 x07) = Returns (Ok ciphertext)
    /\ DecryptChunk ciphertext (replicate 32 x00) = Returns (Ok []).
Proof.
  apply DecryptChunk_EncryptChunk; vm_compute; congruence.
Defined.

(** C10.  The buffer returned by [EncryptChunk] is the plaintext's length
    plus 40 bytes long, the 24 bytes of the nonce and the 16 of the tag:
    longer than the plaintext, also for the empty one, and never too
    short for [DecryptChunk]. *)
Theorem EncryptChunk_length (plaintext key entropy : list byte) :
  len key = 32 -> 24 <= len entropy -> len plaintext <= 2 ^ 38 - 64 ->
  exists ciphertext,
    EncryptChunk plaintext key entropy = Returns (Ok ciphertext)
    /\ len ciphertext
       = len plaintext + chacha20poly1305.NonceSizeX + chacha20poly1305.Overhead
    /\ len ciphertext = len plaintext + 40
    /\ len plaintext < len ciphertext
    /\ (len ciphertext <? chacha20poly1305.NonceSizeX) = false.
Proof.
  intros Hkey Hent Hsize.
  destruct (EncryptChunk_Ok plaintext key entropy Hkey Hent Hsize)
    as (nonce & sealed & -> & Hnonce & Hsealed & _).
  exists (nonce ++ sealed). split; [done |].
  pose proof (len_nonneg plaintext).
  rewrite len_app, Hnonce, Hsealed.
  change chacha20poly1305.NonceSizeX with 24.
  change chacha20poly1305.Overhead with 16.
  split; [lia |]. split; [lia |]. split; [lia |]. apply Z.ltb_ge. lia.
Qed.

(** Three bytes of plaintext give 43 bytes. *)
Lemma EncryptChunk_length_witness :
  exists ciphertext,
    EncryptChunk [x01; x02; x03] (replicate 32 x00) (replicate 24 x07)
    = Returns (Ok ciphertext)
    /\ len ciphertext = 43.
Proof.
  destruct (EncryptChunk_length [x01; x02; x03] (replicate 32 x00)
              (replicate 24 x07)) as (c & Hc & _ & Hlen & _);
    [vm_compute; congruence .. |].
  exists c. split; [done |]. exact Hlen.
Defined.

End crypto.

(** ** The farmers of a chunk *)

Section farmers.

Import manifest.







(** *** GetShardsForChunk *)



(** *** GetFarmersForChunk *)





(** The farmer index has not been met. *)
Definition unseen (farmerMap : gmap Z bool) (i : Z) : Prop :=
  default false (farmerMap !! i) = false.

#[local] Instance unseen_dec (farmerMap : gmap Z bool) (i : Z) :
  Decision (unseen farmerMap i).
Proof. unfold unseen. apply _. Defined.









End farmers.

(** ** The manifest on disk *)

Section utf8.

Import utf8.









End utf8.

Section persistence.

Import manifest.


































End persistence.

(** * Further properties *)

(** ** StreamChunkFile on any file *)

Section stream_any.
Import chunker.

#[local] Opaque ChunkSize cs.

(** What every delivered chunk satisfies. *)
Definition sound_chunk (c : Chunk) : Prop :=
  Chunk_Size c = len (Chunk_Data c)
  /\ 1 <= Chunk_Size c <= ChunkSize
  /\ VerifyChunk (Chunk_Data c) (Chunk_Hash c) = true.

Definition error_result (e : error) : ChunkResult :=
  mkChunkResult zeroChunk (Some e).

Lemma stream_loop_shape (fuel : nat) (file : File) (index : Z) :
  exists chunks tail,
    stream_loop fuel file index = map (fun c => mkChunkResult c None) chunks ++ tail
    /\ (tail = [] \/ exists e, tail = [error_result e])
    /\ Forall sound_chunk chunks.
Proof.
  revert file index. induction fuel as [| fuel IH]; intros file index.
  { exists [], []. split; [done |]. split; [by left | constructor]. }
  rewrite stream_loop_S. unfold ReadFull.
  pose proof cs_pos as Hcs. pose proof cs_ChunkSize as HCS.
  set (buf := take cs (file_bytes file)).
  assert (Hlen : (length buf <= cs)%nat).
  { unfold buf. rewrite length_take. lia. }
  set (rest := mkFile (drop cs (file_bytes file)) (file_fault file)).
  assert (Hsound : (0 < length buf)%nat ->
            sound_chunk (mkChunk index buf
                           (hex.EncodeToString (sha256.Sum256 buf)) (len buf))).
  { intros Hpos. unfold sound_chunk, VerifyChunk, len. cbn.
    split; [done |]. split; [lia |]. by apply bool_decide_eq_true_2. }
  destruct (Nat.eqb (length buf) cs) eqn:Efull.
  - apply Nat.eqb_eq in Efull.
    destruct (IH rest (wrap64 (index + 1))) as (chunks & tail & E & Htail & Hch).
    destruct (len buf <? ChunkSize).
    + eexists [_], []. split; [done |]. split; [by left |].
      constructor; [apply Hsound; lia | constructor].
    + eexists (_ :: chunks), tail. rewrite E. split; [done |]. split; [done |].
      constructor; [apply Hsound; lia | done].
  - destruct (file_fault file).
    + exists [], [error_result (FailedToReadChunk index)].
      split; [done |]. split; [right; by eexists | constructor].
    + destruct (Nat.eqb (length buf) 0) eqn:Eempty.
      * exists [], []. split; [done |]. split; [by left | constructor].
      * apply Nat.eqb_neq in Eempty.
        destruct (IH rest (wrap64 (index + 1))) as (chunks & tail & E & Htail & Hch).
        destruct (len buf <? ChunkSize).
        -- eexists [_], []. split; [done |]. split; [by left |].
           constructor; [apply Hsound; lia | constructor].
        -- eexists (_ :: chunks), tail. rewrite E. split; [done |]. split; [done |].
           constructor; [apply Hsound; lia | done].
Qed.

(** X1.  Whatever the file and the device do, the stream consists of chunks
    followed by at most one error, which is the last value sent and
    carries no chunk; a path that cannot be opened gives the open error
    alone.  Every chunk sent has between 1 and [ChunkSize] bytes, its
    size is the length of its data and it passes [VerifyChunk] with its
    own hash. *)
Theorem StreamChunkFile_error_is_last (fs : gmap string File) (filePath : string) :
  exists chunks tail,
    StreamChunkFile fs filePath = map (fun c => mkChunkResult c None) chunks ++ tail
    /\ (tail = [] \/ exists e, tail = [error_result e])
    /\ Forall sound_chunk chunks
    /\ (fs !! filePath = None ->
        chunks = [] /\ tail = [error_result FailedToOpenFile]).
Proof.
  unfold StreamChunkFile. destruct (fs !! filePath) as [file |].
  - destruct (stream_loop_shape (S (length (file_bytes file))) file 0)
      as (chunks & tail & E & Htail & Hch).
    exists chunks, tail. by rewrite E.
  - exists [], [error_result FailedToOpenFile].
    split; [done |]. split; [right; by eexists |]. split; [constructor | done].
Qed.

Lemma stream_loop_fault (fuel : nat) (data : list byte) (base : nat) :
  (length data < fuel)%nat ->
  Z.of_nat base + Z.of_nat (length data / cs) < 2 ^ 63 ->
  stream_loop fuel (mkFile data true) (Z.of_nat base)
  = map (fun i => mkChunkResult (chunk_at data base i) None)
        (seq 0 (length data / cs))
    ++ [error_result (FailedToReadChunk (Z.of_nat (base + length data / cs)))].
Proof.
  revert data base. induction fuel as [| fuel IH]; intros data base Hfuel Hidx.
  { lia. }
  pose proof cs_pos as Hcs.
  rewrite stream_loop_S. unfold ReadFull. cbn [file_bytes file_fault].
  rewrite length_take.
  destruct (decide (cs <= length data)%nat) as [Hfull | Hshort].
  - assert (Hdiv : (length data / cs = S ((length data - cs) / cs))%nat).
    { replace (length data) with ((length data - cs) + 1 * cs)%nat at 1 by lia.
      rewrite Nat.div_add by lia. lia. }
    rewrite (proj2 (Nat.eqb_eq _ _)) by lia.
    rewrite Hdiv in *.
    assert ((len (take cs data) <? ChunkSize) = false) as ->.
    { apply Z.ltb_ge. unfold len. rewrite length_take, <- cs_ChunkSize. lia. }
    rewrite wrap64_small by lia.
    replace (Z.of_nat base + 1) with (Z.of_nat (S base)) by lia.
    rewrite IH; [| rewrite length_drop; lia | rewrite length_drop; lia].
    rewrite length_drop. cbn [seq map app].
    rewrite chunk_at_0. apply (f_equal (cons _)).
    replace (S base + (length data - cs) / cs)%nat
      with (base + S ((length data - cs) / cs))%nat by lia.
    apply (f_equal (fun l => l ++ _)).
    rewrite <- fmap_S_seq, <- list_fmap_compose.
    apply list_fmap_ext. intros _ i _.
    change ((?f ∘ ?g) i) with (f (g i)). cbv beta.
    by rewrite chunk_at_drop.
  - rewrite Nat.div_small by lia.
    rewrite (proj2 (Nat.eqb_neq _ _)) by lia.
    by rewrite Nat.add_0_r.
Qed.

(** X2.  On a device that fails at the end of its [N] bytes the stream has the
    [N / ChunkSize] complete chunks of the file, in order and with their
    indices, and then the read error for the chunk that follows: the
    bytes of the incomplete last buffer are not delivered. *)
Theorem StreamChunkFile_device_error
    (fs : gmap string File) (filePath : string) (content : list byte) :
  fs !! filePath = Some (mkFile content true) ->
  len content < 2 ^ 63 ->
  exists chunks : list Chunk,
    StreamChunkFile fs filePath
    = map (fun c => mkChunkResult c None) chunks
      ++ [error_result (FailedToReadChunk (len content / ChunkSize))]
    /\ len chunks = len content / ChunkSize
    /\ (forall (i : nat) (c : Chunk), chunks !! i = Some c ->
          Chunk_Index c = Z.of_nat i
          /\ Chunk_Data c
             = take (Z.to_nat ChunkSize) (drop (i * Z.to_nat ChunkSize) content)
          /\ Chunk_Size c = ChunkSize
          /\ Chunk_Hash c = hex.EncodeToString (sha256.Sum256 (Chunk_Data c))).
Proof.
  intros Hopen Hsize.
  pose proof cs_pos as Hcs. pose proof cs_ChunkSize as HCS.
  assert (Hq : Z.of_nat (length content / cs) = len content / ChunkSize).
  { unfold len. rewrite Nat2Z.inj_div. by rewrite HCS. }
  assert (Hq63 : Z.of_nat (length content / cs) < 2 ^ 63).
  { pose proof (Nat.Div0.div_le_upper_bound (length content) cs (length content)).
    unfold len in Hsize. nia. }
  exists (map (chunk_at content 0) (seq 0 (length content / cs))).
  split; [| split].
  - unfold StreamChunkFile. rewrite Hopen. cbn [file_bytes].
    change 0 with (Z.of_nat 0). rewrite stream_loop_fault by lia.
    rewrite map_map. cbn [Nat.add]. by rewrite Hq.
  - unfold len at 1. by rewrite length_map, length_seq.
  - intros i c Hc. rewrite cs_unfold.
    rewrite list_lookup_fmap in Hc.
    destruct (seq 0 (length content / cs) !! i) as [j |] eqn:Hj; [| done].
    apply lookup_seq in Hj as [-> Hi]. cbn in Hc. injection Hc as <-.
    unfold chunk_at. cbn [Chunk_Index Chunk_Data Chunk_Size Chunk_Hash Nat.add].
    split; [done |]. split; [done |]. split; [| done].
    unfold len. rewrite length_take, length_drop.
    pose proof (Nat.Div0.mul_div_le (length content) cs).
    rewrite <- HCS. nia.
Qed.

Lemma StreamChunkFile_device_error_witness :
  exists chunks : list Chunk,
    StreamChunkFile {[ "disk"%string := mkFile [x01; x02] true ]} "disk"
    = map (fun c => mkChunkResult c None) chunks
      ++ [error_result (FailedToReadChunk (len [x01; x02] / ChunkSize))]
    /\ len chunks = len [x01; x02] / ChunkSize
    /\ (forall (i : nat) (c : Chunk), chunks !! i = Some c ->
          Chunk_Index c = Z.of_nat i
          /\ Chunk_Data c
             = take (Z.to_nat ChunkSize) (drop (i * Z.to_nat ChunkSize) [x01; x02])
          /\ Chunk_Size c = ChunkSize
          /\ Chunk_Hash c = hex.EncodeToString (sha256.Sum256 (Chunk_Data c))).
Proof.
  apply (StreamChunkFile_device_error _ _ [x01; x02]).
  - reflexivity.
  - vm_compute. reflexivity.
Defined.

End stream_any.

(** ** ShardChunk and ReconstructChunk on other inputs *)

Section shards_more.
Import reedsolomon chunker.

#[local] Opaque codeShard sha256.Sum256 hex.EncodeToString.

Lemma ShardChunk_defined (chunk : Chunk) (encryptedData : list byte) :
  len encryptedData = Chunk_Size chunk -> encryptedData <> [] ->
  exists shards, ShardChunk chunk encryptedData = Ok shards.
Proof.
  intros Hsize Hne. unfold ShardChunk.
  rewrite (proj2 (Z.eqb_eq _ _) Hsize). cbn [negb].
  change (New DataShards ParityShards) with (New 4 2). rewrite New_4_2.
  pose proof (Split_Encode encryptedData Hne) as HSE.
  destruct (Split enc46 encryptedData) as [s |]; [| done].
  cbn [bind] in HSE. rewrite HSE. by eexists.
Qed.

(** X3.  [ShardChunk] returns shards exactly for a buffer that is not empty
    and has the size the chunk states: another size is the size-mismatch
    error, and the empty buffer of a chunk of size zero is refused by the
    codec's [Split]. *)
Theorem ShardChunk_succeeds_iff (chunk : Chunk) (encryptedData : list byte) :
  ((exists shards, ShardChunk chunk encryptedData = Ok shards) <->
     len encryptedData = Chunk_Size chunk /\ encryptedData <> [])
  /\ (len encryptedData <> Chunk_Size chunk ->
      ShardChunk chunk encryptedData
      = Err (DataSizeMismatch (Chunk_Size chunk) (len encryptedData)))
  /\ (encryptedData = [] -> Chunk_Size chunk = 0 ->
      ShardChunk chunk encryptedData = Err (FailedToSplit ErrShortData)).
Proof.
  assert (Hmis : len encryptedData <> Chunk_Size chunk ->
            ShardChunk chunk encryptedData
            = Err (DataSizeMismatch (Chunk_Size chunk) (len encryptedData))).
  { intros Hne. unfold ShardChunk.
    by rewrite (proj2 (Z.eqb_neq _ _) Hne). }
  assert (Hempty : encryptedData = [] -> Chunk_Size chunk = 0 ->
            ShardChunk chunk encryptedData = Err (FailedToSplit ErrShortData)).
  { intros -> Hz. unfold ShardChunk. rewrite Hz.
    change (New DataShards ParityShards) with (New 4 2). by rewrite New_4_2. }
  split; [| done]. split.
  - intros [shards H]. apply ShardChunk_Ok in H as (? & ? & _). done.
  - intros [Hsize Hne]. by apply ShardChunk_defined.
Qed.

Lemma concat_pieces_padded (data : list byte) :
  data <> [] ->
  concat (pieces data)
  = data ++ replicate (4 * perShard data - length data) x00.
Proof.
  intros Hd. destruct (perShard_bounds data Hd) as [Hn Hle].
  unfold pieces. fold (perShard data). cbv zeta.
  rewrite concat_pieces.
  rewrite take_app_ge by lia. f_equal.
  rewrite take_replicate. f_equal. lia.
Qed.

(** X4.  The shards [ShardChunk] returns: six of them, numbered 0 to 5 and
    labelled with the chunk's index, all of the same size, the fourth
    part of the buffer's length rounded up; every one passes
    [VerifyShard] with its own hash; and the first four, one after the
    other, are the buffer itself followed by zero bytes. *)
Theorem ShardChunk_shards (chunk : Chunk) (encryptedData : list byte)
    (shards : list Shard) :
  ShardChunk chunk encryptedData = Ok shards ->
  let size := (len encryptedData + 3) / 4 in
  length shards = 6%nat
  /\ (forall (i : nat) (s : Shard), shards !! i = Some s ->
        Shard_ChunkIndex s = Chunk_Index chunk
        /\ Shard_ShardIndex s = Z.of_nat i
        /\ (exists data, Shard_Data s = Some data /\ len data = size)
        /\ Shard_Size s = size
        /\ VerifyShard (slot_bytes (Shard_Data s)) (Shard_Hash s) = true)
  /\ concat (map (fun s => slot_bytes (Shard_Data s)) (take 4 shards))
     = encryptedData
       ++ replicate (Z.to_nat (4 * size - len encryptedData)) x00.
Proof.
  intros H size. apply ShardChunk_Ok in H as (Hne & _ & ->).
  set (d := pieces encryptedData). set (n := perShard encryptedData).
  pose proof (pieces_shard_length encryptedData Hne) as Hall. fold d n in Hall.
  pose proof (pieces_length encryptedData) as Hd. fold d in Hd.
  pose proof (encoded_shard_length d n Hall) as HEn.
  pose proof (encoded_length d n Hd) as HE6.
  assert (Hsize : size = Z.of_nat n).
  { unfold size, n, perShard, len. rewrite Nat2Z.inj_div. f_equal. lia. }
  split; [by rewrite length_map, length_seq |]. split.
  - intros i s Hs. rewrite list_lookup_fmap in Hs.
    destruct (seq 0 6 !! i) as [j |] eqn:Hj; [| done].
    apply lookup_seq in Hj as [-> Hi].
    change (Some (shard_at (Chunk_Index chunk) (encoded d n) i) = Some s) in Hs.
    injection Hs as <-.
    assert (Hlen : length (nth i (encoded d n) []) = n).
    { rewrite Forall_forall in HEn. apply HEn.
      apply list_elem_of_In, nth_In. lia. }
    destruct (shard_at_fields (Chunk_Index chunk) (encoded d n) i)
      as (-> & -> & HD & ->).
    split; [done |]. split; [done |]. split.
    + eexists. split; [exact HD |]. rewrite Hsize. unfold len. by rewrite Hlen.
    + split; [| done]. rewrite Hsize. unfold shard_at. cbn [Shard_Size]. unfold len.
      by rewrite Hlen.
  - cbn [seq map take].
    unfold shard_at. cbn [Shard_Data slot_bytes default concat].
    rewrite !encoded_data by (done || lia).
    transitivity (concat d).
    { destruct d as [| d0 [| d1 [| d2 [| d3 [| ? ?]]]]]; done. }
    unfold d. rewrite concat_pieces_padded by done. fold n.
    do 2 f_equal. unfold len. lia.
Qed.

Lemma ShardChunk_shards_witness :
  let data := [x68; x65; x6c; x6c; x6f] in
  exists shards,
    ShardChunk (mkChunk 3 data EmptyString 5) data = Ok shards
    /\ length shards = 6%nat
    /\ concat (map (fun s => slot_bytes (Shard_Data s)) (take 4 shards))
       = data ++ replicate (Z.to_nat (4 * ((len data + 3) / 4) - len data)) x00.
Proof.
  intros data.
  destruct (ShardChunk (mkChunk 3 data EmptyString 5) data) as [shards |] eqn:E;
    [| vm_compute in E; discriminate].
  exists shards. split; [done |].
  destruct (ShardChunk_shards (mkChunk 3 data EmptyString 5) data shards E)
    as (H6 & _ & Hcat).
  by split.
Defined.

(** *** The size passed to ReconstructChunk *)

Lemma join_size_bound (l : list slot) (size outSize s : Z) :
  join_size l size outSize = Ok s ->
  s <= size + len (concat (map slot_bytes l)).
Proof.
  revert size. induction l as [| [e |] l IH]; intros size H; cbn in H.
  - injection H as <-. unfold len. cbn. lia.
  - cbn [map concat]. change (slot_bytes (Some e)) with e. rewrite len_app.
    pose proof (len_nonneg (concat (map slot_bytes l))).
    destruct (outSize <=? size + len e).
    + injection H as <-. lia.
    + apply IH in H. lia.
  - done.
Qed.

(** X5.  A buffer returned by [ReconstructChunk] has exactly the size asked
    for, and is returned only for four or more shards that all carry the
    chunk index of the first one, verify against their hashes and have
    their index within [0, 6). *)
Theorem ReconstructChunk_Ok_inv (shards : list Shard) (dataSize : Z)
    (buf : list byte) :
  ReconstructChunk shards dataSize = Ok buf ->
  len buf = dataSize
  /\ 0 < dataSize
  /\ 4 <= len shards
  /\ Forall (fun s =>
       Shard_ChunkIndex s
       = match shards with s0 :: _ => Shard_ChunkIndex s0 | [] => 0 end
       /\ VerifyShard (slot_bytes (Shard_Data s)) (Shard_Hash s) = true
       /\ 0 <= Shard_ShardIndex s < 6) shards.
Proof.
  unfold ReconstructChunk. change DataShards with 4.
  destruct (len shards <? 4) eqn:Hfour; [done |]. apply Z.ltb_ge in Hfour.
  destruct (dataSize <=? 0) eqn:Hpos; [done |]. apply Z.leb_gt in Hpos.
  set (first := match shards with s0 :: _ => Shard_ChunkIndex s0 | [] => 0 end).
  destruct (check_shards first shards) as [[] | e] eqn:Hcheck; [| done].
  cbn [bind]. change (New 4 ParityShards) with (New 4 2). rewrite New_4_2.
  change (Z.to_nat TotalShards) with 6%nat.
  destruct (fill_shards shards (replicate 6 None)) as [sd |] eqn:Hfill; [| done].
  cbn [bind].
  destruct (Reconstruct enc46 sd) as [sd' |]; [| done].
  destruct (Verify enc46 sd') as [[|] |]; try done.
  unfold Join.
  destruct (Nat.ltb (length sd') (dataShards enc46)); [done |].
  destruct (join_size (take (dataShards enc46) sd') 0 dataSize) as [s |] eqn:Hjs;
    [| done].
  cbn [bind]. destruct (s <? dataSize) eqn:Hs; [done |]. apply Z.ltb_ge in Hs.
  intros [= <-]. apply join_size_bound in Hjs.
  split.
  { change (dataShards enc46) with 4%nat in Hjs.
    unfold len in *. rewrite length_take. lia. }
  split; [done |]. split; [done |].
  clear Hfour Hjs Hs s. generalize dependent (replicate 6 (@None (list byte))).
  clearbody first.
  induction shards as [| x rest IH]; intros acc Hfill; [constructor |].
  cbn [check_shards] in Hcheck.
  destruct (Shard_ChunkIndex x =? first) eqn:Hc; [| done].
  destruct (VerifyShard (slot_bytes (Shard_Data x)) (Shard_Hash x)) eqn:Hv;
    [| done].
  cbn [negb] in Hcheck. cbn [fill_shards] in Hfill.
  destruct ((Shard_ShardIndex x <? 0) || (TotalShards <=? Shard_ShardIndex x))
    eqn:Hr; [done |].
  apply orb_false_iff in Hr as [Hlo Hhi].
  apply Z.ltb_ge in Hlo. apply Z.leb_gt in Hhi. change TotalShards with 6 in Hhi.
  match type of Hfill with
  | match ?t with _ => _ end = _ => destruct t; [done |]
  end.
  constructor.
  - apply Z.eqb_eq in Hc. done.
  - by apply (IH Hcheck _ Hfill).
Qed.

Lemma ReconstructChunk_Ok_inv_witness :
  let data := [x68; x65; x6c; x6c; x6f] in
  exists shards,
    ShardChunk (mkChunk 3 data EmptyString 5) data = Ok shards
    /\ ReconstructChunk (take 4 shards) 5 = Ok data
    /\ len data = 5.
Proof.
  intros data.
  destruct (ShardChunk (mkChunk 3 data EmptyString 5) data) as [shards |] eqn:E;
    [| vm_compute in E; discriminate].
  exists shards. split; [done |].
  assert (H : ReconstructChunk (take 4 shards) 5 = Ok data).
  { vm_compute in E. injection E as <-. vm_compute. reflexivity. }
  split; [done |].
  by destruct (ReconstructChunk_Ok_inv (take 4 shards) 5 data H) as [Hlen _].
Defined.

(** What [ReconstructChunk] does with a selection of shards of one
    chunk, up to the call of [Join]. *)
Lemma ReconstructChunk_selection (chunk : Chunk) (ciphertext : list byte)
    (shards subset : list Shard) (dataSize : Z) :
  ShardChunk chunk ciphertext = Ok shards ->
  NoDup subset ->
  (forall s, s ∈ subset -> s ∈ shards) ->
  4 <= len subset ->
  0 < dataSize ->
  ReconstructChunk subset dataSize
  = match Join enc46 (map Some (encoded (pieces ciphertext) (perShard ciphertext)))
               dataSize with
    | Err e => Err (FailedToJoin e)
    | Ok buf => Ok buf
    end.
Proof.
  intros Hshard Hnd Hsub Hfour Hpos.
  apply ShardChunk_Ok in Hshard as (Hne & _ & ->).
  set (d := pieces ciphertext) in *. set (n := perShard ciphertext) in *.
  destruct (perShard_bounds ciphertext Hne) as [Hn Hle]. fold n in Hn, Hle.
  pose proof (pieces_shard_length ciphertext Hne) as Hall. fold d n in Hall.
  pose proof (pieces_length ciphertext) as Hd. fold d in Hd.
  unfold ReconstructChunk. change DataShards with 4.
  rewrite (proj2 (Z.ltb_ge _ _)) by lia.
  rewrite (proj2 (Z.leb_gt _ _)) by lia.
  assert (match subset with
          | s :: _ => Shard_ChunkIndex s
          | [] => 0
          end = Chunk_Index chunk) as ->.
  { destruct subset as [| s ?]; [unfold len in Hfour; cbn in Hfour; lia |].
    specialize (Hsub s ltac:(left)).
    by apply elem_of_shards in Hsub as (i & _ & ->). }
  rewrite check_shards_Ok.
  2:{ apply Forall_forall. intros s Hs.
      apply Hsub, elem_of_shards in Hs as (i & _ & ->).
      by destruct (shard_at_fields (Chunk_Index chunk) (encoded d n) i)
        as (? & _ & _ & ?). }
  cbn [bind].
  change (New 4 ParityShards) with (New 4 2). rewrite New_4_2.
  change (Z.to_nat TotalShards) with 6%nat.
  rewrite (selection_fill (Chunk_Index chunk) (encoded d n) subset Hnd Hsub)
    by (by apply encoded_length).
  cbn [bind].
  rewrite Reconstruct_mask; try done.
  2:{ pose proof (selection_count (Chunk_Index chunk) (encoded d n) subset
                    Hnd Hsub).
      unfold len in Hfour. lia. }
  by rewrite Verify_encoded.
Qed.

Lemma Join_short (d : list (list byte)) (n : nat) (outSize : Z) :
  length d = 4%nat -> len (concat d) < outSize ->
  Join enc46 (map Some (encoded d n)) outSize = Err ErrShortData.
Proof.
  intros Hd Hsize. unfold Join.
  rewrite length_map, encoded_length by done.
  change (dataShards enc46) with 4%nat. cbn [Nat.ltb Nat.leb]. unfold slot.
  assert (take 4 (map Some (encoded d n)) = map Some d) as ->.
  { destruct d as [| d0 [| d1 [| d2 [| d3 [| ? ?]]]]]; done. }
  destruct (join_size_some d 0 outSize) as (s & Hjs & Hs).
  pose proof (join_size_bound _ _ _ _ Hjs) as Hb.
  rewrite map_map, map_id in Hb.
  rewrite Hjs. cbn [bind].
  by rewrite (proj2 (Z.ltb_lt s outSize)) by lia.
Qed.

(** With the size of the ciphertext the selection gives the ciphertext. *)
Lemma ReconstructChunk_original (chunk : Chunk) (ciphertext : list byte)
    (shards subset : list Shard) :
  ShardChunk chunk ciphertext = Ok shards ->
  NoDup subset ->
  (forall s, s ∈ subset -> s ∈ shards) ->
  4 <= len subset ->
  ReconstructChunk subset (len ciphertext) = Ok ciphertext.
Proof.
  intros Hshard Hnd Hsub Hfour.
  pose proof Hshard as Hok. apply ShardChunk_Ok in Hok as (Hne & _ & _).
  assert (0 < len ciphertext) as Hpos.
  { unfold len. destruct ciphertext; [done | cbn; lia]. }
  rewrite (ReconstructChunk_selection chunk ciphertext shards subset) by done.
  destruct (perShard_bounds ciphertext Hne) as [Hn Hle].
  rewrite Join_encoded.
  - f_equal. unfold len. rewrite Nat2Z.id. by apply pieces_concat.
  - apply pieces_length.
  - rewrite concat_pieces_padded, len_app by done. unfold len. lia.
Qed.

(** X6.  [ReconstructChunk] trusts the size it is given.  For four or more
    distinct shards of a chunk, a size up to four times the shard size
    gives that many bytes of the ciphertext followed by its zero padding:
    a prefix of the ciphertext for a smaller size, the ciphertext and
    some zero bytes for a larger one.  A size beyond four times the shard
    size is the join error. *)
Theorem ReconstructChunk_any_size (chunk : Chunk) (ciphertext : list byte)
    (shards subset : list Shard) (dataSize : Z) :
  ShardChunk chunk ciphertext = Ok shards ->
  NoDup subset ->
  (forall s, s ∈ subset -> s ∈ shards) ->
  4 <= len subset ->
  0 < dataSize ->
  let padded := 4 * ((len ciphertext + 3) / 4) in
  (dataSize <= padded ->
     ReconstructChunk subset dataSize
     = Ok (take (Z.to_nat dataSize)
             (ciphertext ++ replicate (Z.to_nat (padded - len ciphertext)) x00)))
  /\ (padded < dataSize ->
      ReconstructChunk subset dataSize = Err (FailedToJoin ErrShortData)).
Proof.
  intros Hshard Hnd Hsub Hfour Hpos padded.
  rewrite (ReconstructChunk_selection chunk ciphertext shards subset dataSize)
    by done.
  apply ShardChunk_Ok in Hshard as (Hne & _ & _).
  pose proof (pieces_length ciphertext) as Hd.
  pose proof (concat_pieces_padded ciphertext Hne) as Hcat.
  destruct (perShard_bounds ciphertext Hne) as [Hn Hle].
  assert (Hpad : padded = 4 * Z.of_nat (perShard ciphertext)).
  { unfold padded, perShard, len. rewrite Nat2Z.inj_div. do 2 f_equal. lia. }
  clearbody padded. subst padded.
  assert (Hlen : len (concat (pieces ciphertext))
                 = 4 * Z.of_nat (perShard ciphertext)).
  { rewrite Hcat, len_app. unfold len. rewrite length_replicate. lia. }
  split; intros Hsize.
  - rewrite Join_encoded; [| done | by rewrite Hlen].
    rewrite Hcat. do 4 f_equal. unfold len. lia.
  - rewrite Join_short; [done | done | by rewrite Hlen].
Qed.

Lemma ReconstructChunk_any_size_witness :
  let ciphertext := [x68; x65; x6c; x6c; x6f] in
  let chunk := mkChunk 3 ciphertext EmptyString 5 in
  exists shards,
    ShardChunk chunk ciphertext = Ok shards
    /\ ReconstructChunk (pick [5; 2; 4; 3]%nat shards) 2 = Ok [x68; x65]
    /\ ReconstructChunk (pick [5; 2; 4; 3]%nat shards) 9
       = Err (FailedToJoin ErrShortData).
Proof.
  intros ciphertext chunk.
  destruct (ShardChunk chunk ciphertext) as [shards |] eqn:E;
    [| vm_compute in E; discriminate].
  exists shards. split; [done |].
  assert (Hnd : NoDup (pick [5; 2; 4; 3]%nat shards)).
  { apply (NoDup_fmap_1 Shard_ShardIndex).
    vm_compute in E. injection E as <-. vm_compute.
    repeat constructor; rewrite ?elem_of_cons, ?elem_of_nil; intuition lia. }
  assert (Hsub : forall s, s ∈ pick [5; 2; 4; 3]%nat shards -> s ∈ shards).
  { vm_compute in E. injection E as <-. intros s Hs.
    unfold pick in Hs. cbn [omap list_omap lookup list_lookup] in Hs.
    rewrite !elem_of_cons, elem_of_nil in Hs. rewrite !elem_of_cons.
    intuition subst; auto. }
  assert (Hfour : 4 <= len (pick [5; 2; 4; 3]%nat shards)).
  { vm_compute in E. injection E as <-. vm_compute. discriminate. }
  split.
  - apply (ReconstructChunk_any_size chunk ciphertext shards _ 2 E Hnd Hsub Hfour);
      [lia | vm_compute; discriminate].
  - apply (ReconstructChunk_any_size chunk ciphertext shards _ 9 E Hnd Hsub Hfour);
      [lia | vm_compute; reflexivity].
Defined.

End shards_more.

(** ** A replaced shard and the parity check *)

Section parity_check.
Import reedsolomon chunker.

Lemma bxor_cancel_l (a b c : byte) : bxor a b = bxor a c -> b = c.
Proof.
  intros H. apply (f_equal (bxor a)) in H.
  by rewrite !bxor_assoc, bxor_nilpotent, !bxor_0_l in H.
Qed.

Lemma bxor_cancel_r (a b c : byte) : bxor b a = bxor c a -> b = c.
Proof. rewrite !(bxor_comm _ a). apply bxor_cancel_l. Qed.

Lemma galMultiply_inverse_check (c : byte) :
  forallb (fun z => bool_decide (galMultiply (galInverse c) (galMultiply c z) = z))
          all_bytes = true ->
  forall z, galMultiply (galInverse c) (galMultiply c z) = z.
Proof. intros H z. exact (bool_decide_eq_true_1 _ (byte_forall _ H z)). Qed.

(** Multiplication by a coefficient of the first parity row is
    injective. *)
Lemma galMultiply_cancel (c x y : byte) :
  c ∈ [x1b; x1c; x12; x14] -> galMultiply c x = galMultiply c y -> x = y.
Proof.
  intros Hc H.
  assert (Hinv : forall z, galMultiply (galInverse c) (galMultiply c z) = z).
  { rewrite !elem_of_cons, elem_of_nil in Hc.
    destruct Hc as [-> | [-> | [-> | [-> | []]]]];
      apply galMultiply_inverse_check; vm_compute; reflexivity. }
  by rewrite <- (Hinv x), <- (Hinv y), H.
Qed.

Lemma list_differ (l1 l2 : list byte) :
  length l1 = length l2 -> l1 <> l2 ->
  exists p x y, l1 !! p = Some x /\ l2 !! p = Some y /\ x <> y.
Proof.
  revert l2. induction l1 as [| a l1 IH]; intros [| b l2] Hlen Hne; try done.
  destruct (decide (a = b)) as [-> | Hab].
  - destruct (IH l2) as (p & x & y & ? & ? & ?); [by injection Hlen | congruence |].
    by exists (S p), x, y.
  - by exists 0%nat, a, b.
Qed.

#[local] Opaque codeShard sha256.Sum256 hex.EncodeToString.

(** Changing one data shard changes the first parity shard. *)
Lemma parity_changes (d : list (list byte)) (n k : nat) (other : list byte) :
  length d = 4%nat -> Forall (fun x => length x = n) d ->
  (k < 4)%nat -> length other = n -> other <> nth k d [] ->
  codeShard [x1b; x1c; x12; x14] (<[k := other]> d) n
  <> codeShard [x1b; x1c; x12; x14] d n.
Proof.
  intros Hd Hall Hk Hlen Hne Heq.
  assert (Hk' : nth k d [] ∈ d).
  { apply list_elem_of_In, nth_In. lia. }
  rewrite Forall_forall in Hall. pose proof (Hall _ Hk') as Hlk.
  destruct (list_differ other (nth k d [])) as (p & x & y & Hx & Hy & Hxy);
    [lia | done |].
  assert (Hp : (p < n)%nat) by (apply lookup_lt_Some in Hx; lia).
  assert (Hall' : Forall (fun x => length x = n) (<[k := other]> d)).
  { apply Forall_insert; [| done]. by apply Forall_forall. }
  pose proof (codeShard_lookup [x1b; x1c; x12; x14] (<[k := other]> d) n p
                Hall' Hp) as H1.
  pose proof (codeShard_lookup [x1b; x1c; x12; x14] d n p
                ltac:(by apply Forall_forall) Hp) as H2.
  rewrite Heq, H2 in H1. injection H1 as H1.
  apply Hxy.
  destruct d as [| d0 [| d1 [| d2 [| d3 [| ? ?]]]]]; try done.
  destruct k as [| [| [| [| k]]]]; [.. | lia];
    cbn [nth] in Hy; unfold column in H1;
    cbn [list_insert insert map nth] in H1;
    rewrite (nth_lookup_Some _ _ x00 _ Hx), (nth_lookup_Some _ _ x00 _ Hy) in H1;
    rewrite !dot_cons in H1.
  - apply bxor_cancel_r in H1.
    symmetry. apply (galMultiply_cancel x1b); [set_solver | done].
  - apply bxor_cancel_l, bxor_cancel_r in H1.
    symmetry. apply (galMultiply_cancel x1c); [set_solver | done].
  - do 2 apply bxor_cancel_l in H1. apply bxor_cancel_r in H1.
    symmetry. apply (galMultiply_cancel x12); [set_solver | done].
  - do 3 apply bxor_cancel_l in H1. apply bxor_cancel_r in H1.
    symmetry. apply (galMultiply_cancel x14); [set_solver | done].
Qed.

(** Six shards of equal length are left as they are by [Reconstruct],
    and fail [Verify] when they are the shards of a buffer with one of
    them replaced. *)
Lemma Reconstruct_full (E : list (list byte)) (n : nat) :
  length E = 6%nat -> Forall (fun x => length x = n) E -> (0 < n)%nat ->
  Reconstruct enc46 (map Some E) = Ok (map Some E).
Proof.
  intros HE Hall Hn.
  assert (Hlen : length (replicate 6 true) = length E) by (by rewrite HE).
  rewrite <- (mask_all (replicate 6 true) E) by done.
  unfold Reconstruct.
  assert (length (mask (replicate 6 true) E) = 6%nat) as Hml.
  { unfold mask. rewrite length_zip_with, HE. done. }
  rewrite Hml. change (totalShards enc46) with 6%nat.
  change (dataShards enc46) with 4%nat. cbn [Nat.eqb negb].
  unfold checkShards.
  rewrite (mask_shardSize n Hn) by done.
  rewrite (proj2 (Nat.eqb_neq n 0)) by lia.
  rewrite (mask_sizes n) by done. cbn [bind].
  by rewrite (mask_present n Hn) by done.
Qed.

Lemma Verify_replaced (d : list (list byte)) (n k : nat) (other : list byte) :
  length d = 4%nat -> Forall (fun x => length x = n) d -> (0 < n)%nat ->
  (k < 6)%nat -> length other = n -> other <> nth k (encoded d n) [] ->
  Verify enc46 (map Some (<[k := other]> (encoded d n))) = Ok false.
Proof.
  intros Hd Hall Hn Hk Hlen Hne.
  pose proof (encoded_length d n Hd) as HE6.
  pose proof (encoded_shard_length d n Hall) as HEn.
  assert (HEn' : Forall (fun x => length x = n) (<[k := other]> (encoded d n))).
  { by apply Forall_insert. }
  unfold Verify. rewrite length_map, length_insert, HE6.
  change (totalShards enc46) with 6%nat. change (dataShards enc46) with 4%nat.
  cbn [Nat.eqb negb].
  destruct (checkShards_full (<[k := other]> (encoded d n)) n false) as [-> ->];
    [| done | done |].
  { intros E. apply (f_equal length) in E. by rewrite length_insert, HE6 in E. }
  cbn [bind]. f_equal. apply bool_decide_eq_false_2.
  destruct (decide (k < 4)%nat) as [Hdata | Hpar].
  - (* a data shard was replaced: the parity shards are the old ones *)
    pose proof (parity_changes d n k other Hd Hall Hdata Hlen) as Hch.
    rewrite encoded_data in Hne by done. specialize (Hch Hne).
    intros Heq. apply Hch.
    unfold encoded in Heq |- *.
    destruct d as [| d0 [| d1 [| d2 [| d3 [| ? ?]]]]]; try done.
    destruct k as [| [| [| [| k]]]]; [.. | lia];
      cbn in Heq |- *; injection Heq as H1 _; congruence.
  - (* a parity shard was replaced: the data shards are the old ones *)
    intros Heq. apply Hne.
    unfold encoded in Heq |- *.
    destruct d as [| d0 [| d1 [| d2 [| d3 [| ? ?]]]]]; try done.
    destruct k as [| [| [| [| [| [| k]]]]]]; try lia;
      cbn in Heq |- *; by injection Heq.
Qed.

(** A shard with other data and the hash of that data. *)
Definition replaced (s : Shard) (other : list byte) : Shard :=
  mkShard (Shard_ChunkIndex s) (Shard_ShardIndex s) (Some other)
          (hex.EncodeToString (sha256.Sum256 other)) (len other).

(** X7.  When all six shards of a chunk are passed and one of them carries
    other data of the same length, with the hash of that data so that
    the hash check passes, [ReconstructChunk] rejects them by the parity
    check. *)
Theorem ReconstructChunk_replaced_shard (chunk : Chunk) (ciphertext : list byte)
    (shards : list Shard) (k : nat) (s : Shard) (other : list byte)
    (dataSize : Z) :
  ShardChunk chunk ciphertext = Ok shards ->
  shards !! k = Some s ->
  length other = length (slot_bytes (Shard_Data s)) ->
  other <> slot_bytes (Shard_Data s) ->
  0 < dataSize ->
  ReconstructChunk (<[k := replaced s other]> shards) dataSize
  = Err ReconstructedFailedVerification.
Proof.
  intros Hshard Hs Hlen Hne Hpos.
  apply ShardChunk_Ok in Hshard as (Hnil & _ & ->).
  set (d := pieces ciphertext) in *. set (n := perShard ciphertext) in *.
  destruct (perShard_bounds ciphertext Hnil) as [Hn _]. fold n in Hn.
  pose proof (pieces_shard_length ciphertext Hnil) as Hall. fold d n in Hall.
  pose proof (pieces_length ciphertext) as Hd. fold d in Hd.
  pose proof (encoded_length d n Hd) as HE6.
  pose proof (encoded_shard_length d n Hall) as HEn.
  rewrite list_lookup_fmap in Hs.
  destruct (seq 0 6 !! k) as [j |] eqn:Hj; [| done].
  apply lookup_seq in Hj as [-> Hk]. cbn [Nat.add] in Hs.
  change (Some (shard_at (Chunk_Index chunk) (encoded d n) k) = Some s) in Hs.
  injection Hs as <-.
  destruct (shard_at_fields (Chunk_Index chunk) (encoded d n) k)
    as (Hci & Hsi & HD & _).
  rewrite HD in Hlen, Hne.
  change (slot_bytes (Some (nth k (encoded d n) [])))
    with (nth k (encoded d n) []) in Hlen, Hne.
  assert (Hlk : length (nth k (encoded d n) []) = n).
  { rewrite Forall_forall in HEn. apply HEn, list_elem_of_In, nth_In. lia. }
  set (E' := <[k := other]> (encoded d n)).
  assert (HE' : <[k := replaced (shard_at (Chunk_Index chunk) (encoded d n) k) other]>
                  (map (shard_at (Chunk_Index chunk) (encoded d n)) (seq 0 6))
                = map (shard_at (Chunk_Index chunk) E') (seq 0 6)).
  { unfold E', replaced. rewrite Hci, Hsi.
    destruct (encoded d n) as [| e0 [| e1 [| e2 [| e3 [| e4 [| e5 [| ? ?]]]]]]];
      try done.
    by destruct k as [| [| [| [| [| [| k]]]]]]; [.. | lia]. }
  rewrite HE'.
  assert (HE'6 : length E' = 6%nat) by (unfold E'; by rewrite length_insert).
  unfold ReconstructChunk. change DataShards with 4.
  assert ((len (map (shard_at (Chunk_Index chunk) E') (seq 0 6)) <? 4) = false)
    as -> by done.
  rewrite (proj2 (Z.leb_gt _ _)) by lia.
  rewrite check_shards_Ok.
  2:{ apply Forall_forall. intros x Hx.
      apply elem_of_shards in Hx as (i & _ & ->).
      by destruct (shard_at_fields (Chunk_Index chunk) E' i) as (? & _ & _ & ?). }
  cbn [bind].
  change (New 4 ParityShards) with (New 4 2). rewrite New_4_2.
  change (Z.to_nat TotalShards) with 6%nat.
  assert (fill_shards (map (shard_at (Chunk_Index chunk) E') (seq 0 6))
                      (replicate 6 None) = Ok (map Some E')) as ->.
  { destruct E' as [| e0 [| e1 [| e2 [| e3 [| e4 [| e5 [| ? ?]]]]]]]; done. }
  cbn [bind].
  assert (Hother : length other = n) by congruence.
  rewrite (Reconstruct_full E' n);
    [| done | unfold E'; by apply Forall_insert | done].
  unfold E'. by rewrite Verify_replaced.
Qed.

Lemma ReconstructChunk_replaced_shard_witness :
  let ciphertext := [x68; x65; x6c; x6c; x6f] in
  let chunk := mkChunk 3 ciphertext EmptyString 5 in
  exists shards s,
    ShardChunk chunk ciphertext = Ok shards
    /\ shards !! 1%nat = Some s
    /\ ReconstructChunk (<[1%nat := replaced s [x00; x00]]> shards) 5
       = Err ReconstructedFailedVerification.
Proof.
  intros ciphertext chunk.
  destruct (ShardChunk chunk ciphertext) as [shards |] eqn:E;
    [| vm_compute in E; discriminate].
  pose proof E as E'. vm_compute in E'. injection E' as E'.
  destruct shards as [| s0 [| s1 rest]]; try discriminate.
  exists (s0 :: s1 :: rest), s1. split; [done |]. split; [done |].
  apply (ReconstructChunk_replaced_shard chunk ciphertext (s0 :: s1 :: rest) 1 s1
           [x00; x00] 5 E).
  - done.
  - injection E' as _ <- _. reflexivity.
  - injection E' as _ <- _. discriminate.
  - lia.
Defined.

End parity_check.

(** ** AssembleChunks and the whole pipeline *)

Section assemble_more.
Import chunker.

#[local] Opaque ChunkSize cs.

(** What [AssembleChunks] reads of a chunk. *)
Definition payload (c : Chunk) : Z * list byte := (Chunk_Index c, Chunk_Data c).

Lemma assemble_loop_payload (disk : Disk) (s1 s2 : list Chunk)
    (output : list byte) (received : list bool) (u total : Z) :
  map payload s1 = map payload s2 ->
  assemble_loop disk s1 output received u total
  = assemble_loop disk s2 output received u total.
Proof.
  revert s2 output received u.
  induction s1 as [| c1 s1 IH]; intros [| c2 s2] output received u H; try done.
  cbn [map] in H. injection H as Hi Hd Hrest.
  cbn [assemble_loop]. rewrite Hi, Hd.
  destruct ((Chunk_Index c2 <? 0) || (total <=? Chunk_Index c2)); [done |].
  destruct (nth (Z.to_nat (Chunk_Index c2)) received false); [by apply IH |].
  destruct (WriteAt disk output (Chunk_Data c2) _) as [output' [|]];
    [by apply IH | done].
Qed.

Lemma AssembleChunks_payload (disk : Disk) (s1 s2 : list Chunk)
    (fs : gmap string File) (outputPath : string) (totalChunks : Z) :
  map payload s1 = map payload s2 ->
  AssembleChunks disk s1 fs outputPath totalChunks
  = AssembleChunks disk s2 fs outputPath totalChunks.
Proof.
  intros H. unfold AssembleChunks.
  by rewrite (assemble_loop_payload disk s1 s2 _ _ _ _ H).
Qed.

(** X8.  [AssembleChunks] reads only the index and the data of a chunk: two
    streams that agree on these give the same file and the same result,
    on any disk, whatever hashes and sizes the chunks state.  In
    particular the assembler does not verify what it writes. *)
Theorem AssembleChunks_ignores_hash_and_size (disk : Disk) (s1 s2 : list Chunk)
    (fs : gmap string File) (outputPath : string) (totalChunks : Z) :
  map Chunk_Index s1 = map Chunk_Index s2 ->
  map Chunk_Data s1 = map Chunk_Data s2 ->
  AssembleChunks disk s1 fs outputPath totalChunks
  = AssembleChunks disk s2 fs outputPath totalChunks.
Proof.
  intros Hi Hd. apply AssembleChunks_payload.
  revert s2 Hi Hd. induction s1 as [| c1 s1 IH]; intros [| c2 s2] Hi Hd; try done.
  cbn [map] in *. injection Hi as Hi Hi'. injection Hd as Hd Hd'.
  unfold payload at 1 3. rewrite Hi, Hd. f_equal. by apply IH.
Qed.

Lemma AssembleChunks_ignores_hash_and_size_witness :
  AssembleChunks (mkDisk ∅ None) [mkChunk 0 [x61] "stated" 7] ∅ "out" 1
  = AssembleChunks (mkDisk ∅ None) [mkChunk 0 [x61] EmptyString 0] ∅ "out" 1.
Proof.
  apply AssembleChunks_ignores_hash_and_size; reflexivity.
Defined.

(** *** Chunks rebuilt from shards *)

(** The chunks of [content], each at least once and in any order,
    assembled with the number of chunks of [content]. *)
Lemma file_chunks_writable (disk : Disk) (content : list byte)
    (chunkStream : list Chunk) :
  has_room disk (len content) ->
  Forall (file_chunk content) chunkStream ->
  Forall (writable disk (Z.of_nat (chunk_count (length content)))) chunkStream.
Proof.
  intros Hroom Hall. apply Forall_forall. intros c Hc _.
  rewrite Forall_forall in Hall. destruct (Hall c Hc) as (i & Hi & ->).
  apply (has_room_le disk _ (len content)); [| done].
  unfold chunk_at. cbn [Chunk_Index Chunk_Data Nat.add].
  pose proof cs_pos. pose proof cs_ChunkSize as HCS.
  assert (0 < length content)%nat as Hn by (apply chunk_count_pos_inv; lia).
  destruct (chunk_count_bounds (length content) Hn) as (_ & Hlo & _).
  assert (i * cs <= (chunk_count (length content) - 1) * cs)%nat
    by (apply Nat.mul_le_mono_r; lia).
  unfold len. rewrite length_take, length_drop, <- HCS. lia.
Qed.

Lemma AssembleChunks_exact (disk : Disk) (fs : gmap string File)
    (outputPath : string) (content : list byte) (chunkStream : list Chunk) :
  len content < 2 ^ 63 ->
  creatable disk outputPath = true ->
  has_room disk (len content) ->
  (forall c, c ∈ chunkStream <->
     exists i, (i < chunk_count (length content))%nat /\ c = chunk_at content 0 i) ->
  AssembleChunks disk chunkStream fs outputPath
                 (Z.of_nat (chunk_count (length content)))
  = (<[outputPath := mkFile content false]> fs, Return None).
Proof.
  intros Hsize Hcreate Hroom Hmem.
  pose proof (chunk_count_limit (length content) Hsize) as Hk.
  pose proof (chunk_count_bounds (length content)) as Hbounds.
  pose proof (assemble_loop_agrees disk content Hsize Hroom chunkStream []
                (replicate (chunk_count (length content)) false) 0) as Hag.
  pose proof (file_chunks_writable disk content chunkStream Hroom) as Hwr.
  assert (forall c, file_chunk content c <->
            exists i, (i < chunk_count (length content))%nat
                      /\ c = chunk_at content 0 i) as Hfc by done.
  remember (chunk_count (length content)) as k eqn:Hkdef.
  assert (Forall (file_chunk content) chunkStream) as Hall.
  { apply Forall_forall. intros c Hc. apply Hfc. by apply Hmem. }
  assert (Forall (in_range (Z.of_nat k)) chunkStream) as Hrange.
  { apply Forall_forall. intros c Hc. apply Hmem in Hc as (i & Hi & ->).
    unfold in_range, chunk_at. cbn. lia. }
  assert (len (written (Z.of_nat k) chunkStream) = Z.of_nat k) as Hcount.
  { rewrite written_in_range by done. unfold len.
    rewrite <- size_list_to_set_dups. f_equal.
    transitivity (length (Z.of_nat <$> seq 0 k));
      [| by rewrite length_fmap, length_seq].
    rewrite <- (size_list_to_set (C := gset Z) (Z.of_nat <$> seq 0 k)).
    2:{ apply NoDup_fmap; [apply _ | apply NoDup_seq]. }
    f_equal. apply set_eq. intros j.
    rewrite !elem_of_list_to_set, !list_elem_of_fmap. split.
    - intros (c & -> & Hc). apply Hmem in Hc as (i & Hi & ->).
      exists i. split; [done |]. apply elem_of_seq. lia.
    - intros (i & -> & Hi). apply elem_of_seq in Hi.
      exists (chunk_at content 0 i). split; [done |].
      apply Hmem. exists i. split; [lia | done]. }
  pose proof (AssembleChunks_outcome disk chunkStream fs outputPath (Z.of_nat k)
                Hcreate ltac:(lia) (Hwr Hall)) as Hout.
  rewrite (proj2 (first_oob_None _ _) Hrange) in Hout. cbv zeta in Hout.
  rewrite Hcount, Z.eqb_refl in Hout.
  destruct (Hag Hall (length_replicate _ _)) as [Hlen Hag'].
  { split; [cbn; lia |]. intros p _ Hf.
    apply lookup_replicate in Hf as [? _]. done. }
  unfold AssembleChunks in *.
  rewrite os_Create_creatable in * by done.
  rewrite (proj2 (Z.ltb_ge _ _)) in * by lia.
  rewrite Nat2Z.id in *.
  destruct (assemble_loop disk chunkStream [] (replicate k false) 0 (Z.of_nat k))
    as [output r].
  cbn [fst] in Hlen, Hag'.
  assert (output = content) as ->.
  { apply list_eq. intros p.
    destruct (decide (p < length content)%nat) as [Hp | Hp].
    - apply Hag'; [done |]. right.
      apply list_elem_of_fmap. exists (chunk_at content 0 (p / cs)).
      split; [done |]. apply Hmem. exists (p / cs)%nat. split; [| done].
      pose proof cs_pos.
      destruct Hbounds as (_ & _ & Hhi); [lia |].
      apply Nat.Div0.div_lt_upper_bound. lia.
    - rewrite !lookup_ge_None_2; [done | lia | lia]. }
  destruct r as [u | e]; [| done].
  destruct (negb (u =? Z.of_nat k)); [done | done].
Qed.

(** The same for chunks that carry the index and the data of the chunks
    of [content], whatever else they state. *)
Lemma AssembleChunks_rebuilt (disk : Disk) (fs : gmap string File)
    (outputPath : string) (content : list byte) (rebuilt : list Chunk) :
  len content < 2 ^ 63 ->
  creatable disk outputPath = true ->
  has_room disk (len content) ->
  (forall r, r ∈ rebuilt ->
     exists i, (i < chunk_count (length content))%nat
               /\ payload r = payload (chunk_at content 0 i)) ->
  (forall i, (i < chunk_count (length content))%nat ->
     exists r, r ∈ rebuilt /\ Chunk_Index r = Z.of_nat i) ->
  AssembleChunks disk rebuilt fs outputPath
                 (Z.of_nat (chunk_count (length content)))
  = (<[outputPath := mkFile content false]> fs, Return None).
Proof.
  intros Hsize Hcreate Hroom Hfrom Hall.
  set (exact := map (fun r => chunk_at content 0 (Z.to_nat (Chunk_Index r)))
                    rebuilt).
  assert (Hidx : forall r, r ∈ rebuilt ->
            (Z.to_nat (Chunk_Index r) < chunk_count (length content))%nat
            /\ payload r = payload (chunk_at content 0 (Z.to_nat (Chunk_Index r)))).
  { intros r Hr. destruct (Hfrom r Hr) as (i & Hi & Hp).
    assert (Chunk_Index r = Z.of_nat i) as -> by (by injection Hp).
    by rewrite Nat2Z.id. }
  rewrite (AssembleChunks_payload disk rebuilt exact).
  2:{ unfold exact. rewrite map_map. apply List.map_ext_in.
      intros r Hr. apply list_elem_of_In in Hr. by apply Hidx. }
  apply AssembleChunks_exact; [done | done | done |].
  intros c. unfold exact. rewrite list_elem_of_fmap. split.
  - intros (r & -> & Hr). eexists. split; [| done]. by apply Hidx.
  - intros (i & Hi & ->). destruct (Hall i Hi) as (r & Hr & Hri).
    exists r. split; [| done]. by rewrite Hri, Nat2Z.id.
Qed.

(** X9.  The chunks of a readable file can be sharded as they are, and any
    four of the six shards of a chunk give back its data.  Chunks rebuilt
    that way, delivered in any order with every index at least once, are
    assembled into a copy of the file, on a disk where the output file
    can be created and that has room for it. *)
Theorem chunk_shard_reconstruct_assemble (disk : Disk)
    (fs : gmap string File) (filePath outputPath : string) (content : list byte) :
  fs !! filePath = Some (mkFile content false) ->
  len content < 2 ^ 63 ->
  creatable disk outputPath = true ->
  has_room disk (len content) ->
  let chunks := Result_Chunk <$> StreamChunkFile fs filePath in
  (forall c, c ∈ chunks ->
     exists shards,
       ShardChunk c (Chunk_Data c) = Ok shards
       /\ forall subset,
            NoDup subset -> (forall s, s ∈ subset -> s ∈ shards) ->
            4 <= len subset ->
            ReconstructChunk subset (Chunk_Size c) = Ok (Chunk_Data c))
  /\ (forall rebuilt : list Chunk,
        (forall r, r ∈ rebuilt ->
           exists c, c ∈ chunks /\ Chunk_Index r = Chunk_Index c
                     /\ Chunk_Data r = Chunk_Data c) ->
        (forall c, c ∈ chunks ->
           exists r, r ∈ rebuilt /\ Chunk_Index r = Chunk_Index c) ->
        AssembleChunks disk rebuilt fs outputPath (len chunks)
        = (<[outputPath := mkFile content false]> fs, Return None)).
Proof.
  intros Hopen Hsize Hcreate Hroom chunks.
  pose proof cs_pos as Hcs.
  assert (Hchunks : chunks = map (chunk_at content 0)
                                 (seq 0 (chunk_count (length content)))).
  { unfold chunks.
    rewrite (StreamChunkFile_closed fs filePath content Hopen Hsize).
    by rewrite <- list_fmap_compose. }
  assert (Hmem : forall c, c ∈ chunks <->
            exists i, (i < chunk_count (length content))%nat
                      /\ c = chunk_at content 0 i).
  { intros c. rewrite Hchunks, list_elem_of_fmap. split.
    - intros (i & -> & Hi). apply elem_of_seq in Hi. exists i. split; [lia | done].
    - intros (i & Hi & ->). exists i. split; [done |]. apply elem_of_seq. lia. }
  clearbody chunks. split.
  - intros c Hc. apply Hmem in Hc as (i & Hi & ->).
    assert (0 < length content)%nat as Hn by (apply chunk_count_pos_inv; lia).
    destruct (chunk_count_bounds (length content) Hn) as (_ & Hlo & _).
    assert (i * cs <= (chunk_count (length content) - 1) * cs)%nat
      by (apply Nat.mul_le_mono_r; lia).
    set (data := take cs (drop (i * cs) content)).
    assert (Hdata : Chunk_Data (chunk_at content 0 i) = data) by done.
    assert (Hcsize : Chunk_Size (chunk_at content 0 i) = len data) by done.
    assert (Hne : data <> []).
    { intros E. apply (f_equal length) in E. unfold data in E.
      rewrite length_take, length_drop in E. cbn in E. lia. }
    rewrite Hdata, Hcsize.
    destruct (ShardChunk_defined (chunk_at content 0 i) data) as [shards Hs];
      [done | done |].
    exists shards. split; [done |]. intros subset Hnd Hsub Hfour.
    by apply (ReconstructChunk_original (chunk_at content 0 i) data shards).
  - intros rebuilt Hfrom Hall.
    assert (len chunks = Z.of_nat (chunk_count (length content))) as ->.
    { rewrite Hchunks. unfold len. by rewrite length_map, length_seq. }
    apply AssembleChunks_rebuilt; [done | done | done | |].
    + intros r Hr. destruct (Hfrom r Hr) as (c & Hc & Hi & Hd).
      apply Hmem in Hc as (i & Hlt & ->). exists i. split; [done |].
      unfold payload. by rewrite Hi, Hd.
    + intros i Hi. destruct (Hall (chunk_at content 0 i)) as (r & Hr & Hri).
      { apply Hmem. by exists i. }
      exists r. split; [done |]. by rewrite Hri.
Qed.

(** A file of three bytes: its chunk rebuilt from shards 5, 2, 4 and 3
    and assembled. *)
Lemma chunk_shard_reconstruct_assemble_witness :
  let content := [x61; x62; x63] in
  let fs : gmap string File := {[ "a.bin"%string := mkFile content false ]} in
  AssembleChunks (mkDisk ∅ (Some 3)) [mkChunk 0 content EmptyString 3] fs "b.bin"
                 (len (Result_Chunk <$> StreamChunkFile fs "a.bin"))
  = (<["b.bin"%string := mkFile content false]> fs, Return None).
Proof.
  intros content fs.
  destruct (chunk_shard_reconstruct_assemble (mkDisk ∅ (Some 3)) fs "a.bin"
              "b.bin" content)
    as [_ H];
    [reflexivity | vm_compute; reflexivity | reflexivity
     | vm_compute; discriminate |].
  assert (Hs : Result_Chunk <$> StreamChunkFile fs "a.bin"
               = [mkChunk 0 content
                    (hex.EncodeToString (sha256.Sum256 content)) 3])
    by (vm_compute; reflexivity).
  apply H; rewrite Hs; clear Hs H.
  - intros r Hr. apply list_elem_of_singleton in Hr as ->.
    eexists. split; [apply list_elem_of_singleton; reflexivity |].
    split; reflexivity.
  - intros c Hc. apply list_elem_of_singleton in Hc as ->.
    eexists. split; [apply list_elem_of_singleton; reflexivity |].
    reflexivity.
Defined.

(** *** The file left by an incomplete delivery *)

(** X10.  When only some of the chunks of a file are delivered, in any order,
    on a disk where the output file can be created and that has room for
    the file, the call fails with the incomplete-file error, yet the
    output file it leaves is no longer than the source and holds the
    bytes of the source at every position of a delivered chunk. *)
Theorem AssembleChunks_partial_file (disk : Disk)
    (fs : gmap string File) (outputPath : string) (content : list byte)
    (chunkStream : list Chunk) :
  len content < 2 ^ 63 ->
  creatable disk outputPath = true ->
  has_room disk (len content) ->
  let total := (len content + ChunkSize - 1) / ChunkSize in
  (forall c, c ∈ chunkStream ->
     0 <= Chunk_Index c < total
     /\ Chunk_Data c
        = take (Z.to_nat ChunkSize)
               (drop (Z.to_nat (Chunk_Index c * ChunkSize)) content)) ->
  (exists i, 0 <= i < total /\ i ∉ Chunk_Index <$> chunkStream) ->
  exists output delivered,
    AssembleChunks disk chunkStream fs outputPath total
    = (<[outputPath := mkFile output false]> fs,
       Return (Some (IncompleteFile total delivered)))
    /\ 0 <= delivered < total
    /\ len output <= len content
    /\ forall c (p : nat), c ∈ chunkStream ->
         Chunk_Index c * ChunkSize <= Z.of_nat p
           < Chunk_Index c * ChunkSize + len (Chunk_Data c) ->
         output !! p = content !! p.
Proof.
  intros Hsize Hcreate Hroom total Hfrom [missing [Hmr Hmiss]].
  pose proof cs_pos as Hcs. pose proof cs_ChunkSize as HCS.
  pose proof (chunk_count_limit (length content) Hsize) as Hk.
  assert (Htotal : total = Z.of_nat (chunk_count (length content))).
  { unfold total, chunk_count, len. rewrite <- HCS.
    rewrite Nat2Z.inj_div. f_equal. lia. }
  clearbody total. subst total.
  pose proof (assemble_loop_agrees disk content Hsize Hroom) as Hag.
  pose proof (file_chunks_writable disk content) as Hwr.
  assert (forall c, file_chunk content c <->
            exists i, (i < chunk_count (length content))%nat
                      /\ c = chunk_at content 0 i) as Hfc by done.
  remember (chunk_count (length content)) as k eqn:Hkdef.
  (* the chunks written are those of the file, up to hash and size *)
  set (exact := map (fun r => chunk_at content 0 (Z.to_nat (Chunk_Index r)))
                    chunkStream).
  assert (Hidx : forall r, r ∈ chunkStream ->
            (Z.to_nat (Chunk_Index r) < k)%nat
            /\ payload r = payload (chunk_at content 0 (Z.to_nat (Chunk_Index r)))).
  { intros r Hr. destruct (Hfrom r Hr) as (Hi & Hd). split; [lia |].
    unfold payload, chunk_at. cbn [Chunk_Index Chunk_Data Nat.add].
    rewrite Hd, Z2Nat.id by lia.
    rewrite <- HCS, Z2Nat.inj_mul, !Nat2Z.id by lia. reflexivity. }
  assert (Hpay : map payload chunkStream = map payload exact).
  { unfold exact. rewrite map_map. apply List.map_ext_in.
    intros r Hr. apply list_elem_of_In in Hr. by apply Hidx. }
  assert (Hindices : Chunk_Index <$> exact = Chunk_Index <$> chunkStream).
  { apply (f_equal (map fst)) in Hpay. by rewrite !map_map in Hpay. }
  rewrite (AssembleChunks_payload disk chunkStream exact _ _ _ Hpay).
  assert (Hall : Forall (file_chunk content) exact).
  { apply Forall_forall. intros c Hc. unfold exact in Hc.
    apply list_elem_of_fmap in Hc as (r & -> & Hr).
    apply Hfc. eexists. split; [| reflexivity]. by apply Hidx. }
  assert (Hrange : Forall (in_range (Z.of_nat k)) exact).
  { apply Forall_forall. intros c Hc.
    rewrite Forall_forall in Hall. apply Hall, Hfc in Hc as (i & Hi & ->).
    unfold in_range, chunk_at. cbn [Chunk_Index]. lia. }
  (* the count *)
  assert (Hcount : len (written (Z.of_nat k) exact) < Z.of_nat k).
  { rewrite written_in_range by exact Hrange. unfold len.
    rewrite <- size_list_to_set_dups.
    assert (list_to_set (Chunk_Index <$> exact)
              ⊆ (list_to_set (Z.of_nat <$> seq 0 k) : gset Z) ∖ {[missing]})
      as Hsub.
    { intros j Hj. apply elem_of_list_to_set in Hj.
      apply elem_of_difference. split.
      - apply elem_of_list_to_set.
        apply list_elem_of_fmap in Hj as (c & -> & Hc).
        rewrite Forall_forall in Hrange. specialize (Hrange c Hc).
        unfold in_range in Hrange.
        apply list_elem_of_fmap. exists (Z.to_nat (Chunk_Index c)).
        split; [lia |]. apply elem_of_seq. lia.
      - rewrite Hindices in Hj. intros Hm.
        apply elem_of_singleton in Hm. subst j. by apply Hmiss. }
    apply subseteq_size in Hsub.
    rewrite size_difference in Hsub.
    2:{ apply singleton_subseteq_l, elem_of_list_to_set, list_elem_of_fmap.
        exists (Z.to_nat missing). split; [lia |]. apply elem_of_seq. lia. }
    rewrite size_singleton,
      (size_list_to_set (C := gset Z) (Z.of_nat <$> seq 0 k)) in Hsub.
    2:{ apply NoDup_fmap; [apply _ | apply NoDup_seq]. }
    rewrite length_fmap, length_seq in Hsub. lia. }
  pose proof (AssembleChunks_outcome disk exact fs outputPath (Z.of_nat k)
                Hcreate ltac:(lia) (Hwr exact Hroom Hall)) as Hout.
  rewrite (proj2 (first_oob_None _ _) Hrange) in Hout. cbv zeta in Hout.
  rewrite (proj2 (Z.eqb_neq _ _)) in Hout by lia.
  (* the file *)
  destruct (Hag exact [] (replicate k false) 0 Hall (length_replicate _ _))
    as [Hlen Hag'].
  { split; [cbn [length]; lia |]. intros p _ Hf.
    apply lookup_replicate in Hf as [Hf _]. discriminate Hf. }
  clear Hag Hwr Hfc Hall Hpay.
  unfold AssembleChunks in *.
  rewrite os_Create_creatable in * by exact Hcreate.
  rewrite (proj2 (Z.ltb_ge _ _)) in * by lia.
  rewrite Nat2Z.id in *.
  destruct (assemble_loop disk exact [] (replicate k false) 0 (Z.of_nat k))
    as [output r].
  cbn [fst] in Hlen, Hag'.
  exists output, (len (written (Z.of_nat k) exact)).
  split.
  { destruct r as [u | e].
    - destruct (negb (u =? Z.of_nat k)); cbn [snd] in Hout;
        [by rewrite Hout | discriminate Hout].
    - cbn [snd] in Hout. by rewrite Hout. }
  split; [pose proof (len_nonneg (written (Z.of_nat k) exact)); lia |].
  split; [unfold len; lia |].
  intros c p Hc Hp.
  destruct (Hidx c Hc) as [Hi Hpl].
  assert (Hd : Chunk_Data c = take cs (drop (Z.to_nat (Chunk_Index c) * cs) content)).
  { unfold payload, chunk_at in Hpl. cbn [Chunk_Index Chunk_Data Nat.add] in Hpl.
    by injection Hpl. }
  destruct (Hfrom c Hc) as [Hci _].
  rewrite Hd in Hp. unfold len in Hp. rewrite length_take, length_drop in Hp.
  rewrite <- HCS in Hp.
  set (i := Z.to_nat (Chunk_Index c)) in *.
  assert (Hci' : Chunk_Index c = Z.of_nat i) by (unfold i; lia).
  rewrite Hci' in Hp. clearbody i.
  assert (Hpos : (i * cs <= p < S i * cs)%nat) by lia.
  assert (Hpn : (p < length content)%nat) by lia.
  apply Hag'; [exact Hpn |]. right.
  apply (div_cs_eq content) in Hpos. rewrite Hpos.
  rewrite Hindices. apply list_elem_of_fmap. exists c. by split.
Qed.

(** A file of one byte of which nothing is delivered. *)
Lemma AssembleChunks_partial_file_witness :
  exists output delivered,
    AssembleChunks (mkDisk ∅ (Some 1)) [] ∅ "out"
                   ((len [x61] + ChunkSize - 1) / ChunkSize)
    = (<["out"%string := mkFile output false]> ∅,
       Return (Some (IncompleteFile ((len [x61] + ChunkSize - 1) / ChunkSize)
                                    delivered)))
    /\ 0 <= delivered < (len [x61] + ChunkSize - 1) / ChunkSize
    /\ len output <= len [x61].
Proof.
  assert (Htotal : (len [x61] + ChunkSize - 1) / ChunkSize = 1).
  { rewrite ChunkSize_eq. reflexivity. }
  destruct (AssembleChunks_partial_file (mkDisk ∅ (Some 1)) ∅ "out" [x61] [])
    as (output & delivered & H1 & H2 & H3 & _).
  - reflexivity.
  - reflexivity.
  - vm_compute. discriminate.
  - intros c Hc. by apply elem_of_nil in Hc.
  - exists 0. rewrite Htotal. split; [lia |]. apply not_elem_of_nil.
  - by exists output, delivered.
Defined.

End assemble_more.

(** ** The key, the chunk hashes and the file hash of a manifest *)

Section manifest_more.
Import manifest.

#[local] Opaque chunker.ChunkSize cs.





(** *** GetChunkHash *)

Lemma chunk_hash_first (chunks : list ChunkMeta) (index : Z) :
  (exists pre c post,
      chunks = pre ++ c :: post
      /\ Forall (fun p => ChunkMeta_Index p <> index) pre
      /\ ChunkMeta_Index c = index
      /\ chunk_hash chunks index = ChunkMeta_Hash c)
  \/ (Forall (fun p => ChunkMeta_Index p <> index) chunks
      /\ chunk_hash chunks index = EmptyString).
Proof.
  induction chunks as [| c chunks IH]; [right; by split |].
  cbn [chunk_hash].
  destruct (ChunkMeta_Index c =? index) eqn:E.
  - apply Z.eqb_eq in E. left. exists [], c, chunks. by repeat split.
  - apply Z.eqb_neq in E.
    destruct IH as [(pre & c' & post & -> & Hpre & Hc & Hh) | [Hall Hh]].
    + left. exists (c :: pre), c', post. repeat split; [| done | done].
      by constructor.
    + right. split; [by constructor | done].
Qed.

(** X12.  [GetChunkHash] returns the hash of the first chunk record that
    carries the index, and the empty string if no record carries it;
    where the records carry pairwise distinct indices, every record is
    found by its index. *)
Theorem GetChunkHash_first_record (m : Manifest) (index : Z) :
  ((exists pre c post,
       Chunks m = pre ++ c :: post
       /\ Forall (fun p => ChunkMeta_Index p <> index) pre
       /\ ChunkMeta_Index c = index
       /\ GetChunkHash m index = ChunkMeta_Hash c)
   \/ (Forall (fun p => ChunkMeta_Index p <> index) (Chunks m)
       /\ GetChunkHash m index = EmptyString))
  /\ (NoDup (ChunkMeta_Index <$> Chunks m) ->
      forall c, c ∈ Chunks m -> ChunkMeta_Index c = index ->
                GetChunkHash m index = ChunkMeta_Hash c).
Proof.
  split; [apply chunk_hash_first |].
  intros Hnd c Hc Hi. unfold GetChunkHash.
  destruct (chunk_hash_first (Chunks m) index)
    as [(pre & c' & post & Heq & Hpre & Hc' & ->) | [Hall _]].
  - rewrite Heq in Hc, Hnd.
    apply list_elem_of_lookup in Hc as [i Hi'].
    assert (Hj : (pre ++ c' :: post) !! length pre = Some c')
      by (by rewrite list_lookup_middle).
    assert (i = length pre) as ->.
    { eapply (NoDup_lookup _ _ _ index Hnd);
        rewrite list_lookup_fmap; [rewrite Hi' | rewrite Hj]; cbn; congruence. }
    congruence.
  - rewrite Forall_forall in Hall. by destruct (Hall c Hc).
Qed.

(** *** CalculateFileHash *)

(** X13.  For a file that fits one chunk, the hash of the file is the hash of
    its chunk: [CalculateFileHash] returns the hash that
    [StreamChunkFile] puts on the only chunk it sends, and the content
    passes [VerifyChunk] with it.  For a path that cannot be opened both
    report an error. *)
Theorem CalculateFileHash_one_chunk (fs : gmap string chunker.File)
    (filePath : string) :
  (forall content,
     fs !! filePath = Some (chunker.mkFile content false) ->
     0 < len content <= chunker.ChunkSize ->
     exists hash,
       CalculateFileHash fs filePath = Ok hash
       /\ chunker.StreamChunkFile fs filePath
          = [chunker.mkChunkResult (chunker.mkChunk 0 content hash (len content))
                                   None]
       /\ chunker.VerifyChunk content hash = true)
  /\ (fs !! filePath = None ->
      CalculateFileHash fs filePath = Err FailedToReadFile
      /\ chunker.StreamChunkFile fs filePath
         = [chunker.mkChunkResult chunker.zeroChunk
                                  (Some chunker.FailedToOpenFile)]).
Proof.
  split.
  - intros content Hopen [Hpos Hmax].
    exists (hex.EncodeToString (sha256.Sum256 content)).
    split; [unfold CalculateFileHash; by rewrite Hopen |].
    split; [| unfold chunker.VerifyChunk; by apply bool_decide_eq_true_2].
    pose proof cs_pos as Hcs. pose proof cs_ChunkSize as HCS.
    unfold len in Hpos, Hmax. rewrite <- HCS in Hmax.
    rewrite (StreamChunkFile_closed fs filePath content Hopen).
    2:{ unfold len. pose proof ChunkSize_eq as E. rewrite <- HCS in E. lia. }
    assert (chunk_count (length content) = 1%nat) as ->.
    { destruct (chunk_count_bounds (length content)) as (H0 & Hlo & _); [lia |].
      destruct (chunk_count (length content)) as [| [| k]]; [lia | done |].
      exfalso. revert Hlo. generalize cs Hmax. intros c Hc Hlo.
      assert (c <= (S (S k) - 1) * c)%nat by (cbn; lia). lia. }
    cbn [seq map]. unfold chunk_at. cbn [Nat.mul Nat.add].
    rewrite drop_0, take_ge by lia. reflexivity.
  - intros Hnone. unfold CalculateFileHash, chunker.StreamChunkFile.
    by rewrite Hnone.
Qed.

Lemma CalculateFileHash_one_chunk_witness :
  let fs : gmap string chunker.File :=
    {[ "a.bin"%string := chunker.mkFile [x61; x62; x63] false ]} in
  exists hash,
    CalculateFileHash fs "a.bin" = Ok hash
    /\ chunker.StreamChunkFile fs "a.bin"
       = [chunker.mkChunkResult (chunker.mkChunk 0 [x61; x62; x63] hash 3) None]
    /\ chunker.VerifyChunk [x61; x62; x63] hash = true.
Proof.
  intros fs.
  apply (proj1 (CalculateFileHash_one_chunk fs "a.bin") [x61; x62; x63]).
  - reflexivity.
  - vm_compute. split; [reflexivity | discriminate].
Defined.

End manifest_more.

(** ** DecryptChunk on other buffers *)

Section crypto_more.
Import chacha20poly1305 crypto.

(** X14.  A plaintext comes out of [DecryptChunk] only under a key of 32
    bytes and only from a buffer that is 40 bytes longer: the nonce and
    the tag.  Shorter buffers are refused: one that cannot hold the
    nonce as too short, one that holds the nonce but not the tag as
    failing the decryption. *)
Theorem DecryptChunk_Ok_inv (ciphertext key : list byte) :
  (forall plaintext,
     DecryptChunk ciphertext key = Returns (Ok plaintext) ->
     len key = 32 /\ len ciphertext = len plaintext + 40)
  /\ (len key = 32 -> len ciphertext < 24 ->
      DecryptChunk ciphertext key
      = Returns (Err (CiphertextTooShort 24 (len ciphertext))))
  /\ (len key = 32 -> 24 <= len ciphertext < 40 ->
      DecryptChunk ciphertext key = Returns (Err (DecryptionFailed ErrOpen))).
Proof.
  unfold DecryptChunk, NewX.
  change crypto.KeySize with 32. change chacha20poly1305.KeySize with 32.
  change NonceSizeX with 24. change (Z.to_nat 24) with 24%nat. cbv zeta.
  assert (Hdrop : 24 <= len ciphertext ->
            len (take 24 ciphertext) = 24
            /\ len (drop 24 ciphertext) = len ciphertext - 24).
  { unfold len. rewrite length_take, length_drop. lia. }
  split; [| split].
  - intros plaintext.
    destruct (len key =? 32) eqn:Hkey; cbn [negb]; [| done].
    apply Z.eqb_eq in Hkey.
    destruct (len ciphertext <? 24) eqn:Hlen; [done |].
    apply Z.ltb_ge in Hlen. destruct (Hdrop Hlen) as [Hn Hc].
    unfold Open. change NonceSizeX with 24. rewrite Hn. cbn [Z.eqb Pos.eqb negb].
    destruct (len (drop 24 ciphertext) <? 16) eqn:Htag; [done |].
    apply Z.ltb_ge in Htag.
    destruct (2 ^ 38 - 48 <? len (drop 24 ciphertext)); [done |].
    cbv zeta. destruct (bool_decide _); [| done].
    intros [= <-]. split; [done |]. cbn [app].
    unfold len in *. rewrite xorKeyStream_length, length_take. lia.
  - intros Hkey Hlen. rewrite Hkey. cbn [Z.eqb Pos.eqb negb].
    by rewrite (proj2 (Z.ltb_lt _ _)) by done.
  - intros Hkey Hlen. rewrite Hkey. cbn [Z.eqb Pos.eqb negb].
    rewrite (proj2 (Z.ltb_ge _ _)) by lia.
    destruct Hdrop as [Hn Hc]; [lia |].
    unfold Open. change NonceSizeX with 24. rewrite Hn. cbn [Z.eqb Pos.eqb negb].
    by rewrite (proj2 (Z.ltb_lt _ _)) by lia.
Qed.

(** What [Seal] appends: the ciphertext and its tag. *)
Lemma Seal_tag (c : AEAD) (dst nonce plaintext ad : list byte) :
  len nonce = NonceSizeX -> len plaintext <= 2 ^ 38 - 64 ->
  let k := inner_key c nonce in
  let n := inner_nonce nonce in
  let body := xorKeyStream k n 1 plaintext in
  Seal c dst nonce plaintext ad = Some (dst ++ body ++ tag k n ad body).
Proof.
  intros Hnonce Hsize. unfold Seal. rewrite Hnonce, Z.eqb_refl.
  cbn [negb]. by rewrite (proj2 (Z.ltb_ge _ _)) by lia.
Qed.

(** [Open] refuses a ciphertext that is followed by another tag. *)
Lemma Open_other_tag (c : AEAD) (nonce body other ad : list byte) :
  len nonce = NonceSizeX -> len body <= 2 ^ 38 - 64 ->
  length other = 16%nat ->
  other <> tag (inner_key c nonce) (inner_nonce nonce) ad body ->
  Open c [] nonce (body ++ other) ad = Some (Err ErrOpen).
Proof.
  intros Hnonce Hsize Hlen Hother. unfold Open. rewrite Hnonce, Z.eqb_refl.
  cbn [negb]. pose proof (len_nonneg body).
  assert (Ho : len other = 16) by (unfold len; lia).
  rewrite len_app, Ho.
  rewrite (proj2 (Z.ltb_ge _ _)) by lia.
  rewrite (proj2 (Z.ltb_ge _ _)) by lia.
  cbv zeta.
  assert (length (body ++ other) - 16 = length body)%nat as ->
    by (rewrite length_app; lia).
  rewrite take_app_length, drop_app_length.
  by rewrite bool_decide_eq_false_2 by congruence.
Qed.

(** X15.  A buffer made by [EncryptChunk] with one byte of its tag, the last
    16 bytes, changed is refused by [DecryptChunk]. *)
Theorem DecryptChunk_changed_tag (plaintext key entropy : list byte) :
  len key = 32 -> 24 <= len entropy -> len plaintext <= 2 ^ 38 - 64 ->
  exists ciphertext,
    EncryptChunk plaintext key entropy = Returns (Ok ciphertext)
    /\ forall (i : nat) (b : byte),
         len ciphertext - 16 <= Z.of_nat i < len ciphertext ->
         ciphertext !! i <> Some b ->
         DecryptChunk (<[i := b]> ciphertext) key
         = Returns (Err (DecryptionFailed ErrOpen)).
Proof.
  intros Hkey Hent Hsize. unfold EncryptChunk, NewX.
  change crypto.KeySize with 32. change chacha20poly1305.KeySize with 32.
  rewrite Hkey. cbn [Z.eqb Pos.eqb negb].
  unfold rand_Read. change (Z.to_nat NonceSizeX) with 24%nat.
  rewrite (proj2 (Nat.leb_le _ _)) by (unfold len in Hent; lia).
  set (nonce := take 24 entropy).
  assert (Hnonce : len nonce = NonceSizeX).
  { unfold nonce, len in *. rewrite length_take. change NonceSizeX with 24. lia. }
  rewrite (Seal_tag (mkAEAD key) nonce nonce plaintext [] Hnonce Hsize).
  cbv zeta.
  set (k := inner_key (mkAEAD key) nonce). set (n := inner_nonce nonce).
  set (body := xorKeyStream k n 1 plaintext).
  assert (Hbody : length body = length plaintext)
    by apply xorKeyStream_length.
  pose proof (tag_length k n [] body) as Htag.
  eexists. split; [reflexivity |].
  intros i b Hi Hb.
  assert (Hnl : length nonce = 24%nat).
  { unfold len in Hnonce. change NonceSizeX with 24 in Hnonce. lia. }
  unfold len in Hi. rewrite !length_app, Hnl, Hbody, Htag in Hi.
  set (j := (i - 24 - length body)%nat).
  assert (Hij : i = (length nonce + (length body + j))%nat) by lia.
  assert (Hj : (j < 16)%nat) by lia.
  rewrite Hij in Hb |- *.
  rewrite insert_app_r, insert_app_r.
  rewrite lookup_app_r, lookup_app_r in Hb by lia.
  replace (length nonce + (length body + j) - length nonce - length body)%nat
    with j in Hb by lia.
  unfold DecryptChunk, NewX.
  change crypto.KeySize with 32. change chacha20poly1305.KeySize with 32.
  rewrite Hkey. cbn [Z.eqb Pos.eqb negb]. cbv zeta.
  change NonceSizeX with 24 in *.
  rewrite len_app, (proj2 (Z.ltb_ge _ _))
    by (pose proof (len_nonneg (body ++ <[j := b]> (tag k n [] body))); lia).
  assert (Z.to_nat 24 = length nonce) as -> by lia.
  rewrite take_app_length, drop_app_length.
  rewrite Open_other_tag; [done | done | unfold len in *; lia
                           | by rewrite length_insert |].
  intros E. apply Hb. apply (f_equal (fun l => l !! j)) in E.
  rewrite list_lookup_insert_eq in E by lia. symmetry. exact E.
Qed.

(** The empty plaintext under the all-zero key, with the last byte of
    the buffer changed. *)
Lemma DecryptChunk_changed_tag_witness :
  exists ciphertext,
    EncryptChunk [] (replicate 32 x00) (replicate 24 x07) = Returns (Ok ciphertext)
    /\ forall (i : nat) (b : byte),
         len ciphertext - 16 <= Z.of_nat i < len ciphertext ->
         ciphertext !! i <> Some b ->
         DecryptChunk (<[i := b]> ciphertext) (replicate 32 x00)
         = Returns (Err (DecryptionFailed ErrOpen)).
Proof.
  apply DecryptChunk_changed_tag; vm_compute; congruence.
Defined.

End crypto_more.

(** ** The version of the chunker that works on slices *)

Section slices.
Import chunker.

Lemma v1_ChunkSize : chunker_v1.ChunkSize = ChunkSize.
Proof. reflexivity. Qed.

Lemma v1_size : Z.to_nat chunker_v1.ChunkSize = cs.
Proof. rewrite v1_ChunkSize. exact cs_unfold. Qed.

#[local] Opaque ChunkSize chunker_v1.ChunkSize cs.

Lemma chunk_loop_S (fuel : nat) (file : File) (held : list nat) (index : Z)
    (chunks : list Chunk) :
  chunker_v1.chunk_loop (S fuel) file held index chunks
  = let '(chunkData, err, file') := chunker_v1.Read file cs (hd 0%nat held) in
    let n := len chunkData in
    match err with
    | Some EOF => Ok chunks
    | Some _ => Err (chunker_v1.FailedToReadChunk index)
    | None =>
        let hash := sha256.Sum256 chunkData in
        let chunk := mkChunk index chunkData (hex.EncodeToString hash) n in
        chunker_v1.chunk_loop fuel file' (tl held) (wrap64 (index + 1))
                              (chunks ++ [chunk])
    end.
Proof. cbn [chunker_v1.chunk_loop]. by rewrite v1_size. Qed.

(** What the read loop makes of the bytes that are left, whatever the
    device holds back. *)
Lemma chunk_loop_any (fuel : nat) (data : list byte) (held : list nat)
    (base : nat) (acc : list Chunk) :
  (length data < fuel)%nat ->
  Z.of_nat base + len data < 2 ^ 63 ->
  exists new,
    chunker_v1.chunk_loop fuel (mkFile data false) held (Z.of_nat base) acc
    = Ok (acc ++ new)
    /\ concat (Chunk_Data <$> new) = data
    /\ Forall sound_chunk new
    /\ forall (i : nat) c, new !! i = Some c ->
         Chunk_Index c = Z.of_nat (base + i).
Proof.
  revert data held base acc.
  induction fuel as [| fuel IH]; intros data held base acc Hfuel Hidx; [lia |].
  pose proof cs_pos as Hcs. pose proof cs_ChunkSize as HCS.
  rewrite chunk_loop_S. unfold chunker_v1.Read. cbn [file_bytes file_fault].
  destruct data as [| b data'].
  { exists []. cbn [length Nat.eqb]. rewrite app_nil_r.
    split; [done |]. split; [done |]. split; [constructor |].
    intros i c Hc. by rewrite lookup_nil in Hc. }
  set (data := b :: data') in *.
  assert (Hlen : (0 < length data)%nat) by (cbn; lia).
  set (n := Nat.max 1 (Nat.min cs (length data) - hd 0%nat held)).
  assert (Hn : (1 <= n <= cs /\ n <= length data)%nat) by lia.
  destruct (Nat.eqb_spec (length data) 0) as [E | _]; [lia |].
  cbv zeta. rewrite wrap64_small by (unfold len in Hidx; lia).
  replace (Z.of_nat base + 1) with (Z.of_nat (S base)) by lia.
  destruct (IH (drop n data) (tl held) (S base)
               (acc ++ [mkChunk (Z.of_nat base) (take n data)
                          (hex.EncodeToString (sha256.Sum256 (take n data)))
                          (len (take n data))]))
    as (new & Hloop & Hcat & Hsound & Hind).
  { rewrite length_drop. lia. }
  { unfold len in *. rewrite length_drop. lia. }
  eexists (_ :: new). split; [| split; [| split]].
  - rewrite Hloop. by rewrite <- app_assoc.
  - cbn [fmap list_fmap concat Chunk_Data].
    fold (fmap (M := list) Chunk_Data new). rewrite Hcat. apply take_drop.
  - constructor; [| done]. unfold sound_chunk.
    cbn [Chunk_Size Chunk_Data Chunk_Hash]. split; [done |].
    split; [unfold len; rewrite length_take, <- HCS; lia |].
    unfold VerifyChunk. by apply bool_decide_eq_true_2.
  - intros [| i] c Hc.
    + injection Hc as <-. cbn [Chunk_Index]. f_equal. lia.
    + cbn in Hc. rewrite (Hind i c Hc). f_equal. lia.
Qed.

(** With complete reads the loop cuts the file every [ChunkSize]
    bytes. *)
Lemma chunk_loop_closed (fuel : nat) (data : list byte) (base : nat)
    (acc : list Chunk) :
  (length data < fuel)%nat ->
  Z.of_nat base + len data < 2 ^ 63 ->
  chunker_v1.chunk_loop fuel (mkFile data false) [] (Z.of_nat base) acc
  = Ok (acc ++ map (chunk_at data base) (seq 0 (chunk_count (length data)))).
Proof.
  revert data base acc.
  induction fuel as [| fuel IH]; intros data base acc Hfuel Hidx; [lia |].
  pose proof cs_pos as Hcs.
  rewrite chunk_loop_S. unfold chunker_v1.Read. cbn [file_bytes file_fault hd tl].
  rewrite Nat.sub_0_r.
  destruct (Nat.eqb_spec (length data) 0) as [E | Hne].
  { rewrite E, chunk_count_0. cbn [seq map]. by rewrite app_nil_r. }
  assert (Nat.max 1 (Nat.min cs (length data)) = Nat.min cs (length data)) as ->
    by lia.
  assert (take (Nat.min cs (length data)) data = take cs data) as Htake.
  { destruct (decide (cs <= length data)%nat).
    - by rewrite Nat.min_l by lia.
    - rewrite Nat.min_r by lia. by rewrite !take_ge by lia. }
  assert (drop (Nat.min cs (length data)) data = drop cs data) as Hdrop.
  { destruct (decide (cs <= length data)%nat).
    - by rewrite Nat.min_l by lia.
    - rewrite Nat.min_r by lia. by rewrite !drop_ge by lia. }
  rewrite Htake, Hdrop. cbv zeta.
  rewrite wrap64_small by (unfold len in Hidx; lia).
  replace (Z.of_nat base + 1) with (Z.of_nat (S base)) by lia.
  rewrite IH; [| rewrite length_drop; lia
               | unfold len in *; rewrite length_drop; lia].
  rewrite <- app_assoc. do 2 f_equal. cbn [app].
  destruct (decide (cs <= length data)%nat) as [Hfull | Hshort].
  - rewrite (chunk_count_step (length data)) by done.
    rewrite length_drop. cbn [seq map].
    rewrite chunk_at_0. apply (f_equal (cons _)).
    rewrite <- fmap_S_seq, <- list_fmap_compose.
    apply list_fmap_ext. intros _ i _.
    change ((?f ∘ ?g) i) with (f (g i)). cbv beta.
    by rewrite chunk_at_drop.
  - rewrite (chunk_count_small (length data)) by lia.
    rewrite drop_ge by lia. cbn [length]. rewrite chunk_count_0.
    cbn [seq map]. by rewrite chunk_at_0.
Qed.

(** *** Writing the slice *)

Lemma Write_room (disk : Disk) (f b : list byte) :
  has_room disk (len f + len b) ->
  chunker_v1.Write disk f b = (f ++ b, true).
Proof.
  unfold has_room, chunker_v1.Write. destruct (disk_space disk) as [limit |];
    [| done].
  intros H. by rewrite (proj2 (Z.leb_le _ _)) by done.
Qed.

(** The indices are those of the places in the slice, counted from
    [i]. *)
Definition in_order (chunks : list Chunk) (i : Z) : Prop :=
  forall (j : nat) c, chunks !! j = Some c -> Chunk_Index c = i + Z.of_nat j.

Lemma in_order_cons (c : Chunk) (chunks : list Chunk) (i : Z) :
  in_order (c :: chunks) i <-> Chunk_Index c = i /\ in_order chunks (i + 1).
Proof.
  unfold in_order. split.
  - intros H. split; [rewrite (H 0%nat c eq_refl); lia |].
    intros j c' Hc. rewrite (H (S j) c' Hc). lia.
  - intros [H0 H] [| j] c' Hc.
    + injection Hc as <-. lia.
    + cbn in Hc. rewrite (H j c' Hc). lia.
Qed.

Lemma write_loop_in_order (disk : Disk) (chunks : list Chunk) (i : Z)
    (output : list byte) :
  in_order chunks i ->
  has_room disk (len output + len (concat (Chunk_Data <$> chunks))) ->
  chunker_v1.write_loop disk chunks i output
  = (output ++ concat (Chunk_Data <$> chunks), None).
Proof.
  revert i output. induction chunks as [| c chunks IH]; intros i output Hord Hroom.
  { cbn. by rewrite app_nil_r. }
  apply in_order_cons in Hord as [Hc Hord].
  cbn [chunker_v1.write_loop fmap list_fmap concat] in *.
  fold (fmap (M := list) Chunk_Data chunks) in *.
  rewrite len_app in Hroom.
  rewrite (proj2 (Z.eqb_eq _ _) Hc). cbn [negb].
  rewrite Write_room.
  2:{ apply (has_room_le disk _ _ ltac:(reflexivity)) in Hroom.
      eapply has_room_le; [| exact Hroom].
      pose proof (len_nonneg (concat (Chunk_Data <$> chunks))). lia. }
  rewrite IH; [by rewrite <- app_assoc | done |].
  rewrite len_app. eapply has_room_le; [| exact Hroom]. lia.
Qed.

Lemma write_loop_out_of_order (disk : Disk) (pre : list Chunk) (c : Chunk)
    (post : list Chunk) (i : Z) (output : list byte) :
  in_order pre i ->
  Chunk_Index c <> i + len pre ->
  has_room disk (len output + len (concat (Chunk_Data <$> pre))) ->
  chunker_v1.write_loop disk (pre ++ c :: post) i output
  = (output ++ concat (Chunk_Data <$> pre),
     Some (chunker_v1.MissingOrOutOfOrder (i + len pre))).
Proof.
  revert i output. induction pre as [| p pre IH]; intros i output Hord Hc Hroom.
  { cbn [app chunker_v1.write_loop fmap list_fmap concat].
    unfold len in *. cbn [length] in *. rewrite Z.add_0_r in *.
    rewrite (proj2 (Z.eqb_neq _ _) Hc). cbn [negb]. by rewrite app_nil_r. }
  apply in_order_cons in Hord as [Hp Hord].
  cbn [app chunker_v1.write_loop fmap list_fmap concat] in *.
  fold (fmap (M := list) Chunk_Data pre) in *.
  rewrite len_app in Hroom.
  rewrite (proj2 (Z.eqb_eq _ _) Hp). cbn [negb].
  rewrite Write_room.
  2:{ eapply has_room_le; [| exact Hroom].
      pose proof (len_nonneg (concat (Chunk_Data <$> pre))). lia. }
  rewrite IH; [| done | |].
  - rewrite <- app_assoc. do 3 f_equal. unfold len. cbn [length]. lia.
  - unfold len in *. cbn [length] in Hc. lia.
  - rewrite len_app. eapply has_room_le; [| exact Hroom]. lia.
Qed.

(** X16.  [ChunkFile] and [AssembleChunks] of the earlier version, one after
    the other.  Whatever the reads of the device hold back, [ChunkFile]
    returns chunks numbered from 0 whose data, one after the other, are
    the bytes of the file; every chunk has between 1 and [ChunkSize]
    bytes, states its size and passes [VerifyChunk] with its hash.
    [AssembleChunks] writes these chunks back into a copy of the file,
    on a disk where the output file can be created and that has room for
    it. *)
Theorem ChunkFile_AssembleChunks (disk : Disk) (fs : gmap string File)
    (filePath outputPath : string) (content : list byte) (held : list nat) :
  fs !! filePath = Some (mkFile content false) ->
  len content < 2 ^ 63 ->
  exists chunks,
    chunker_v1.ChunkFile fs filePath held = Ok chunks
    /\ concat (Chunk_Data <$> chunks) = content
    /\ Forall sound_chunk chunks
    /\ (forall (i : nat) c, chunks !! i = Some c -> Chunk_Index c = Z.of_nat i)
    /\ (creatable disk outputPath = true ->
        has_room disk (len content) ->
        chunker_v1.AssembleChunks disk chunks fs outputPath
        = (<[outputPath := mkFile content false]> fs, None)).
Proof.
  intros Hopen Hsize. unfold chunker_v1.ChunkFile. rewrite Hopen.
  cbn [file_bytes]. change 0 with (Z.of_nat 0).
  destruct (chunk_loop_any (S (length content)) content held 0 [])
    as (chunks & Hloop & Hcat & Hsound & Hind); [lia | lia |].
  exists chunks. split; [exact Hloop |]. split; [exact Hcat |].
  split; [exact Hsound |]. split; [exact Hind |].
  intros Hcreate Hroom. unfold chunker_v1.AssembleChunks.
  rewrite os_Create_creatable by done.
  rewrite write_loop_in_order.
  - cbn [app]. rewrite Hcat. by rewrite insert_insert_eq.
  - intros j c Hc. rewrite (Hind j c Hc). lia.
  - rewrite Hcat. exact Hroom.
Qed.

(** A file of three bytes of which the device delivers one byte at a
    time. *)
Lemma ChunkFile_AssembleChunks_witness :
  let fs : gmap string File := {[ "a.bin"%string := mkFile [x61; x62; x63] false ]} in
  exists chunks,
    chunker_v1.ChunkFile fs "a.bin" [2; 1]%nat = Ok chunks
    /\ concat (Chunk_Data <$> chunks) = [x61; x62; x63].
Proof.
  intros fs.
  destruct (ChunkFile_AssembleChunks (mkDisk ∅ None) fs "a.bin" "b.bin"
              [x61; x62; x63] [2; 1]%nat)
    as (chunks & H1 & H2 & _); [reflexivity | vm_compute; reflexivity |].
  exists chunks. split; [exact H1 | exact H2].
Defined.

(** X17.  With complete reads the earlier version cuts a file into the chunks
    that [StreamChunkFile] sends. *)
Theorem ChunkFile_StreamChunkFile (fs : gmap string File) (filePath : string)
    (content : list byte) :
  fs !! filePath = Some (mkFile content false) ->
  len content < 2 ^ 63 ->
  chunker_v1.ChunkFile fs filePath []
  = Ok (Result_Chunk <$> StreamChunkFile fs filePath)
  /\ Forall (fun r => Result_Err r = None) (StreamChunkFile fs filePath).
Proof.
  intros Hopen Hsize.
  rewrite (StreamChunkFile_closed fs filePath content Hopen Hsize).
  split.
  - unfold chunker_v1.ChunkFile. rewrite Hopen. cbn [file_bytes].
    change 0 with (Z.of_nat 0).
    rewrite chunk_loop_closed by lia. cbn [app].
    by rewrite <- list_fmap_compose.
  - apply Forall_forall. intros r Hr.
    apply list_elem_of_fmap in Hr as (i & -> & _). done.
Qed.

Lemma ChunkFile_StreamChunkFile_witness :
  let fs : gmap string File := {[ "a.bin"%string := mkFile [x61; x62; x63] false ]} in
  chunker_v1.ChunkFile fs "a.bin" []
  = Ok (Result_Chunk <$> StreamChunkFile fs "a.bin").
Proof.
  intros fs.
  apply (ChunkFile_StreamChunkFile fs "a.bin" [x61; x62; x63]);
    [reflexivity | vm_compute; reflexivity].
Defined.

(** X18.  [AssembleChunks] of the earlier version takes the chunks only in
    order.  Where the output file can be created and the disk has room
    for the data, it succeeds exactly when every chunk carries the index
    of its place in the slice, and then the file holds the data of the
    chunks one after the other; the first chunk that carries another
    index ends the call with the error that names its place, and the
    file holds the data of the chunks before it.  Where the output file
    cannot be created the call fails and writes nothing. *)
Theorem AssembleChunks_slice_in_order (disk : Disk) (chunks : list Chunk)
    (fs : gmap string File) (outputPath : string) :
  (creatable disk outputPath = false ->
     chunker_v1.AssembleChunks disk chunks fs outputPath
     = (fs, Some chunker_v1.FailedToCreateOutput))
  /\ (creatable disk outputPath = true ->
      has_room disk (len (concat (Chunk_Data <$> chunks))) ->
      ((chunker_v1.AssembleChunks disk chunks fs outputPath).2 = None
       <-> in_order chunks 0)
      /\ (in_order chunks 0 ->
          chunker_v1.AssembleChunks disk chunks fs outputPath
          = (<[outputPath := mkFile (concat (Chunk_Data <$> chunks)) false]> fs,
             None))
      /\ (forall pre c post,
            chunks = pre ++ c :: post ->
            in_order pre 0 -> Chunk_Index c <> len pre ->
            chunker_v1.AssembleChunks disk chunks fs outputPath
            = (<[outputPath := mkFile (concat (Chunk_Data <$> pre)) false]> fs,
               Some (chunker_v1.MissingOrOutOfOrder (len pre))))).
Proof.
  split.
  { intros Hc. unfold chunker_v1.AssembleChunks, os_Create. by rewrite Hc. }
  intros Hcreate Hroom.
  assert (Hok : in_order chunks 0 ->
            chunker_v1.AssembleChunks disk chunks fs outputPath
            = (<[outputPath := mkFile (concat (Chunk_Data <$> chunks)) false]> fs,
               None)).
  { intros Hord. unfold chunker_v1.AssembleChunks.
    rewrite os_Create_creatable by done.
    rewrite write_loop_in_order by done. cbn [app].
    by rewrite insert_insert_eq. }
  assert (Hbad : forall pre c post,
            chunks = pre ++ c :: post ->
            in_order pre 0 -> Chunk_Index c <> len pre ->
            chunker_v1.AssembleChunks disk chunks fs outputPath
            = (<[outputPath := mkFile (concat (Chunk_Data <$> pre)) false]> fs,
               Some (chunker_v1.MissingOrOutOfOrder (len pre)))).
  { intros pre c post -> Hord Hc. unfold chunker_v1.AssembleChunks.
    rewrite os_Create_creatable by done.
    rewrite write_loop_out_of_order; [| done | lia |].
    - cbn [app]. rewrite Z.add_0_l. by rewrite insert_insert_eq.
    - eapply has_room_le; [| exact Hroom].
      rewrite fmap_app, concat_app, len_app. cbn [len length Z.add].
      pose proof (len_nonneg (concat (Chunk_Data <$> c :: post))).
      unfold len at 1. cbn [length]. lia. }
  split; [| split; [exact Hok | exact Hbad]].
  split; [| intros Hord; by rewrite Hok].
  intros Hnone.
  (* the longest prefix in order *)
  assert (Hsplit : forall l i, in_order l i \/
            exists pre c post, l = pre ++ c :: post /\ in_order pre i
                               /\ Chunk_Index c <> i + len pre).
  { clear. induction l as [| c l IH]; intros i.
    { left. intros j c Hc. by rewrite lookup_nil in Hc. }
    destruct (decide (Chunk_Index c = i)) as [Hc | Hc].
    - destruct (IH (i + 1)) as [Hord | (pre & c' & post & -> & Hord & Hc')].
      + left. by apply in_order_cons.
      + right. exists (c :: pre), c', post. split; [done |].
        split; [by apply in_order_cons |].
        unfold len in *. cbn [length]. lia.
    - right. exists [], c, l. split; [done |].
      split; [intros j c' Hj; by rewrite lookup_nil in Hj |].
      unfold len. cbn [length]. lia. }
  destruct (Hsplit chunks 0) as [Hord | (pre & c & post & Heq & Hord & Hc)];
    [done |].
  rewrite (Hbad pre c post Heq Hord) in Hnone by lia. discriminate Hnone.
Qed.

End slices.
